(** * Buffered reader/writer pipeline

    A shallow embedding of the Go package [main] of the repository
    (the sequential reference [Pipe] and the three-stage concurrent
    [Pipeline]) together with the properties of its buffering policy,
    its error handling and its cascading cancellation. *)

From stdpp Require Import base numbers list strings relations.

Set Default Proof Using "Type".
Set Warnings "-register-all,-clear-no-such-hyp".
Open Scope Z_scope.

(** ** Errors

    Go error values as the package builds them: the package-level
    sentinels made by [errors.New], the two [fmt.Errorf] shapes the
    sources use, and [errors.Join]. *)

Inductive sentinel :=
  | ErrEofCommitCookie
  | ErrNextFailed
  | ErrProcessFailed
  | ErrCommitFailed
  | Foreign (id : string).

Inductive error :=
  | Sentinel (s : sentinel)
  | Errorf_wv (w v : error)
  | Errorf_w (prefix : string) (w : error)
  | Join (errs : list error).

Global Instance sentinel_eq_dec : EqDecision sentinel.
Proof. solve_decision. Defined.

(** [errors.Is err target] for a sentinel [target]: [Errorf_wv w v] is
    [fmt.Errorf("%w: %v", w, v)], whose chain continues with [w] only;
    [Errorf_w p w] is [fmt.Errorf(p + ": %w", w)]; a joined error
    matches when one of its members does. *)
Fixpoint errors_Is (err : error) (target : sentinel) : bool :=
  match err with
  | Sentinel s => bool_decide (s = target)
  | Errorf_wv w _ => errors_Is w target
  | Errorf_w _ w => errors_Is w target
  | Join errs =>
      (fix any (l : list error) : bool :=
         match l with
         | [] => false
         | e :: l' => errors_Is e target || any l'
         end) errs
  end.

(** [errors.Join errs...] on the slice the coordinator collected; the
    slice holds no nil, so the result is nil only for the empty one,
    which the callers exclude by the [len(allErrs) > 0] test. *)
Definition errors_Join (errs : list error) : option error :=
  match errs with
  | [] => None
  | _ => Some (Join errs)
  end.

(** ** Data model *)

Definition Cookie := Z.

(** [StageError]: the index of the failing stage and its error. *)
Record StageError := MkStageError { Index : nat; Err : error }.

Section Pipeline.

Context {Item : Type}.

Record batch := Batch { buf : list Item; cookies : list Cookie }.

(** One answer of [Producer.Next]. *)
Record NextResult := NextRes {
  nr_items : list Item;
  nr_cookie : Cookie;
  nr_err : option error
}.

(** The calls made on the collaborators, with their results, and (in the
    concurrent pipeline) the hand-overs between the stages: a batch put
    on the batch channel, a cookie put on the cookie channel.
    [EvProcess bt res] is the call [Process(bt.buf)]; the event keeps
    the whole batch to tell which cookies went with the items. *)
Inductive event :=
  | EvNext (r : NextResult)
  | EvSend (b : batch)
  | EvProcess (bt : batch) (res : option error)
  | EvEmit (cookie : Cookie)
  | EvCommit (cookie : Cookie) (res : option error).

Definition trace := list event.

(** The collaborators. The producer answers its successive [Next] calls
    from a finite script, as the mock producer of the test file does;
    [Commit] and [Process] answer as a function of what happened so far
    and of their argument. *)
Record Producer := MkProducer {
  Next : list NextResult;
  Commit : trace -> Cookie -> option error
}.

Record Consumer := MkConsumer {
  Process : trace -> list Item -> option error
}.

(** What a stage loop does with one answer of [Next]. *)
Inductive fetched :=
  | Eof
  | Failed (e : error)
  | Fetched (items : list Item) (cookie : Cookie).

(** End of stream by the sentinel error, tested before [err != nil]. *)
Definition classify_sentinel (r : NextResult) : fetched :=
  match nr_err r with
  | Some e =>
      if errors_Is e ErrEofCommitCookie then Eof else Failed e
  | None => Fetched (nr_items r) (nr_cookie r)
  end.

(** End of stream by the reserved cookie [-1], tested after [err != nil]. *)
Definition classify_cookie (r : NextResult) : fetched :=
  match nr_err r with
  | Some e => Failed e
  | None =>
      if bool_decide (nr_cookie r = -1) then Eof
      else Fetched (nr_items r) (nr_cookie r)
  end.

(** The variants of the package differ in how the end of the stream is
    signalled and in how a collaborator's error is wrapped. *)
Record variant := MkVariant {
  classify : NextResult -> fetched;
  wrapNext : error -> error;
  wrapProcess : error -> error;
  wrapCommit : error -> error
}.

(** [ultimate/solution.go] and the sequential [Pipe] with the
    [ErrEofCommitCookie] sentinel. *)
Definition sentinel_variant : variant :=
  {| classify := classify_sentinel;
     wrapNext := Errorf_wv (Sentinel ErrNextFailed);
     wrapProcess := Errorf_wv (Sentinel ErrProcessFailed);
     wrapCommit := Errorf_wv (Sentinel ErrCommitFailed) |}.

(** The sequential [Pipe] with the reserved cookie. *)
Definition cookie_variant : variant :=
  {| classify := classify_cookie;
     wrapNext := Errorf_w "next error";
     wrapProcess := Errorf_w "process error";
     wrapCommit := Errorf_w "commit error" |}.

(** [impossible/solution.go]: reserved cookie, sentinel wrapping. *)
Definition cookie_sentinel_variant : variant :=
  {| classify := classify_cookie;
     wrapNext := Errorf_wv (Sentinel ErrNextFailed);
     wrapProcess := Errorf_wv (Sentinel ErrProcessFailed);
     wrapCommit := Errorf_wv (Sentinel ErrCommitFailed) |}.

(** [len(buf)+len(items) > maxItems] *)
Definition overflows (b items : list Item) (maxItems : Z) : bool :=
  bool_decide (Z.of_nat (length b) + Z.of_nat (length items) > maxItems).

(** [runtime.maxAlloc] on the 64-bit ports, in bytes. *)
Definition maxAlloc : Z := 2 ^ 48.

(** [make([]any, 0, maxItems)], the first statement of the sequential
    [Pipe] and of [runNext].  [makeslice] panics when the capacity is
    negative or when its size in bytes, 16 for each element of a
    [[]any], is above [runtime.maxAlloc]; and the program dies as well
    when that size is more than the allocator can get for it, [memory]
    bytes. *)
Definition make_fails (memory maxItems : Z) : bool :=
  bool_decide (maxItems < 0 \/ Z.min memory maxAlloc < 16 * maxItems).

(** ** The sequential reference [Pipe] *)

Section Sequential.

Variable v : variant.
Variable p : Producer.
Variable c : Consumer.
Variable maxItems : Z.
Variable memory : Z.

(** [for _, ck := range cookies { if err := p.Commit(ck); err != nil { return ... } }] *)
Fixpoint commit_all (cks : list Cookie) (tr : trace) : trace * option error :=
  match cks with
  | [] => (tr, None)
  | ck :: cks' =>
      let res := Commit p tr ck in
      let tr' := tr ++ [EvCommit ck res] in
      match res with
      | Some e => (tr', Some (wrapCommit v e))
      | None => commit_all cks' tr'
      end
  end.

(** [c.Process(buf)] followed by the commit loop. *)
Definition deliver (b : list Item) (cks : list Cookie) (tr : trace)
  : trace * option error :=
  let res := Process c tr b in
  let tr' := tr ++ [EvProcess (Batch b cks) res] in
  match res with
  | Some e => (tr', Some (wrapProcess v e))
  | None => commit_all cks tr'
  end.

(** The loop of [Pipe]; [None] as outcome means that the script ran out
    before the producer signalled the end of the stream or failed. *)
Fixpoint Pipe_loop (sc : list NextResult) (b : list Item) (cks : list Cookie)
    (tr : trace) : trace * option (option error) :=
  match sc with
  | [] => (tr, None)
  | r :: sc' =>
      let tr := tr ++ [EvNext r] in
      match classify v r with
      | Failed e => (tr, Some (Some (wrapNext v e)))
      | Eof =>
          if bool_decide (0 < length b)%nat then
            let '(tr', res) := deliver b cks tr in (tr', Some res)
          else (tr, Some None)
      | Fetched items cookie =>
          if overflows b items maxItems then
            match deliver b cks tr with
            | (tr', Some e) => (tr', Some (Some e))
            | (tr', None) => Pipe_loop sc' ([] ++ items) ([] ++ [cookie]) tr'
            end
          else Pipe_loop sc' (b ++ items) (cks ++ [cookie]) tr
      end
  end.

(** [Pipe]: where [make([]any, 0, maxItems)] fails the program stops
    ([None]), before any call on the collaborators. *)
Definition Pipe_seq : option (trace * option (option error)) :=
  if make_fails memory maxItems then None
  else Some (Pipe_loop (Next p) [] [] []).

End Sequential.

(** ** Channels, cancellation tokens and [sync.Once] *)

(** The result of one operation of a goroutine: it cannot proceed yet,
    it panics, or it goes on. *)
Inductive op (A : Type) :=
  | Blocks
  | Panics
  | Goes (a : A).
Global Arguments Blocks {A}.
Global Arguments Panics {A}.
Global Arguments Goes {A} a.

(** A buffered channel: the queued values and whether it was closed. *)
Record chan (A : Type) := MkChan { queue : list A; closed : bool }.
Global Arguments MkChan {A} queue closed.
Global Arguments queue {A} c.
Global Arguments closed {A} c.

Definition make_chan {A} : chan A := MkChan [] false.

(** [ch <- x] on a channel of capacity [cap]. *)
Definition chan_send {A} (cap : nat) (ch : chan A) (x : A) : op (chan A) :=
  if closed ch then Panics
  else if bool_decide (length (queue ch) < cap)%nat
       then Goes (MkChan (queue ch ++ [x]) false)
       else Blocks.

(** [x, ok := <-ch] *)
Definition chan_recv {A} (ch : chan A) : op (option A * chan A) :=
  match queue ch with
  | x :: q => Goes (Some x, MkChan q (closed ch))
  | [] => if closed ch then Goes (None, ch) else Blocks
  end.

(** [close(ch)] *)
Definition chan_close {A} (ch : chan A) : op (chan A) :=
  if closed ch then Panics else Goes (MkChan (queue ch) true).

(** [writeChanWithCancel]: a select between the cancellation token and
    the send; [pick] tells which case runs when both are ready. *)
Definition writeChanWithCancel {A} (pick cancelled : bool) (cap : nat)
    (ch : chan A) (x : A) : op (bool * chan A) :=
  match chan_send cap ch x with
  | Blocks => if cancelled then Goes (false, ch) else Blocks
  | Panics => if cancelled && pick then Goes (false, ch) else Panics
  | Goes ch' => if cancelled && pick then Goes (false, ch) else Goes (true, ch')
  end.

(** [readChanWithCancel]: the same select around a receive; a closed and
    drained channel answers [None], as a fired token does. *)
Definition readChanWithCancel {A} (pick cancelled : bool) (ch : chan A)
  : op (option A * chan A) :=
  match chan_recv ch with
  | Blocks => if cancelled then Goes (None, ch) else Blocks
  | Panics => Panics
  | Goes (x, ch') => if cancelled && pick then Goes (None, ch) else Goes (x, ch')
  end.

(** [onceList[i].Do(func() { close(pl.cancelChans[i]) })] on the slices
    of once flags and of tokens (a token is [true] when closed). An index
    out of range and the close of a closed channel panic. *)
Definition once_do_close (i : nat) (onces tokens : list bool)
  : option (list bool * list bool) :=
  match onces !! i with
  | None => None
  | Some true => Some (onces, tokens)
  | Some false =>
      match tokens !! i with
      | Some false => Some (<[i:=true]> onces, <[i:=true]> tokens)
      | _ => None
      end
  end.

(** [for i := se.Index; i >= 0; i-- { onceList[i].Do(...) }] *)
Fixpoint cascade (i : nat) (onces tokens : list bool)
  : option (list bool * list bool) :=
  match once_do_close i onces tokens with
  | None => None
  | Some (onces', tokens') =>
      match i with
      | O => Some (onces', tokens')
      | S j => cascade j onces' tokens'
      end
  end.

(** The coordinator of [impossible/solution.go] tells the stage from the
    wrapped sentinel and closes the tokens by name. *)
Definition cascade_by_kind (e : error) (onces tokens : list bool)
  : option (list bool * list bool) :=
  if errors_Is e ErrNextFailed then once_do_close 0 onces tokens
  else if errors_Is e ErrProcessFailed then
    '(o, t) ← once_do_close 1 onces tokens; once_do_close 0 o t
  else if errors_Is e ErrCommitFailed then
    '(o, t) ← once_do_close 2 onces tokens;
    '(o, t) ← once_do_close 1 o t; once_do_close 0 o t
  else Some (onces, tokens).

(** ** The concurrent pipeline *)

(** What is left of a stage goroutine once its stage function returned:
    report the error, if any, on [errCh], then [wg.Done()]. *)
Inductive tail :=
  | Report (e : error)
  | Finish
  | Exited.

Definition tail_of (r : option error) : tail :=
  match r with
  | Some e => Report e
  | None => Finish
  end.

(** Program points of [runNext]. *)
Inductive fetch_pc :=
  | FSelect (b : list Item) (cks : list Cookie)
  | FNext (b : list Item) (cks : list Cookie)
  | FWrite (bt : batch) (items : list Item) (cookie : Cookie)
  | FWriteEof (bt : batch)
  | FReturn (r : option error)
  | FTail (t : tail).

(** Program points of [runProcess]. *)
Inductive process_pc :=
  | PRead
  | PProcess (bt : batch)
  | PWrite (cookie : Cookie) (more : list Cookie)
  | PReturn (r : option error)
  | PTail (t : tail).

(** Program points of [runCommit]. *)
Inductive commit_pc :=
  | CRead
  | CCommit (cookie : Cookie)
  | CTail (t : tail).

(** Program points of the goroutine that drains [errCh]. *)
Inductive coord_pc :=
  | KRange
  | KCascade (se : StageError) (i : nat)
  | KForward (se : StageError)
  | KClose
  | KExited.

(** Program points of [Run] after the goroutines were started. *)
Inductive main_pc :=
  | MWait
  | MCloseErr
  | MCollect (allErrs : list error)
  | MReturned (r : option error).

Record state := MkState {
  rest : list NextResult;
  log : trace;
  batchCh : chan batch;
  cookiesCh : chan Cookie;
  errCh : chan StageError;
  doneErrCh : chan StageError;
  cancelChans : list bool;
  onceList : list bool;
  wg : nat;
  fetch : fetch_pc;
  proc : process_pc;
  comm : commit_pc;
  coord : coord_pc;
  main : main_pc
}.

Definition set_rest x s := MkState x (log s) (batchCh s) (cookiesCh s) (errCh s) (doneErrCh s) (cancelChans s) (onceList s) (wg s) (fetch s) (proc s) (comm s) (coord s) (main s).
Definition add_log e s := MkState (rest s) (log s ++ [e]) (batchCh s) (cookiesCh s) (errCh s) (doneErrCh s) (cancelChans s) (onceList s) (wg s) (fetch s) (proc s) (comm s) (coord s) (main s).
Definition set_batchCh x s := MkState (rest s) (log s) x (cookiesCh s) (errCh s) (doneErrCh s) (cancelChans s) (onceList s) (wg s) (fetch s) (proc s) (comm s) (coord s) (main s).
Definition set_cookiesCh x s := MkState (rest s) (log s) (batchCh s) x (errCh s) (doneErrCh s) (cancelChans s) (onceList s) (wg s) (fetch s) (proc s) (comm s) (coord s) (main s).
Definition set_errCh x s := MkState (rest s) (log s) (batchCh s) (cookiesCh s) x (doneErrCh s) (cancelChans s) (onceList s) (wg s) (fetch s) (proc s) (comm s) (coord s) (main s).
Definition set_doneErrCh x s := MkState (rest s) (log s) (batchCh s) (cookiesCh s) (errCh s) x (cancelChans s) (onceList s) (wg s) (fetch s) (proc s) (comm s) (coord s) (main s).
Definition set_tokens o t s := MkState (rest s) (log s) (batchCh s) (cookiesCh s) (errCh s) (doneErrCh s) t o (wg s) (fetch s) (proc s) (comm s) (coord s) (main s).
Definition set_wg x s := MkState (rest s) (log s) (batchCh s) (cookiesCh s) (errCh s) (doneErrCh s) (cancelChans s) (onceList s) x (fetch s) (proc s) (comm s) (coord s) (main s).
Definition set_fetch x s := MkState (rest s) (log s) (batchCh s) (cookiesCh s) (errCh s) (doneErrCh s) (cancelChans s) (onceList s) (wg s) x (proc s) (comm s) (coord s) (main s).
Definition set_proc x s := MkState (rest s) (log s) (batchCh s) (cookiesCh s) (errCh s) (doneErrCh s) (cancelChans s) (onceList s) (wg s) (fetch s) x (comm s) (coord s) (main s).
Definition set_comm x s := MkState (rest s) (log s) (batchCh s) (cookiesCh s) (errCh s) (doneErrCh s) (cancelChans s) (onceList s) (wg s) (fetch s) (proc s) x (coord s) (main s).
Definition set_coord x s := MkState (rest s) (log s) (batchCh s) (cookiesCh s) (errCh s) (doneErrCh s) (cancelChans s) (onceList s) (wg s) (fetch s) (proc s) (comm s) x (main s).
Definition set_main x s := MkState (rest s) (log s) (batchCh s) (cookiesCh s) (errCh s) (doneErrCh s) (cancelChans s) (onceList s) (wg s) (fetch s) (proc s) (comm s) (coord s) x.

(** The goroutines, and a scheduling choice: who moves, and which case a
    select takes when its token and its channel are both ready. *)
Inductive actor := AFetch | AProcess | ACommit | ACoord | AMain.

Record choice := Choose { who : actor; pick : bool }.

(** Capacities of [batchCh], [cookiesCh] and of the two error channels
    ([len(pl.stages)]). *)
Definition batchCap : nat := 1.
Definition cookiesCap : nat := 256.
Definition stages : nat := 3.

(** [<-cancelCh] is ready. *)
Definition cancelled (i : nat) (s : state) : bool :=
  default false (cancelChans s !! i).

Definition op_bind {A B} (o : op A) (f : A -> op B) : op B :=
  match o with
  | Blocks => Blocks
  | Panics => Panics
  | Goes a => f a
  end.

Section Concurrent.

Variable v : variant.
Variable p : Producer.
Variable c : Consumer.
Variable maxItems : Z.

(** The goroutine wrapper of [Run] around stage [idx]. *)
Definition step_tail (idx : nat) (t : tail) (s : state) : op (tail * state) :=
  match t with
  | Report e =>
      op_bind (chan_send stages (errCh s) (MkStageError idx e))
        (fun ch => Goes (Finish, set_errCh ch s))
  | Finish =>
      match wg s with
      | O => Panics
      | S n => Goes (Exited, set_wg n s)
      end
  | Exited => Blocks
  end.

(** [runNext] as stage 0. *)
Definition step_fetch (pk : bool) (s : state) : op state :=
  match fetch s with
  | FSelect b cks =>
      if cancelled 0 s then Goes (set_fetch (FReturn None) s)
      else Goes (set_fetch (FNext b cks) s)
  | FNext b cks =>
      match rest s with
      | [] => Blocks
      | r :: rs =>
          let s := set_rest rs (add_log (EvNext r) s) in
          match classify v r with
          | Eof =>
              if bool_decide (0 < length b)%nat
              then Goes (set_fetch (FWriteEof (Batch b cks)) s)
              else Goes (set_fetch (FReturn None) s)
          | Failed e => Goes (set_fetch (FReturn (Some (wrapNext v e))) s)
          | Fetched items ck =>
              if overflows b items maxItems
              then Goes (set_fetch (FWrite (Batch b cks) items ck) s)
              else Goes (set_fetch (FSelect (b ++ items) (cks ++ [ck])) s)
          end
      end
  | FWrite bt items ck =>
      op_bind (writeChanWithCancel pk (cancelled 0 s) batchCap (batchCh s) bt)
        (fun '(ok, ch) =>
           if ok
           then Goes (set_fetch (FSelect ([] ++ items) ([] ++ [ck]))
                        (set_batchCh ch (add_log (EvSend bt) s)))
           else Goes (set_fetch (FReturn None) s))
  | FWriteEof bt =>
      op_bind (writeChanWithCancel pk (cancelled 0 s) batchCap (batchCh s) bt)
        (fun '(ok, ch) =>
           if ok
           then Goes (set_fetch (FReturn None)
                        (set_batchCh ch (add_log (EvSend bt) s)))
           else Goes (set_fetch (FReturn None) s))
  | FReturn r =>
      op_bind (chan_close (batchCh s))
        (fun ch => Goes (set_fetch (FTail (tail_of r)) (set_batchCh ch s)))
  | FTail t =>
      op_bind (step_tail 0 t s) (fun '(t', s') => Goes (set_fetch (FTail t') s'))
  end.

(** The cookie loop of [runProcess]: the next cookie to send, or back to
    the receive. *)
Definition emit (cks : list Cookie) : process_pc :=
  match cks with
  | [] => PRead
  | ck :: more => PWrite ck more
  end.

(** [runProcess] as stage 1. *)
Definition step_process (pk : bool) (s : state) : op state :=
  match proc s with
  | PRead =>
      op_bind (readChanWithCancel pk (cancelled 1 s) (batchCh s))
        (fun '(x, ch) =>
           match x with
           | Some bt => Goes (set_proc (PProcess bt) (set_batchCh ch s))
           | None => Goes (set_proc (PReturn None) s)
           end)
  | PProcess bt =>
      let res := Process c (log s) (buf bt) in
      let s := add_log (EvProcess bt res) s in
      match res with
      | Some e => Goes (set_proc (PReturn (Some (wrapProcess v e))) s)
      | None => Goes (set_proc (emit (cookies bt)) s)
      end
  | PWrite ck more =>
      op_bind (writeChanWithCancel pk (cancelled 1 s) cookiesCap (cookiesCh s) ck)
        (fun '(ok, ch) =>
           if ok
           then Goes (set_proc (emit more) (set_cookiesCh ch (add_log (EvEmit ck) s)))
           else Goes (set_proc (PReturn None) s))
  | PReturn r =>
      op_bind (chan_close (cookiesCh s))
        (fun ch => Goes (set_proc (PTail (tail_of r)) (set_cookiesCh ch s)))
  | PTail t =>
      op_bind (step_tail 1 t s) (fun '(t', s') => Goes (set_proc (PTail t') s'))
  end.

(** [runCommit] as stage 2. *)
Definition step_commit (pk : bool) (s : state) : op state :=
  match comm s with
  | CRead =>
      op_bind (readChanWithCancel pk (cancelled 2 s) (cookiesCh s))
        (fun '(x, ch) =>
           match x with
           | Some ck => Goes (set_comm (CCommit ck) (set_cookiesCh ch s))
           | None => Goes (set_comm (CTail (tail_of None)) s)
           end)
  | CCommit ck =>
      let res := Commit p (log s) ck in
      let s := add_log (EvCommit ck res) s in
      match res with
      | Some e => Goes (set_comm (CTail (tail_of (Some (wrapCommit v e)))) s)
      | None => Goes (set_comm CRead s)
      end
  | CTail t =>
      op_bind (step_tail 2 t s) (fun '(t', s') => Goes (set_comm (CTail t') s'))
  end.

(** The goroutine of [Run] that ranges over [errCh]. *)
Definition step_coord (s : state) : op state :=
  match coord s with
  | KRange =>
      op_bind (chan_recv (errCh s))
        (fun '(x, ch) =>
           match x with
           | Some se => Goes (set_coord (KCascade se (Index se)) (set_errCh ch s))
           | None => Goes (set_coord KClose s)
           end)
  | KCascade se i =>
      match once_do_close i (onceList s) (cancelChans s) with
      | None => Panics
      | Some (o, t) =>
          Goes (set_coord (match i with O => KForward se | S j => KCascade se j end)
                  (set_tokens o t s))
      end
  | KForward se =>
      op_bind (chan_send stages (doneErrCh s) se)
        (fun ch => Goes (set_coord KRange (set_doneErrCh ch s)))
  | KClose =>
      op_bind (chan_close (doneErrCh s))
        (fun ch => Goes (set_coord KExited (set_doneErrCh ch s)))
  | KExited => Blocks
  end.

(** [Run] from [wg.Wait()] on. *)
Definition step_main (s : state) : op state :=
  match main s with
  | MWait =>
      match wg s with
      | O => Goes (set_main MCloseErr s)
      | S _ => Blocks
      end
  | MCloseErr =>
      op_bind (chan_close (errCh s))
        (fun ch => Goes (set_main (MCollect []) (set_errCh ch s)))
  | MCollect allErrs =>
      op_bind (chan_recv (doneErrCh s))
        (fun '(x, ch) =>
           match x with
           | Some se =>
               Goes (set_main (MCollect (allErrs ++ [Err se])) (set_doneErrCh ch s))
           | None =>
               Goes (set_main
                       (MReturned (if bool_decide (0 < length allErrs)%nat
                                   then errors_Join allErrs else None)) s)
           end)
  | MReturned _ => Blocks
  end.

Definition step (ch : choice) (s : state) : op state :=
  match who ch with
  | AFetch => step_fetch (pick ch) s
  | AProcess => step_process (pick ch) s
  | ACommit => step_commit (pick ch) s
  | ACoord => step_coord s
  | AMain => step_main s
  end.

(** [Pipe] builds the channels and the three stages ([AddStage] makes
    one token per stage) and calls [Run], which starts every stage and
    the draining goroutine before it waits: the state in which all of
    them are started and none has moved. *)
Definition Pipe_init : state :=
  {| rest := Next p; log := [];
     batchCh := make_chan; cookiesCh := make_chan;
     errCh := make_chan; doneErrCh := make_chan;
     cancelChans := replicate stages false;
     onceList := replicate stages false;
     wg := stages;
     fetch := FSelect [] []; proc := PRead; comm := CRead;
     coord := KRange; main := MWait |}.

(** Running a schedule: a choice whose goroutine is blocked is skipped;
    a panic stops the program. *)
Fixpoint run (sched : list choice) (s : state) : option state :=
  match sched with
  | [] => Some s
  | ch :: sched' =>
      match step ch s with
      | Blocks => run sched' s
      | Panics => None
      | Goes s' => run sched' s'
      end
  end.

(** The first goroutine of the list that can move, moves. *)
Fixpoint first_ready (l : list choice) (s : state) : op state :=
  match l with
  | [] => Blocks
  | ch :: l' =>
      match step ch s with
      | Blocks => first_ready l' s
      | r => r
      end
  end.

(** A run under a fixed priority among the goroutines. *)
Fixpoint run_priority (prio : list choice) (fuel : nat) (s : state) : option state :=
  match fuel with
  | O => Some s
  | S n =>
      match first_ready prio s with
      | Blocks => Some s
      | Panics => None
      | Goes s' => run_priority prio n s'
      end
  end.

(** What [Pipe] returned, once it has. *)
Definition result (s : state) : option (option error) :=
  match main s with
  | MReturned r => Some r
  | _ => None
  end.

(** ** Executions and what they leave in the log *)

Definition steps (s s' : state) : Prop := exists ch, step ch s = Goes s'.

Definition reachable (s : state) : Prop := rtc steps Pipe_init s.

(** Projections of the log. *)
Definition nexts (l : trace) : list NextResult :=
  omap (fun e => match e with EvNext r => Some r | _ => None end) l.
Definition sends (l : trace) : list batch :=
  omap (fun e => match e with EvSend b => Some b | _ => None end) l.
Definition procs (l : trace) : list (batch * option error) :=
  omap (fun e => match e with EvProcess x r => Some (x, r) | _ => None end) l.
Definition emits (l : trace) : list Cookie :=
  omap (fun e => match e with EvEmit ck => Some ck | _ => None end) l.
Definition commits (l : trace) : list (Cookie * option error) :=
  omap (fun e => match e with EvCommit ck r => Some (ck, r) | _ => None end) l.

(** The batches [Process] was called on, the cookies [Commit] was called
    on, and the cookies of the batches [Process] accepted. *)
Definition processed (l : trace) : list batch :=
  omap (fun e => match e with EvProcess x _ => Some x | _ => None end) l.
Definition committed (l : trace) : list Cookie :=
  omap (fun e => match e with EvCommit ck _ => Some ck | _ => None end) l.
Definition owed (l : trace) : list Cookie :=
  concat (omap (fun e => match e with EvProcess x None => Some (cookies x) | _ => None end) l).

(** A call of [Process], of [Commit], failed. *)
Definition pfailed (l : trace) : bool :=
  existsb (fun e => match e with EvProcess _ (Some _) => true | _ => false end) l.
Definition cfailed (l : trace) : bool :=
  existsb (fun e => match e with EvCommit _ (Some _) => true | _ => false end) l.

(** The calls on [Process] and [Commit], in the order they were made. *)
Definition is_call (e : event) : bool :=
  match e with EvProcess _ _ | EvCommit _ _ => true | _ => false end.
Definition calls (l : trace) : trace := filter (fun e => is_call e = true) l.

(** The errors the stage functions returned, from the failures logged. *)
Definition failure (e : event) : option error :=
  match e with
  | EvNext r =>
      match classify v r with
      | Failed e => Some (wrapNext v e)
      | _ => None
      end
  | EvProcess _ (Some e) => Some (wrapProcess v e)
  | EvCommit _ (Some e) => Some (wrapCommit v e)
  | _ => None
  end.
Definition failures (l : trace) : list error := omap failure l.

(** The batches [runNext] hands over when nothing cancels it, from the
    answers still to come and the buffer it holds. *)
Fixpoint batches (sc : list NextResult) (b : list Item) (cks : list Cookie)
  : list batch :=
  match sc with
  | [] => []
  | r :: sc' =>
      match classify v r with
      | Eof => if bool_decide (0 < length b)%nat then [Batch b cks] else []
      | Failed _ => []
      | Fetched items ck =>
          if overflows b items maxItems
          then Batch b cks :: batches sc' ([] ++ items) ([] ++ [ck])
          else batches sc' (b ++ items) (cks ++ [ck])
      end
  end.

(** The answers [runNext] consumes: up to the first that ends the loop. *)
Fixpoint consumed (sc : list NextResult) : list NextResult :=
  match sc with
  | [] => []
  | r :: sc' =>
      match classify v r with
      | Fetched _ _ => r :: consumed sc'
      | _ => [r]
      end
  end.

(** The script makes [runNext] return: some answer is the end of the
    stream or an error. *)
Definition terminates (sc : list NextResult) : Prop :=
  Exists (fun r => match classify v r with Fetched _ _ => False | _ => True end) sc.

(** ** Invariants of the concurrent pipeline *)

Definition alive (t : option tail) : nat :=
  match t with Some Exited => 0 | _ => 1 end%nat.
Definition may_report (t : option tail) : nat :=
  match t with Some Finish | Some Exited => 0 | _ => 1 end%nat.

Definition fetch_tail (pc : fetch_pc) : option tail :=
  match pc with FTail t => Some t | _ => None end.
Definition proc_tail (pc : process_pc) : option tail :=
  match pc with PTail t => Some t | _ => None end.
Definition comm_tail (pc : commit_pc) : option tail :=
  match pc with CTail t => Some t | _ => None end.

(** The error values on their way from a stage to the result of [Run]. *)
Definition fetch_err (pc : fetch_pc) : list error :=
  match pc with
  | FReturn (Some e) | FTail (Report e) => [e]
  | _ => []
  end.
Definition proc_err (pc : process_pc) : list error :=
  match pc with
  | PReturn (Some e) | PTail (Report e) => [e]
  | _ => []
  end.
Definition comm_err (pc : commit_pc) : list error :=
  match pc with
  | CTail (Report e) => [e]
  | _ => []
  end.

Definition held (pc : coord_pc) : list StageError :=
  match pc with
  | KCascade se _ | KForward se => [se]
  | _ => []
  end.

Definition collected (pc : main_pc) : list error :=
  match pc with
  | MCollect l => l
  | MReturned (Some (Join l)) => l
  | _ => []
  end.

Definition flight (s : state) : list error :=
  fetch_err (fetch s) ++ proc_err (proc s) ++ comm_err (comm s) ++
  (Err <$> queue (errCh s)) ++ (Err <$> held (coord s)) ++
  (Err <$> queue (doneErrCh s)) ++ collected (main s).

(** The cascade for an error of stage [k] or of a later one is under
    way or over. *)
Definition closing (k : nat) (errq : list StageError) (pc : coord_pc)
    (tokens : list bool) : Prop :=
  Exists (fun se => (k <= Index se)%nat) (errq ++ held pc) \/
  (forall j, (j <= k)%nat -> tokens !! j = Some true).

(** Who is where, and what the channels hold. *)
Record shape_inv (s : state) : Prop := {
  c_tokens : exists t0 t1 t2,
    cancelChans s = [t0; t1; t2] /\ onceList s = [t0; t1; t2];
  c_wg : wg s = (alive (fetch_tail (fetch s)) + alive (proc_tail (proc s))
                 + alive (comm_tail (comm s)))%nat;
  c_main_wait : match main s with MWait => True | _ => wg s = O end;
  c_errCh_closed :
    closed (errCh s) = match main s with MWait | MCloseErr => false | _ => true end;
  c_coord_done :
    match coord s with
    | KClose | KExited => queue (errCh s) = [] /\ closed (errCh s) = true
    | _ => True
    end;
  c_done_closed :
    closed (doneErrCh s) = match coord s with KExited => true | _ => false end;
  c_returned :
    match main s with
    | MReturned _ => coord s = KExited /\ queue (doneErrCh s) = []
    | _ => True
    end;
  c_cap :
    (may_report (fetch_tail (fetch s)) + may_report (proc_tail (proc s))
     + may_report (comm_tail (comm s))
     + length (queue (errCh s)) + length (held (coord s))
     + length (queue (doneErrCh s)) + length (collected (main s)) <= stages)%nat;
  c_batch_cap : (length (queue (batchCh s)) <= batchCap)%nat;
  c_cookies_cap : (length (queue (cookiesCh s)) <= cookiesCap)%nat;
  c_batch_closed :
    closed (batchCh s) = match fetch s with FTail _ => true | _ => false end;
  c_cookies_closed :
    closed (cookiesCh s) = match proc s with PTail _ => true | _ => false end;
  c_idx : Forall (fun se => (Index se < stages)%nat) (queue (errCh s) ++ held (coord s));
  c_cascade : match coord s with KCascade se i => (i <= Index se)%nat | _ => True end;
  c_result :
    match main s with
    | MReturned r => r = errors_Join (collected (main s))
    | _ => True
    end
}.

(** How far the cancellation went. *)
Record cancel_inv (s : state) : Prop := {
  c_held :
    match coord s with
    | KCascade se i =>
        forall j, (i < j <= Index se)%nat -> cancelChans s !! j = Some true
    | KForward se => forall j, (j <= Index se)%nat -> cancelChans s !! j = Some true
    | _ => True
    end;
  c_token_closing :
    forall k, cancelChans s !! k = Some true ->
      closing k (queue (errCh s)) (coord s) (cancelChans s);
  c_closing1 :
    match proc s with
    | PReturn None | PTail Finish | PTail Exited =>
        closed (batchCh s) = true \/
        closing 1 (queue (errCh s)) (coord s) (cancelChans s)
    | _ => True
    end;
  c_closing2 :
    match comm s with
    | CTail Finish | CTail Exited =>
        closed (cookiesCh s) = true \/
        closing 2 (queue (errCh s)) (coord s) (cancelChans s)
    | _ => True
    end
}.

(** What a stage holds in its hands. *)
Definition proc_hand (pc : process_pc) : list batch :=
  match pc with PProcess bt => [bt] | _ => [] end.
Definition comm_hand (pc : commit_pc) : list Cookie :=
  match pc with CCommit ck => [ck] | _ => [] end.

(** Nothing is lost and nothing is reordered on the way from [Next] to
    [Commit]; what a stage drops, it drops when it is cancelled or when
    it fails. *)
Record data_inv (s : state) : Prop := {
  d_next :
    match fetch s with
    | FSelect _ _ | FNext _ _ | FWrite _ _ _ =>
        nexts (log s) ++ consumed (rest s) = consumed (Next p)
    | _ => nexts (log s) `prefix_of` consumed (Next p)
    end;
  d_fetch :
    match fetch s with
    | FSelect b cks | FNext b cks =>
        sends (log s) ++ batches (rest s) b cks = batches (Next p) [] []
    | FWrite bt items ck =>
        sends (log s) ++ bt :: batches (rest s) ([] ++ items) ([] ++ [ck])
        = batches (Next p) [] []
    | FWriteEof bt => sends (log s) ++ [bt] = batches (Next p) [] []
    | FReturn _ | FTail _ =>
        sends (log s) `prefix_of` batches (Next p) [] [] /\
        (cancelled 0 s = false -> sends (log s) = batches (Next p) [] [])
    end;
  d_batch :
    sends (log s) = processed (log s) ++ proc_hand (proc s) ++ queue (batchCh s);
  d_emit :
    match proc s with
    | PRead | PProcess _ => emits (log s) = owed (log s)
    | PWrite ck more => emits (log s) ++ ck :: more = owed (log s)
    | PReturn _ | PTail _ =>
        emits (log s) `prefix_of` owed (log s) /\
        (cancelled 1 s = false -> emits (log s) = owed (log s)) /\
        (pfailed (log s) = true -> emits (log s) = owed (log s))
    end;
  d_cookie :
    emits (log s) = committed (log s) ++ comm_hand (comm s) ++ queue (cookiesCh s);
  d_pfail :
    match proc s with
    | PRead | PProcess _ | PWrite _ _ => pfailed (log s) = false
    | _ => True
    end;
  d_cfail :
    match comm s with
    | CRead | CCommit _ => cfailed (log s) = false
    | _ => True
    end;
  d_pdrain :
    match proc s with
    | PReturn _ | PTail _ =>
        cancelled 1 s = false -> pfailed (log s) = false ->
        queue (batchCh s) = [] /\ closed (batchCh s) = true
    | _ => True
    end;
  d_cdrain :
    match comm s with
    | CTail _ =>
        cancelled 2 s = false -> cfailed (log s) = false ->
        queue (cookiesCh s) = [] /\ closed (cookiesCh s) = true
    | _ => True
    end
}.

(** Every error a stage returned is on its way to the result, or in it,
    and no token is closed unless some stage failed. *)
Record err_inv (s : state) : Prop := {
  e_flight : flight s ≡ₚ failures (log s);
  e_tokens : forall k, cancelChans s !! k = Some true -> failures (log s) <> []
}.

(** All of the above. *)
Record inv (s : state) : Prop := {
  inv_shape : shape_inv s;
  inv_cancel : cancel_inv s;
  inv_data : data_inv s;
  inv_err : err_inv s
}.

(** While [runNext] loops, an answer that ends the loop is still to
    come. *)
Definition fetch_can_end (s : state) : Prop :=
  match fetch s with
  | FSelect _ _ | FNext _ _ | FWrite _ _ _ => terminates (rest s)
  | _ => True
  end.

(** ** A bound on the steps still to come

    What every goroutine has left to do at most, counted in steps: an
    answer of [Next] costs the fetch loop three steps, and may cost a
    batch and a cookie their way down the pipeline; an error costs its
    report, its cascade and its collection. *)

Definition tail_size (idx : nat) (t : tail) : nat :=
  match t with
  | Report _ => idx + 7
  | Finish => 1
  | Exited => 0
  end%nat.

Definition batch_size (bt : batch) : nat := (2 + 3 * length (cookies bt))%nat.

Definition fetch_size (pc : fetch_pc) (sc : list NextResult) : nat :=
  match pc with
  | FSelect _ cks => 8 * length sc + 3 * length cks + 3
  | FNext _ cks => 8 * length sc + 3 * length cks + 2
  | FWrite bt _ _ => 8 * length sc + batch_size bt + 7
  | FWriteEof bt => 3 + batch_size bt
  | FReturn r => 1 + tail_size 0 (tail_of r)
  | FTail t => tail_size 0 t
  end%nat.

Definition proc_size (pc : process_pc) : nat :=
  match pc with
  | PRead => 9
  | PProcess bt => 10 + 3 * length (cookies bt)
  | PWrite _ more => 12 + 3 * length more
  | PReturn r => 1 + tail_size 1 (tail_of r)
  | PTail t => tail_size 1 t
  end%nat.

Definition comm_size (pc : commit_pc) : nat :=
  match pc with
  | CRead => 9
  | CCommit _ => 10
  | CTail t => tail_size 2 t
  end%nat.

Definition coord_size (pc : coord_pc) : nat :=
  match pc with
  | KRange => 2
  | KCascade _ i => i + 5
  | KForward _ => 4
  | KClose => 1
  | KExited => 0
  end%nat.

Definition main_size (pc : main_pc) : nat :=
  match pc with
  | MWait => 3
  | MCloseErr => 2
  | MCollect _ => 1
  | MReturned _ => 0
  end%nat.

Fixpoint batches_size (q : list batch) : nat :=
  match q with
  | [] => 0
  | bt :: q' => batch_size bt + batches_size q'
  end%nat.

Fixpoint errors_size (q : list StageError) : nat :=
  match q with
  | [] => 0
  | se :: q' => Index se + 5 + errors_size q'
  end%nat.

Definition measure (s : state) : nat :=
  (fetch_size (fetch s) (rest s)
   + batches_size (queue (batchCh s))
   + proc_size (proc s)
   + 2 * length (queue (cookiesCh s))
   + comm_size (comm s)
   + errors_size (queue (errCh s))
   + coord_size (coord s)
   + length (queue (doneErrCh s))
   + main_size (main s))%nat.

(** The items and the cookies [runNext] receives before its loop ends,
    in fetch order. *)
Fixpoint fetched_items (sc : list NextResult) : list Item :=
  match sc with
  | [] => []
  | r :: sc' =>
      match classify v r with
      | Fetched items _ => items ++ fetched_items sc'
      | _ => []
      end
  end.

Fixpoint fetched_cookies (sc : list NextResult) : list Cookie :=
  match sc with
  | [] => []
  | r :: sc' =>
      match classify v r with
      | Fetched _ ck => ck :: fetched_cookies sc'
      | _ => []
      end
  end.

(** The script is [pre], answers that carry the fetches [fs], then the
    end of the stream. *)
Definition fetches_then_eof (sc pre : list NextResult)
    (fs : list (list Item * Cookie)) (eof : NextResult) (tl : list NextResult) : Prop :=
  sc = pre ++ eof :: tl /\
  Forall2 (fun r f => classify v r = Fetched f.1 f.2) pre fs /\
  classify v eof = Eof.

(** [Pipe] under a schedule: [runNext] starts with
    [make([]any, 0, maxItems)]; where it fails the program stops
    ([None]), before any call on the collaborators; otherwise the
    goroutines move as the schedule says. *)
Definition Pipe (memory : Z) (sched : list choice) : option state :=
  if make_fails memory maxItems then None else run sched Pipe_init.

(** ** Collaborators and schedules for examples

    As the mocks of the tests: an answer of [Next] with items, the end
    of the stream, a [Commit] and a [Process] that accept everything or
    refuse with a given error. *)
Definition ok (items : list Item) (ck : Cookie) : NextResult :=
  NextRes items ck None.
Definition eos : NextResult :=
  NextRes [] 0 (Some (Sentinel ErrEofCommitCookie)).
Definition acks : trace → Cookie → option error := λ _ _, None.
Definition nacks (bad : Cookie) (e : error) : trace → Cookie → option error :=
  λ _ ck, if bool_decide (ck = bad) then Some e else None.
Definition accepts : Consumer := MkConsumer (λ _ _, None).
Definition rejects (e : error) : Consumer := MkConsumer (λ _ _, Some e).

(** Every goroutine in turn, [n] times over; and the stages alone, the
    coordinator and [Run] staying where they are. *)
Definition round_robin (n : nat) : list choice :=
  concat (replicate n [Choose AFetch false; Choose AProcess false;
                       Choose ACommit false; Choose ACoord false;
                       Choose AMain false]).
Definition stages_only (n : nat) : list choice :=
  concat (replicate n [Choose AFetch false; Choose AProcess false;
                       Choose ACommit false]).

(** The calls a pipeline makes to deliver batches when nothing fails:
    for each batch [Process] on its items, then [Commit] on each of its
    cookies. *)
Definition deliveries (bts : list batch) : trace :=
  bts ≫= λ bt, EvProcess bt None :: ((λ ck, EvCommit ck None) <$> cookies bt).

(** The number of choices of a schedule on which a goroutine moved. *)
Fixpoint moves (sched : list choice) (s : state) : nat :=
  match sched with
  | [] => O
  | ch :: sched' =>
      match step ch s with
      | Blocks => moves sched' s
      | Panics => O
      | Goes s' => S (moves sched' s')
      end
  end.
(** Whose call the error of a stage comes from: a call of [Process] for
    [runProcess], a call of [Commit] for [runCommit]; [runNext] fails
    on its own. *)
Definition blamed (l : trace) (idx : nat) : bool :=
  match idx with
  | 0 => true
  | 1 => pfailed l
  | _ => cfailed l
  end%nat.

(** An error of a stage is on its way only after the call it comes
    from, and the token of [runProcess] or [runCommit] is closed only
    after a call of their own stage, or of a later one, failed. *)
Record blame_inv (s : state) : Prop := {
  b_flight :
    Forall (fun se => blamed (log s) (Index se) = true)
           (queue (errCh s) ++ held (coord s));
  b_proc : proc_err (proc s) <> [] -> pfailed (log s) = true;
  b_comm : comm_err (comm s) <> [] -> cfailed (log s) = true;
  b_token1 :
    cancelChans s !! 1%nat = Some true ->
    pfailed (log s) || cfailed (log s) = true;
  b_token2 : cancelChans s !! 2%nat = Some true -> cfailed (log s) = true
}.

(** The items and the cookies of the fetches so far: of the answers of
    [Next], in the log, that brought items and a cookie. *)
Definition got_items (l : trace) : list Item :=
  concat (omap (fun e => match e with
                         | EvNext r =>
                             match classify v r with
                             | Fetched items _ => Some items
                             | _ => None
                             end
                         | _ => None
                         end) l).
Definition got_cookies (l : trace) : list Cookie :=
  omap (fun e => match e with
                 | EvNext r =>
                     match classify v r with
                     | Fetched _ ck => Some ck
                     | _ => None
                     end
                 | _ => None
                 end) l.

(** What [runNext] holds: the items and the cookies it fetched and has
    not sent, the answer that waits for a sealed buffer to be sent
    among them; nothing once its loop is over. *)
Definition buffered (pc : fetch_pc) : option (list Item * list Cookie) :=
  match pc with
  | FSelect b cks | FNext b cks => Some (b, cks)
  | FWrite bt items ck => Some (buf bt ++ items, cookies bt ++ [ck])
  | FWriteEof bt => Some (buf bt, cookies bt)
  | FReturn _ | FTail _ => None
  end.

(** Every item and every cookie fetched is in a batch that was sent or
    in the buffer, once and in fetch order; [Next] has not failed while
    the loop runs; and the loop ends with every batch of the policy
    sent unless a call of [Process] or of [Commit] failed. *)
Record buffer_inv (s : state) : Prop := {
  f_items :
    match buffered (fetch s) with
    | Some (b, _) => concat (buf <$> sends (log s)) ++ b = got_items (log s)
    | None => concat (buf <$> sends (log s)) `prefix_of` got_items (log s)
    end;
  f_cookies :
    match buffered (fetch s) with
    | Some (_, cks) =>
        concat (cookies <$> sends (log s)) ++ cks = got_cookies (log s)
    | None => concat (cookies <$> sends (log s)) `prefix_of` got_cookies (log s)
    end;
  f_clean :
    match buffered (fetch s) with
    | Some _ => Forall (fun r => forall e, classify v r <> Failed e) (nexts (log s))
    | None => True
    end;
  f_done :
    match buffered (fetch s) with
    | Some _ => True
    | None =>
        pfailed (log s) = false -> cfailed (log s) = false ->
        sends (log s) = batches (Next p) [] []
    end
}.

(** ** Proofs of the invariants *)

Ltac unfold_ops :=
  unfold step_tail, op_bind, tail_of, cancelled, emit in *;
  unfold writeChanWithCancel, readChanWithCancel in *;
  unfold chan_send, chan_recv, chan_close in *.

Ltac step_cases H :=
  unfold step, step_fetch, step_process, step_commit, step_coord, step_main in H;
  unfold_ops; simpl in H;
  repeat (first [ progress simplify_eq/= | case_bool_decide | case_match ]).

Ltac step_inv H :=
  match type of H with
  | step ?ch ?s = Goes _ =>
      destruct ch as [[] ?], s as [? ? [? ?] [? ?] [? ?] [? ?] ? ? ? ? ? ? ? ?];
      simpl in H; step_cases H
  | _ ?s = Goes _ =>
      destruct s as [? ? [? ?] [? ?] [? ?] [? ?] ? ? ? ? ? ? ? ?];
      simpl in H; step_cases H
  | _ _ ?s = Goes _ =>
      destruct s as [? ? [? ?] [? ?] [? ?] [? ?] ? ? ? ? ? ? ? ?];
      simpl in H; step_cases H
  end.

Ltac goal_match :=
  match goal with
  | |- context [match ?x with _ => _ end] => destruct x eqn:?
  end.

Ltac fin :=
  repeat (goal_match; simplify_eq/=; try done);
  try done; try lia;
  try (rewrite ?Forall_app, ?Forall_cons, ?Forall_nil in *; simpl in *;
       intuition (simplify_eq/=; eauto; lia)).

Lemma once_do_close_same i (tk : list bool) o t :
  once_do_close i tk tk = Some (o, t) →
  (i < length tk)%nat ∧ o = <[i:=true]> tk ∧ t = <[i:=true]> tk.
Proof.
  unfold once_do_close. intros H.
  destruct (tk !! i) as [[]|] eqn:E; simplify_eq/=.
  - split; [by eapply lookup_lt_Some|]. by rewrite list_insert_id.
  - split; [by eapply lookup_lt_Some|done].
Qed.

Lemma once_do_close_same_Some i (tk : list bool) :
  (i < length tk)%nat →
  once_do_close i tk tk = Some (<[i:=true]> tk, <[i:=true]> tk).
Proof.
  intros Hi. unfold once_do_close.
  destruct (lookup_lt_is_Some_2 tk i Hi) as [[] E]; rewrite E.
  - by rewrite list_insert_id.
  - done.
Qed.

Lemma shape_init : shape_inv Pipe_init.
Proof.
  split; simpl; try done.
  all: unfold stages, batchCap, cookiesCap; try lia.
  by eexists _, _, _.
Qed.

Lemma shape_step s s' ch : step ch s = Goes s' → shape_inv s → shape_inv s'.
Proof.
  intros H. step_inv H.
  all: intros [Htok Hwg Hmw Hec Hcd Hdc Hret Hcap Hbc Hcc Hbcl Hccl Hidx Hcas Hres].
  all: simpl in *.
  all: destruct Htok as (t0 & t1 & t2 & -> & ->).
  all: simplify_eq/=.
  all: split; simpl in *; try done.
  all: try by eexists _, _, _.
  all: unfold stages, batchCap, cookiesCap in *; try (simpl; lia).
  all: try (rewrite ?length_app; simpl; lia).
  all: try (by fin).
  all: try (match goal with |- ?k = KExited /\ _ => by destruct k end).
  all: try (match goal with |- context [errors_Join ?l] =>
      destruct l; simpl in *; first [lia|done] end).
  all: try (match goal with H : once_do_close _ _ _ = Some _ |- _ =>
      apply once_do_close_same in H as (? & -> & ->) end;
      match goal with |- context [<[?i:=_]> _] =>
        destruct i as [|[|[|?]]]; simpl in *; try lia; by eexists _, _, _ end).
  rewrite app_nil_r in Hidx. apply Forall_cons in Hidx as [? ?].
  apply Forall_app; split; [done|]. by apply Forall_singleton.
Qed.

Lemma cancel_init : cancel_inv Pipe_init.
Proof.
  split; simpl; try done.
  intros k Hk. exfalso. destruct k as [|[|[|k]]]; simpl in Hk; done.
Qed.

Lemma closing_snoc k q se pc tk :
  closing k q pc tk → closing k (q ++ [se]) pc tk.
Proof.
  unfold closing. rewrite !Exists_app. tauto.
Qed.

Lemma closing_snoc_new k q se pc tk :
  (k <= Index se)%nat → closing k (q ++ [se]) pc tk.
Proof.
  unfold closing. rewrite !Exists_app, Exists_cons. tauto.
Qed.

Lemma closing_recv k q se i tk :
  closing k (se :: q) KRange tk → closing k q (KCascade se i) tk.
Proof.
  unfold closing. simpl. rewrite app_nil_r, Exists_app, !Exists_cons, Exists_nil. tauto.
Qed.

Lemma closing_forward k q se tk :
  (∀ j, (j <= Index se)%nat → tk !! j = Some true) →
  closing k q (KForward se) tk → closing k q KRange tk.
Proof.
  unfold closing. simpl. rewrite app_nil_r, Exists_app, !Exists_cons, Exists_nil.
  intros Hall [[?|[?|[]]]|?]; [by left| |by right].
  right. intros j Hj. apply Hall. lia.
Qed.

Lemma closing_insert k q se i pc' tk :
  held pc' = [se] →
  closing k q (KCascade se i) tk → closing k q pc' (<[i:=true]> tk).
Proof.
  unfold closing. simpl. intros ->. intros [?|Hall]; [by left|right].
  intros j Hj. destruct (decide (j = i)) as [->|].
  - apply list_lookup_insert_eq. eapply lookup_lt_Some, Hall. lia.
  - rewrite list_lookup_insert_ne by done. by apply Hall.
Qed.

Lemma closing_close k q tk :
  closing k q KRange tk → closing k q KClose tk.
Proof. done. Qed.

Lemma closing_exit k q tk :
  closing k q KClose tk → closing k q KExited tk.
Proof. done. Qed.

Ltac cl_closing :=
  lazymatch goal with
  | |- closing _ (_ ++ [?se]) _ _ =>
      first [ apply closing_snoc_new; simpl; lia | apply closing_snoc; cl_closing ]
  | |- closing _ _ (KCascade _ _) _ => apply closing_recv; cl_closing
  | |- closing _ _ KClose _ => apply closing_close; cl_closing
  | |- closing _ _ KExited _ => apply closing_exit, closing_close; cl_closing
  | |- closing ?k _ _ _ =>
      first [ assumption
            | match goal with
              | H : _ → closing k _ _ _ |- _ => apply H; reflexivity
              end ]
  end.

Ltac cl_disj :=
  lazymatch goal with
  | |- True => exact I
  | |- closing _ _ _ _ => cl_closing
  | |- _ ∨ closing _ _ _ _ =>
      first [ left; reflexivity
            | left; assumption
            | right; cl_closing
            | match goal with
              | H : _ ∨ closing _ _ _ _ |- _ =>
                  destruct H as [H|H]; [left; exact H | right; cl_closing]
              end ]
  end.

Ltac cl :=
  lazymatch goal with
  | |- ∀ k, _ !! k = Some true → closing _ _ _ _ =>
      let k := fresh "k" in let Hk := fresh "Hk" in
      intros k Hk;
      match goal with H : ∀ k, _ !! k = Some true → closing _ _ _ _ |- _ =>
        specialize (H k Hk) end;
      cl_closing
  | |- context [match ?x with _ => _ end] =>
      destruct x; simpl in *; try done; cl
  | |- _ => cl_disj
  end.

Lemma closing_held_cascade k q se i tk :
  (k <= Index se)%nat → closing k q (KCascade se i) tk.
Proof. intros. left. apply Exists_app. right. by apply Exists_cons_hd. Qed.

Lemma closing_held_forward k q se tk :
  (k <= Index se)%nat → closing k q (KForward se) tk.
Proof. intros. left. apply Exists_app. right. by apply Exists_cons_hd. Qed.

Ltac and_true :=
  repeat match goal with
  | H : _ && _ = true |- _ => apply andb_prop in H as [? ?]
  end; simplify_eq/=.

Lemma cancel_step_coord s s' :
  step_coord s = Goes s' → shape_inv s → cancel_inv s → cancel_inv s'.
Proof.
  intros H [Htok _ _ _ _ _ _ _ _ _ Hbcl Hccl Hidx Hcas _] [Hheld Htc Hc1 Hc2].
  destruct Htok as (t0 & t1 & t2 & Htk & Hon).
  unfold step_coord in H. destruct (coord s) as [|se i|se| |] eqn:Hk.
  - (* KRange *)
    unfold op_bind, chan_recv in H.
    destruct (queue (errCh s)) as [|se q] eqn:Hq.
    + destruct (closed (errCh s)); simplify_eq/=.
      split; simpl; rewrite ?Hk, ?Hq in *; done.
    + simplify_eq/=. split; simpl; rewrite ?Hk, ?Hq in *; simpl.
      * intros; lia.
      * intros k Hk'. by apply closing_recv, Htc.
      * destruct (proc s) as [| |? ?|[]|[]]; try done;
          (destruct Hc1 as [?|?]; [by left|right; by apply closing_recv]).
      * destruct (comm s) as [| |[]]; try done;
          (destruct Hc2 as [?|?]; [by left|right; by apply closing_recv]).
  - (* KCascade *)
    rewrite Hon, <-Htk in H. clear Htk Hon.
    destruct (once_do_close i (cancelChans s) (cancelChans s)) as [[o t]|] eqn:Ho; [|done].
    apply once_do_close_same in Ho as (Hi & -> & ->).
    injection H as <-.
    set (pc' := match i with O => KForward se | S j => KCascade se j end).
    assert (held pc' = [se]) as Hpc' by (by destruct i).
    split; simpl; rewrite ?Hk in *; fold pc'.
    * destruct i as [|i]; simpl; intros j Hj.
      -- destruct (decide (j = 0%nat)) as [->|].
         ++ by apply list_lookup_insert_eq.
         ++ rewrite list_lookup_insert_ne by done. apply Hheld. lia.
      -- destruct (decide (j = S i)) as [->|].
         ++ by apply list_lookup_insert_eq.
         ++ rewrite list_lookup_insert_ne by done. apply Hheld. lia.
    * intros k Hk'. destruct (decide (k = i)) as [->|].
      -- left. rewrite Hpc'. apply Exists_app. right. by apply Exists_cons_hd.
      -- rewrite list_lookup_insert_ne in Hk' by done.
         by apply (closing_insert _ _ se), Htc.
    * destruct (proc s) as [| |? ?|[]|[]]; try done;
        (destruct Hc1 as [?|?]; [by left|right; by apply (closing_insert _ _ se)]).
    * destruct (comm s) as [| |[]]; try done;
        (destruct Hc2 as [?|?]; [by left|right; by apply (closing_insert _ _ se)]).
  - (* KForward *)
    unfold op_bind, chan_send in H.
    destruct (closed (doneErrCh s)); [done|]. case_bool_decide; [|done]. simplify_eq/=.
    split; simpl; rewrite ?Hk in *; try done.
    * intros k Hk'. by eapply closing_forward, Htc.
    * destruct (proc s) as [| |? ?|[]|[]]; try done;
        (destruct Hc1 as [?|?]; [by left|right; by eapply closing_forward]).
    * destruct (comm s) as [| |[]]; try done;
        (destruct Hc2 as [?|?]; [by left|right; by eapply closing_forward]).
  - (* KClose *)
    unfold op_bind, chan_close in H.
    destruct (closed (doneErrCh s)); [done|]. simplify_eq/=.
    split; simpl; rewrite ?Hk in *; try done.
  - done.
Qed.

Lemma cancel_step s s' ch :
  step ch s = Goes s' → shape_inv s → cancel_inv s → cancel_inv s'.
Proof.
  intros H. destruct ch as [[] pk]; unfold step in H; simpl in H;
    [| | |by eapply cancel_step_coord|].
  all: step_inv H.
  all: intros [Htok _ _ _ _ _ _ _ _ _ Hbcl Hccl Hidx Hcas _] [Hheld Htc Hc1 Hc2].
  all: simpl in *.
  all: destruct Htok as (t0 & t1 & t2 & -> & ->).
  all: simplify_eq/=; and_true.
  all: pose proof (Htc 1%nat) as Htc1;
       pose proof (Htc 2%nat) as Htc2.
  all: split; simpl in *; try done.
  all: try (intros; lia).
  all: by cl.
Qed.

Lemma nexts_snoc (l : trace) e : nexts (l ++ [e]) = nexts l ++ nexts [e].
Proof. apply omap_app. Qed.
Lemma sends_snoc (l : trace) e : sends (l ++ [e]) = sends l ++ sends [e].
Proof. apply omap_app. Qed.
Lemma processed_snoc (l : trace) e : processed (l ++ [e]) = processed l ++ processed [e].
Proof. apply omap_app. Qed.
Lemma emits_snoc (l : trace) e : emits (l ++ [e]) = emits l ++ emits [e].
Proof. apply omap_app. Qed.
Lemma committed_snoc (l : trace) e : committed (l ++ [e]) = committed l ++ committed [e].
Proof. apply omap_app. Qed.
Lemma owed_snoc (l : trace) e : owed (l ++ [e]) = owed l ++ owed [e].
Proof. unfold owed. by rewrite omap_app, concat_app. Qed.
Lemma pfailed_snoc (l : trace) e : pfailed (l ++ [e]) = pfailed l || pfailed [e].
Proof. apply existsb_app. Qed.
Lemma cfailed_snoc (l : trace) e : cfailed (l ++ [e]) = cfailed l || cfailed [e].
Proof. apply existsb_app. Qed.
Lemma failures_snoc (l : trace) e : failures (l ++ [e]) = failures l ++ failures [e].
Proof. apply omap_app. Qed.

Lemma owed_process_ok (bt : batch) : owed [EvProcess bt None] = cookies bt.
Proof. unfold owed. simpl. by rewrite app_nil_r. Qed.
Lemma owed_process_fail (bt : batch) e : owed [EvProcess bt (Some e)] = [].
Proof. done. Qed.

Lemma token_insert_false (tk : list bool) i j :
  default false (<[i:=true]> tk !! j) = false → default false (tk !! j) = false.
Proof.
  destruct (decide (i = j)) as [->|].
  - destruct (decide (j < length tk)%nat).
    + by rewrite list_lookup_insert_eq.
    + by rewrite list_insert_ge by lia.
  - by rewrite list_lookup_insert_ne.
Qed.

Ltac log_norm :=
  unfold cancelled; simpl;
  rewrite ?nexts_snoc, ?sends_snoc, ?processed_snoc, ?emits_snoc, ?committed_snoc,
    ?owed_snoc, ?pfailed_snoc, ?cfailed_snoc, ?failures_snoc,
    ?owed_process_ok, ?owed_process_fail;
  simpl;
  rewrite ?app_nil_r, ?orb_false_r, ?orb_true_r.

Lemma data_init : data_inv Pipe_init.
Proof. split; simpl; try done. Qed.

Ltac use_eqs :=
  repeat match goal with
  | H : classify _ _ = _ |- _ => rewrite H in *
  | H : overflows _ _ _ = _ |- _ => rewrite H in *
  end.

Ltac solve_prefix :=
  match goal with
  | H : ?a `prefix_of` ?L |- ?a `prefix_of` ?L => exact H
  | H : ?a = ?L |- ?a `prefix_of` ?L => rewrite H; reflexivity
  | H : _ = ?L |- _ `prefix_of` ?L =>
      rewrite <-H; eexists; rewrite <-?(assoc_L (++)); simpl; reflexivity
  end.

Ltac use_impl :=
  repeat match goal with
  | H : ?P -> _ |- _ =>
      lazymatch type of P with
      | Prop => specialize (H ltac:(first [assumption | reflexivity | by eapply token_insert_false]))
      end
  end.

Ltac dfin :=
  repeat match goal with
  | |- context [match ?x with _ => _ end] => destruct x; simpl in *; try done
  end;
  repeat match goal with
  | |- _ /\ _ => split
  | |- _ -> _ => intros ?
  end;
  simplify_eq/=;
  try done; try congruence;
  try solve_prefix;
  try (by rewrite <-?(assoc_L (++)); simpl; congruence);
  try (by use_impl; destruct_and?; simplify_eq/=;
          rewrite <-?(assoc_L (++)) in *; simpl in *; simplify_list_eq; congruence);
  try (match goal with H : ?a = _ |- context [?a] =>
         by (rewrite H; rewrite <-?(assoc_L (++)); simpl)
       end);
  try (match goal with H : cookies _ = [] |- _ =>
         by (rewrite H, ?app_nil_r) end).

Lemma data_step s s' ch :
  step ch s = Goes s' → shape_inv s → data_inv s → data_inv s'.
Proof.
  intros H. step_inv H.
  all: intros [Htok _ _ _ _ _ _ _ _ _ Hbcl Hccl _ _ _] [Hn Hf Hb He Hc Hpf Hcf Hpd Hcd].
  all: unfold cancelled in *; simpl in *.
  all: destruct Htok as (t0 & t1 & t2 & -> & ->).
  all: simplify_eq/=; and_true.
  all: try match goal with H : once_do_close _ _ _ = Some _ |- _ =>
      apply once_do_close_same in H as (? & -> & ->) end.
  all: try match goal with H : (S ?n < length _)%nat |- _ =>
      destruct n as [|[|]]; simpl in *; [| |lia] end.
  all: use_eqs; repeat case_bool_decide; try lia.
  all: split; log_norm; try done.
  all: try (by dfin).
  all: match goal with |- context [match ?x with _ => _ end] => destruct x end;
       simpl in *; try done; destruct_and?; split_and?; done.
Qed.

Lemma err_init : err_inv Pipe_init.
Proof.
  split; simpl; try done.
  intros k Hk. exfalso. destruct k as [|[|[|k]]]; simpl in Hk; done.
Qed.

Lemma app_not_nil_l {A} (l k : list A) : l ≠ [] → l ++ k ≠ [].
Proof. by destruct l. Qed.

Lemma err_step s s' ch :
  step ch s = Goes s' → shape_inv s → err_inv s → err_inv s'.
Proof.
  intros H. step_inv H.
  all: intros [Htok _ _ _ _ _ _ _ _ _ _ _ _ _ _] [Hfl Htk].
  all: unfold flight in *; simpl in *.
  all: destruct Htok as (t0 & t1 & t2 & -> & ->).
  all: simplify_eq/=; and_true.
  all: try match goal with H : once_do_close _ _ _ = Some _ |- _ =>
      apply once_do_close_same in H as (? & -> & ->) end.
  all: try match goal with |- context [errors_Join ?l] =>
      destruct l; simpl in *; try lia end.
  all: split; unfold flight; log_norm; use_eqs; try done.
  all: try (by intros; apply app_not_nil_l; eauto).
  all: try (rewrite ?fmap_app, ?fmap_cons in *; simpl in *; rewrite <-Hfl; by solve_Permutation).
  all: try (intros k _ Hnil; rewrite Hnil in Hfl; apply Permutation_length in Hfl;
            rewrite !length_app in Hfl; simpl in Hfl; lia).
  destruct allErrs; simpl in *; [|lia]. by rewrite !app_nil_r in Hfl.
Qed.

Lemma no_panic s ch : shape_inv s → step ch s ≠ Panics.
Proof.
  intros Hs H. revert Hs.
  destruct ch as [[] ?], s as [? ? [? ?] [? ?] [? ?] [? ?] ? ? ? ? ? ? ? ?];
    simpl in H; step_cases H.
  all: intros [Htok Hwg Hmw Hec Hcd Hdc Hret Hcap Hbc Hcc Hbcl Hccl Hidx Hcas Hres].
  all: simpl in *.
  all: destruct Htok as (t0 & t1 & t2 & -> & ->).
  all: simplify_eq/=.
  all: try lia.
  all: try (match goal with H : once_do_close ?i ?tk ?tk = None |- _ =>
       rewrite once_do_close_same_Some in H; [done|];
       rewrite Forall_app, Forall_singleton in Hidx; unfold stages in *;
       simpl in *; lia end).
  all: try by repeat match goal with
       | H : context [match ?x with _ => _ end] |- _ =>
           destruct x; simpl in *; try done; try lia
       end.
Qed.

Lemma inv_init : inv Pipe_init.
Proof.
  split; [apply shape_init|apply cancel_init|apply data_init|apply err_init].
Qed.

Lemma inv_step s s' ch : step ch s = Goes s' → inv s → inv s'.
Proof.
  intros H [? ? ? ?].
  split; eauto using shape_step, cancel_step, data_step, err_step.
Qed.

Lemma reachable_inv s : reachable s → inv s.
Proof.
  revert s. apply rtc_ind_r; [apply inv_init|].
  intros s1 s2 _ [ch Hch] IH. by eapply inv_step.
Qed.

Lemma reachable_step s s' ch : reachable s → step ch s = Goes s' → reachable s'.
Proof. intros H Hs. eapply rtc_r; [done|]. by exists ch. Qed.

Lemma reachable_no_panic s ch : reachable s → step ch s ≠ Panics.
Proof. intros H. apply no_panic. by apply reachable_inv. Qed.

Lemma run_reachable sched s s' :
  reachable s → run sched s = Some s' → reachable s'.
Proof.
  revert s. induction sched as [|ch sched IH]; intros s Hs H; simpl in H.
  - by simplify_eq.
  - destruct (step ch s) eqn:E; [by eapply IH|done|].
    eapply IH; [|done]. by eapply reachable_step.
Qed.

Lemma run_app sched1 sched2 s :
  run (sched1 ++ sched2) s = run sched1 s ≫= run sched2.
Proof.
  revert s. induction sched1 as [|ch sched1 IH]; intros s; simpl; [done|].
  destruct (step ch s); simpl; auto.
Qed.

Lemma fetch_can_end_step s s' ch :
  step ch s = Goes s' → fetch_can_end s → fetch_can_end s'.
Proof.
  intros H. step_inv H.
  all: unfold fetch_can_end, terminates; simpl; try done.
  all: rewrite Exists_cons; intros [Hr|?]; try done.
  all: by match goal with H : classify _ _ = _ |- _ => rewrite H in Hr end.
Qed.

Lemma reachable_can_end s :
  terminates (Next p) → reachable s → fetch_can_end s.
Proof.
  intros Ht. revert s. apply rtc_ind_r; [done|].
  intros s1 s2 _ [ch Hch] IH. by eapply fetch_can_end_step.
Qed.

Ltac kill Hinv Hend :=
  destruct Hinv as [[Htok Hwg Hmw Hec Hcd Hdc Hret Hcap Hbc Hcc Hbcl Hccl Hidx Hcas Hresult]
                      [Hheld Htc Hc1 Hc2] _ _];
  unfold fetch_can_end, terminates, closing, stages, batchCap, cookiesCap in *;
  simpl in *;
  destruct Htok as (t0 & t1 & t2 & -> & ->);
  simplify_eq/=;
  try lia;
  try (by apply Exists_nil in Hend);
  try (destruct Hc1 as [?|[Hc1|Hc1]]; [done|by apply Exists_nil in Hc1|];
       by (specialize (Hc1 0%nat ltac:(lia)) || specialize (Hc1 1%nat ltac:(lia))));
  try (destruct Hc2 as [?|[Hc2|Hc2]]; [done|by apply Exists_nil in Hc2|];
       by (specialize (Hc2 1%nat ltac:(lia)))).

Lemma progress s :
  inv s → fetch_can_end s → result s = None →
  ∃ ch s', step ch s = Goes s'.
Proof.
  intros Hinv Hend Hres.
  destruct (step (Choose AMain true) s) as [| |s'] eqn:Hm;
    [|exfalso; eapply no_panic; [|eassumption]; apply Hinv|by eauto].
  destruct (step (Choose ACoord true) s) as [| |s'] eqn:Hk;
    [|exfalso; eapply no_panic; [|eassumption]; apply Hinv|by eauto].
  destruct (step (Choose ACommit true) s) as [| |s'] eqn:Hc;
    [|exfalso; eapply no_panic; [|eassumption]; apply Hinv|by eauto].
  destruct (step (Choose AProcess true) s) as [| |s'] eqn:Hp;
    [|exfalso; eapply no_panic; [|eassumption]; apply Hinv|by eauto].
  destruct (step (Choose AFetch true) s) as [| |s'] eqn:Hf;
    [|exfalso; eapply no_panic; [|eassumption]; apply Hinv|by eauto].
  exfalso.
  destruct s as [? ? [? ?] [? ?] [? ?] [? ?] ? ? ? ? ? ? ? ?].
  unfold step in *; simpl in *.
  step_cases Hm; try done.
  all: step_cases Hk.
  all: try (by kill Hinv Hend).
  all: step_cases Hc.
  all: try (by kill Hinv Hend).
  all: step_cases Hp.
  all: try (by kill Hinv Hend).
  all: step_cases Hf.
  all: by kill Hinv Hend.
Qed.

Lemma batches_size_app (q1 q2 : list batch) :
  batches_size (q1 ++ q2) = (batches_size q1 + batches_size q2)%nat.
Proof. induction q1; simpl; lia. Qed.

Lemma errors_size_app (q1 q2 : list StageError) :
  errors_size (q1 ++ q2) = (errors_size q1 + errors_size q2)%nat.
Proof. induction q1; simpl; lia. Qed.

Lemma measure_step s s' ch : step ch s = Goes s' → (measure s' < measure s)%nat.
Proof.
  intros H. step_inv H.
  all: unfold measure; simpl; unfold batch_size; simpl.
  all: rewrite ?batches_size_app, ?errors_size_app, ?length_app; simpl;
       unfold batch_size; simpl; try lia.
  all: match goal with H : cookies _ = _ |- _ => rewrite H end; simpl; lia.
Qed.

(** From a state that satisfies the invariants some schedule reaches a
    state in which [Run] has returned. *)
Lemma returns_from s :
  inv s → fetch_can_end s → reachable s →
  ∃ sched s', run sched s = Some s' ∧ is_Some (result s').
Proof.
  remember (measure s) as n eqn:Hn. revert s Hn.
  induction n as [n IH] using lt_wf_ind. intros s -> Hinv Hend Hreach.
  destruct (result s) as [r|] eqn:Hres.
  - exists [], s. split; [done|]. rewrite Hres. by eexists.
  - eapply progress in Hres as (ch & s1 & Hstep); [|exact Hinv|exact Hend].
    pose proof Hstep as Hlt. apply measure_step in Hlt.
    destruct (IH (measure s1) Hlt s1 eq_refl) as (sched & s2 & Hrun & Hs2).
    + by eapply inv_step.
    + by eapply fetch_can_end_step.
    + by eapply reachable_step.
    + exists (ch :: sched), s2. split; [|done]. simpl. by rewrite Hstep.
Qed.

(** A state in which no goroutine can move is one in which [Run] has
    returned: the pipeline cannot deadlock. *)
Lemma stuck_returned s :
  terminates (Next p) → reachable s →
  (∀ ch, step ch s = Blocks) → is_Some (result s).
Proof.
  intros Ht Hreach Hstuck.
  destruct (result s) as [r|] eqn:Hres; [by eexists|].
  eapply progress in Hres as (ch & s1 & Hstep);
    [|by eapply reachable_inv|by eapply reachable_can_end].
  by rewrite Hstuck in Hstep.
Qed.

(** ** The log of an execution *)

Lemma step_log s s' ch :
  step ch s = Goes s' → log s' = log s ∨ ∃ e, log s' = log s ++ [e].
Proof.
  intros H. step_inv H; simpl; eauto.
Qed.

(** Every event of the log was appended by a step of the execution. *)
Lemma reachable_log_event s l1 e l2 :
  reachable s → log s = l1 ++ e :: l2 →
  ∃ s0 s1 ch, reachable s0 ∧ step ch s0 = Goes s1 ∧
    log s0 = l1 ∧ log s1 = l1 ++ [e].
Proof.
  intros Hs. revert s Hs l2. apply (rtc_ind_r (λ s, ∀ l2, log s = l1 ++ e :: l2 → _)).
  - intros l2 H. simpl in H. by destruct l1.
  - intros s1 s2 Hs1 [ch Hch] IH l2 Hl.
    destruct (step_log _ _ _ Hch) as [Heq|[e' Heq]].
    + rewrite Heq in Hl. eauto.
    + rewrite Heq in Hl.
      destruct l2 as [|e2 l2 _] using rev_ind.
      * apply app_inj_tail in Hl as [Hl ->].
        exists s1, s2, ch. by rewrite Heq, Hl.
      * rewrite app_comm_cons, (assoc_L (++)) in Hl.
        apply app_inj_tail in Hl as [Hl ->]. eauto.
Qed.

(** Every prefix of the log of an execution is the log of an execution. *)
Lemma reachable_log_prefix s l :
  reachable s → l `prefix_of` log s → ∃ s0, reachable s0 ∧ log s0 = l.
Proof.
  intros Hs [k Hk]. destruct k as [|e k].
  - exists s. by rewrite Hk, app_nil_r.
  - destruct (reachable_log_event s l e k Hs Hk) as (s0 & _ & _ & ? & _ & ? & _).
    eauto.
Qed.

(** Who appends what. *)
Lemma step_process_event s s' ch bt r :
  step ch s = Goes s' → log s' = log s ++ [EvProcess bt r] →
  proc s = PProcess bt ∧ r = Process c (log s) (buf bt).
Proof.
  intros H. step_inv H; simpl; intros Hl.
  all: try by (apply (f_equal length) in Hl; rewrite length_app in Hl; simpl in Hl; lia).
  all: by apply app_inj_tail in Hl as [_ ?]; simplify_eq.
Qed.

Lemma step_commit_event s s' ch ck r :
  step ch s = Goes s' → log s' = log s ++ [EvCommit ck r] →
  comm s = CCommit ck ∧ r = Commit p (log s) ck.
Proof.
  intros H. step_inv H; simpl; intros Hl.
  all: try by (apply (f_equal length) in Hl; rewrite length_app in Hl; simpl in Hl; lia).
  all: by apply app_inj_tail in Hl as [_ ?]; simplify_eq.
Qed.

Lemma step_emit_event s s' ch ck :
  step ch s = Goes s' → log s' = log s ++ [EvEmit ck] →
  ∃ more, proc s = PWrite ck more.
Proof.
  intros H. step_inv H; simpl; intros Hl.
  all: try by (apply (f_equal length) in Hl; rewrite length_app in Hl; simpl in Hl; lia).
  all: apply app_inj_tail in Hl as [_ ?]; simplify_eq; eauto.
Qed.

Lemma step_send_event s s' ch bt :
  step ch s = Goes s' → log s' = log s ++ [EvSend bt] →
  (∃ items ck, fetch s = FWrite bt items ck ∧ fetch s' = FSelect items [ck]) ∨
  fetch s = FWriteEof bt.
Proof.
  intros H. step_inv H; simpl; intros Hl.
  all: try by (apply (f_equal length) in Hl; rewrite length_app in Hl; simpl in Hl; lia).
  all: apply app_inj_tail in Hl as [_ ?]; simplify_eq; eauto.
Qed.

(** ** What the log says *)

Lemma errors_Is_Join l k :
  errors_Is (Join l) k = existsb (λ e, errors_Is e k) l.
Proof. simpl. induction l as [|e l IH]; simpl; [done|]. by rewrite IH. Qed.

Lemma errors_Join_Is l e k :
  e ∈ l → errors_Is e k = true →
  ∃ agg, errors_Join l = Some agg ∧ errors_Is agg k = true.
Proof.
  intros He Hk. destruct l as [|e0 l]; [by apply elem_of_nil in He|].
  exists (Join (e0 :: l)). split; [done|].
  rewrite errors_Is_Join. apply existsb_exists. exists e.
  split; [|done]. by apply list_elem_of_In.
Qed.

Lemma failures_process (l : trace) bt e :
  EvProcess bt (Some e) ∈ l → wrapProcess v e ∈ failures l.
Proof. intros H. apply list_elem_of_omap. by exists (EvProcess bt (Some e)). Qed.

Lemma failures_commit (l : trace) ck e :
  EvCommit ck (Some e) ∈ l → wrapCommit v e ∈ failures l.
Proof. intros H. apply list_elem_of_omap. by exists (EvCommit ck (Some e)). Qed.


Lemma pfailed_false_Forall (l : trace) :
  pfailed l = false ↔ Forall (λ e, ∀ bt err, e ≠ EvProcess bt (Some err)) l.
Proof.
  unfold pfailed. induction l as [|e l IH]; simpl.
  - split; [by constructor|done].
  - rewrite orb_false_iff, IH, Forall_cons. split; intros [H1 H2]; split; try done.
    + intros bt err ->. done.
    + destruct e as [| |? []| |]; try done. by destruct (H1 bt e).
Qed.

Lemma cfailed_false_Forall (l : trace) :
  cfailed l = false ↔ Forall (λ e, ∀ ck err, e ≠ EvCommit ck (Some err)) l.
Proof.
  unfold cfailed. induction l as [|e l IH]; simpl.
  - split; [by constructor|done].
  - rewrite orb_false_iff, IH, Forall_cons. split; intros [H1 H2]; split; try done.
    + intros ck err ->. done.
    + destruct e as [| | | |? []]; try done. by destruct (H1 cookie e).
Qed.

Lemma failures_nil (l : trace) :
  pfailed l = false → cfailed l = false →
  Forall (λ r, ∀ e, classify v r ≠ Failed e) (nexts l) →
  failures l = [].
Proof.
  induction l as [|e l IH]; simpl; [done|].
  rewrite !orb_false_iff. intros [He1 Hp] [He2 Hc] Hn.
  unfold failures. simpl.
  destruct e as [r| |bt [err|]| |ck [err|]]; simpl in *; try done;
    try (by apply IH).
  apply Forall_cons in Hn as [Hr Hn].
  destruct (classify v r) eqn:E; [by apply IH|by destruct (Hr e)|by apply IH].
Qed.

Lemma owed_processed (l : trace) :
  pfailed l = false → owed l = concat (cookies <$> processed l).
Proof.
  unfold owed, processed, pfailed.
  induction l as [|e l IH]; simpl; [done|].
  rewrite orb_false_iff. intros [He Hl].
  destruct e as [| |bt [err|]| |]; simpl in *; try done; try (by apply IH).
  f_equal. by apply IH.
Qed.

Lemma pfailed_app (l1 l2 : trace) : pfailed (l1 ++ l2) = pfailed l1 || pfailed l2.
Proof. apply existsb_app. Qed.
Lemma cfailed_app (l1 l2 : trace) : cfailed (l1 ++ l2) = cfailed l1 || cfailed l2.
Proof. apply existsb_app. Qed.
Lemma processed_app (l1 l2 : trace) : processed (l1 ++ l2) = processed l1 ++ processed l2.
Proof. apply omap_app. Qed.
Lemma committed_app (l1 l2 : trace) : committed (l1 ++ l2) = committed l1 ++ committed l2.
Proof. apply omap_app. Qed.
Lemma emits_app (l1 l2 : trace) : emits (l1 ++ l2) = emits l1 ++ emits l2.
Proof. apply omap_app. Qed.
Lemma sends_app (l1 l2 : trace) : sends (l1 ++ l2) = sends l1 ++ sends l2.
Proof. apply omap_app. Qed.
Lemma owed_app (l1 l2 : trace) : owed (l1 ++ l2) = owed l1 ++ owed l2.
Proof. unfold owed. by rewrite omap_app, concat_app. Qed.

(** ** The state in which [Run] has returned *)

Lemma returned_inv s r :
  inv s → result s = Some r →
  fetch s = FTail Exited ∧ proc s = PTail Exited ∧ comm s = CTail Exited ∧
  r = errors_Join (collected (main s)) ∧
  collected (main s) ≡ₚ failures (log s).
Proof.
  intros [[Htok Hwg Hmw Hec Hcd Hdc Hret Hcap Hbc Hcc Hbcl Hccl Hidx Hcas Hres]
            _ _ [Hfl _]] Hr.
  unfold result, flight in *.
  destruct s as [rs lg [bq bcl] [cq ccl] [eq ecl] [dq dcl] tk on w f pr cm k m];
    simpl in *.
  destruct m; simplify_eq/=. destruct Hret as [-> ->]. destruct Hcd as [-> _].
  assert (f = FTail Exited ∧ pr = PTail Exited ∧ cm = CTail Exited)
    as (-> & -> & ->).
  { destruct f as [| | | | |[]], pr as [| | | |[]], cm as [| |[]];
      simpl in *; try done. }
  simpl in *. done.
Qed.

(** A schedule reaches what [reachable] says. *)
Lemma run_init_reachable sched s : run sched Pipe_init = Some s → reachable s.
Proof. apply run_reachable. apply rtc_refl. Qed.

Lemma run_inv sched s : run sched Pipe_init = Some s → inv s.
Proof. intros H. eapply reachable_inv, run_init_reachable, H. Qed.

(** [Pipe] returns whatever the schedule was so far, provided the
    producer ends the stream or fails. *)
Lemma Pipe_returns sched s :
  terminates (Next p) → run sched Pipe_init = Some s →
  ∃ sched' s', run (sched ++ sched') Pipe_init = Some s' ∧ is_Some (result s').
Proof.
  intros Ht Hrun.
  destruct (returns_from s) as (sched' & s' & Hrun' & Hres).
  - by eapply run_inv.
  - eapply reachable_can_end; [done|]. by eapply run_init_reachable.
  - by eapply run_init_reachable.
  - exists sched', s'. split; [|done]. by rewrite run_app, Hrun.
Qed.

(** ** The batching policy of [runNext] *)

Lemma batches_items sc b cks :
  concat (buf <$> batches sc b cks) `prefix_of` b ++ fetched_items sc.
Proof.
  revert b cks. induction sc as [|r sc IH]; intros b cks; simpl.
  - apply prefix_nil.
  - destruct (classify v r) as [|e|items ck].
    + case_bool_decide; simpl; [|apply prefix_nil]. by rewrite !app_nil_r.
    + apply prefix_nil.
    + destruct (overflows b items maxItems); simpl.
      * apply prefix_app, IH.
      * rewrite (assoc_L (++)). apply IH.
Qed.

Lemma batches_cookies sc b cks :
  concat (cookies <$> batches sc b cks) `prefix_of` cks ++ fetched_cookies sc.
Proof.
  revert b cks. induction sc as [|r sc IH]; intros b cks; simpl.
  - apply prefix_nil.
  - destruct (classify v r) as [|e|items ck].
    + case_bool_decide; simpl; [|apply prefix_nil]. by rewrite !app_nil_r.
    + apply prefix_nil.
    + destruct (overflows b items maxItems); simpl.
      * apply prefix_app, (IH _ [ck]).
      * replace (cks ++ ck :: fetched_cookies sc)
          with ((cks ++ [ck]) ++ fetched_cookies sc)
          by (by rewrite <-(assoc_L (++))).
        apply IH.
Qed.

(** When an answer overflows the buffer, the buffer is handed over as
    it is and the answer alone starts the next one. *)
Lemma batches_overflow r sc b cks items ck :
  classify v r = Fetched items ck → overflows b items maxItems = true →
  batches (r :: sc) b cks = Batch b cks :: batches sc items [ck].
Proof. intros Hr Ho. simpl. by rewrite Hr, Ho. Qed.

Lemma batches_no_overflow r sc b cks items ck :
  classify v r = Fetched items ck → overflows b items maxItems = false →
  batches (r :: sc) b cks = batches sc (b ++ items) (cks ++ [ck]).
Proof. intros Hr Ho. simpl. by rewrite Hr, Ho. Qed.

(** The next batch handed over starts with what the buffer holds. *)
Lemma batches_head sc b cks bt bts :
  batches sc b cks = bt :: bts →
  b `prefix_of` buf bt ∧ cks `prefix_of` cookies bt.
Proof.
  revert b cks. induction sc as [|r sc IH]; intros b cks; simpl; [done|].
  destruct (classify v r) as [|e|items ck]; [|done|].
  - case_bool_decide; [|done]. by intros [= <- <-].
  - destruct (overflows b items maxItems).
    + by intros [= <- <-].
    + intros H. apply IH in H as [H1 H2]. split.
      * etrans; [|exact H1]. by apply prefix_app_r.
      * etrans; [|exact H2]. by apply prefix_app_r.
Qed.

(** Fetches that fit are handed over as one batch at the end of the
    stream; an empty buffer is not handed over. *)
Lemma batches_fit sc pre fs eof tl b cks :
  fetches_then_eof sc pre fs eof tl →
  Z.of_nat (length b) + Z.of_nat (length (concat fs.*1)) ≤ maxItems →
  batches sc b cks =
    if bool_decide (0 < length (b ++ concat fs.*1))%nat
    then [Batch (b ++ concat fs.*1) (cks ++ fs.*2)] else [].
Proof.
  intros (-> & Hpre & Heof). revert b cks.
  induction Hpre as [|r [items ck] pre fs Hr Hpre IH]; intros b cks Hfit.
  - simpl. by rewrite Heof, !app_nil_r.
  - rewrite !fmap_cons in *. cbn [concat fst snd] in *.
    rewrite length_app in Hfit.
    rewrite <-app_comm_cons.
    erewrite batches_no_overflow; [|exact Hr|].
    + rewrite IH by (rewrite length_app; lia).
      by rewrite <-!(assoc_L (++)).
    + unfold overflows. apply bool_decide_eq_false_2. lia.
Qed.

(** No batch exceeds the limit when no single answer does. *)
Lemma batches_bound sc b cks :
  Forall (λ r, ∀ items ck, classify v r = Fetched items ck →
                 Z.of_nat (length items) ≤ maxItems) sc →
  b = [] ∨ Z.of_nat (length b) ≤ maxItems →
  Forall (λ bt, Z.of_nat (length (buf bt)) ≤ maxItems) (batches sc b cks).
Proof.
  intros Hsc. revert b cks.
  induction Hsc as [|r sc Hr Hsc IH]; intros b cks Hb; simpl; [done|].
  destruct (classify v r) as [|e|items ck] eqn:E; [|done|].
  - case_bool_decide; [|done]. apply Forall_singleton. simpl.
    destruct Hb as [->|?]; [simpl in *; lia|done].
  - specialize (Hr items ck eq_refl).
    unfold overflows. case_bool_decide.
    + apply Forall_cons. split.
      * simpl. destruct Hb as [->|?]; [simpl in *; lia|done].
      * apply IH. by right.
    + apply IH. right. rewrite length_app. lia.
Qed.

(** Zero-item answers never fill a buffer: nothing is handed over. *)
Lemma batches_empty sc pre cks0 eof tl cks :
  fetches_then_eof sc pre ((λ ck, ([], ck)) <$> cks0) eof tl →
  0 ≤ maxItems →
  batches sc [] cks = [].
Proof.
  intros Hsc Hmax.
  rewrite (batches_fit sc pre _ eof tl [] cks Hsc).
  - rewrite bool_decide_eq_false_2; [done|].
    simpl. clear. induction cks0; simpl; [lia|done].
  - simpl. replace (concat _) with (@nil Item); [simpl; lia|].
    clear. induction cks0; simpl; [done|done].
Qed.

Lemma consumed_fetches sc pre fs eof tl :
  fetches_then_eof sc pre fs eof tl → consumed sc = pre ++ [eof].
Proof.
  intros (-> & Hpre & Heof).
  induction Hpre as [|r [items ck] pre fs Hr Hpre IH]; simpl.
  - by rewrite Heof.
  - by rewrite Hr, IH.
Qed.

Lemma fetches_terminates sc pre fs eof tl :
  fetches_then_eof sc pre fs eof tl → terminates sc.
Proof.
  intros (-> & Hpre & Heof). apply Exists_app. right.
  apply Exists_cons_hd. by rewrite Heof.
Qed.

Lemma fetches_no_failure sc pre fs eof tl :
  fetches_then_eof sc pre fs eof tl →
  Forall (λ r, ∀ e, classify v r ≠ Failed e) (consumed sc).
Proof.
  intros Hsc. rewrite (consumed_fetches _ _ _ _ _ Hsc).
  destruct Hsc as (-> & Hpre & Heof).
  apply Forall_app. split.
  - induction Hpre as [|r [items ck] pre fs Hr Hpre IH]; constructor; [|done].
    intros e. by rewrite Hr.
  - apply Forall_singleton. intros e. by rewrite Heof.
Qed.

(** ** What every execution guarantees *)

Lemma run_no_call_fails sched s :
  (∀ tr x, Process c tr x = None) → (∀ tr ck, Commit p tr ck = None) →
  run sched Pipe_init = Some s →
  pfailed (log s) = false ∧ cfailed (log s) = false.
Proof.
  intros Hp Hc Hrun. apply run_init_reachable in Hrun. revert s Hrun.
  apply rtc_ind_r; [done|].
  intros s1 s2 _ [ch Hch] [IH1 IH2].
  step_inv Hch; simpl in *; rewrite ?pfailed_snoc, ?cfailed_snoc, ?IH1, ?IH2;
    try done.
  all: by rewrite ?Hp, ?Hc in *.
Qed.

Lemma failures_nil_calls (l : trace) :
  failures l = [] → pfailed l = false ∧ cfailed l = false.
Proof.
  unfold failures, pfailed, cfailed.
  induction l as [|e l IH]; simpl; [done|].
  destruct (failure e) eqn:E; [done|]. intros H. apply IH in H as [-> ->].
  by destruct e as [| |? []| |? []].
Qed.

Lemma run_log_facts sched s :
  run sched Pipe_init = Some s →
  nexts (log s) `prefix_of` consumed (Next p) ∧
  sends (log s) `prefix_of` batches (Next p) [] [] ∧
  processed (log s) `prefix_of` sends (log s) ∧
  emits (log s) `prefix_of` owed (log s) ∧
  committed (log s) `prefix_of` emits (log s).
Proof.
  intros Hrun. apply run_inv in Hrun as [_ _ [Hn Hf Hb He Hc _ _ _ _] _].
  split_and!.
  - destruct (fetch s); try done; by eexists.
  - destruct (fetch s); try (by destruct Hf); rewrite <-Hf; by eexists.
  - rewrite Hb. by eexists.
  - destruct (proc s); try (by destruct He); rewrite <-?He; by eexists.
  - rewrite Hc. by eexists.
Qed.

(** The same holds of every prefix of the log: at every moment of the
    execution. *)
Lemma run_log_facts_prefix sched s l :
  run sched Pipe_init = Some s → l `prefix_of` log s →
  nexts l `prefix_of` consumed (Next p) ∧
  sends l `prefix_of` batches (Next p) [] [] ∧
  processed l `prefix_of` sends l ∧
  emits l `prefix_of` owed l ∧
  committed l `prefix_of` emits l.
Proof.
  intros Hrun Hl. apply run_init_reachable in Hrun.
  destruct (reachable_log_prefix s l Hrun Hl) as (s0 & Hs0 & <-).
  apply reachable_inv in Hs0 as [_ _ [Hn Hf Hb He Hc _ _ _ _] _].
  split_and!.
  - destruct (fetch s0); try done; by eexists.
  - destruct (fetch s0); try (by destruct Hf); rewrite <-Hf; by eexists.
  - rewrite Hb. by eexists.
  - destruct (proc s0); try (by destruct He); rewrite <-?He; by eexists.
  - rewrite Hc. by eexists.
Qed.

(** When [Run] has returned and no stage failed, nothing was dropped. *)
Lemma returned_exact s r :
  inv s → result s = Some r → failures (log s) = [] →
  r = None ∧ (∀ i, cancelled i s = false) ∧
  sends (log s) = batches (Next p) [] [] ∧
  processed (log s) = sends (log s) ∧
  emits (log s) = owed (log s) ∧
  committed (log s) = emits (log s).
Proof.
  intros Hinv Hres Hfail.
  destruct (returned_inv s r Hinv Hres) as (Hf & Hp & Hc & -> & Hcol).
  destruct (failures_nil_calls _ Hfail) as [Hpf Hcf].
  destruct Hinv as [[Htok _ _ _ _ _ _ _ _ _ _ _ _ _ _] _
                      [_ Hdf Hdb Hde Hdc _ _ Hpd Hcd] [_ Het]].
  rewrite Hfail in Hcol. apply Permutation_nil_r in Hcol. rewrite Hcol.
  destruct Htok as (t0 & t1 & t2 & Htk & _).
  assert (∀ i, cancelled i s = false) as Hopen.
  { intros i. unfold cancelled. destruct (cancelChans s !! i) as [[]|] eqn:E; try done.
    by destruct (Het i E). }
  rewrite Hf in Hdf. rewrite Hp in Hde, Hpd, Hdb. rewrite Hc in Hcd, Hdc.
  simpl in *.
  destruct Hdf as [_ Hdf]. destruct Hde as (_ & Hde & _).
  destruct (Hpd (Hopen _) Hpf) as [Hq _]. destruct (Hcd (Hopen _) Hcf) as [Hq' _].
  rewrite Hq in Hdb. rewrite Hq' in Hdc. rewrite !app_nil_r in *.
  split_and!; eauto.
Qed.

(** The result of [Run] joins the errors of the stages that failed. *)
Lemma result_matches sched s r e k :
  run sched Pipe_init = Some s → result s = Some r →
  e ∈ failures (log s) → errors_Is e k = true →
  ∃ agg, r = Some agg ∧ errors_Is agg k = true.
Proof.
  intros Hrun Hres He Hk. apply run_inv in Hrun.
  destruct (returned_inv s r Hrun Hres) as (_ & _ & _ & -> & Hcol).
  apply errors_Join_Is with e; [|done]. by rewrite Hcol.
Qed.

Lemma result_nil_iff sched s r :
  run sched Pipe_init = Some s → result s = Some r →
  r = None ↔ failures (log s) = [].
Proof.
  intros Hrun Hres. apply run_inv in Hrun.
  destruct (returned_inv s r Hrun Hres) as (_ & _ & _ & -> & Hcol).
  split.
  - intros Hnil. destruct (collected (main s)); [|done].
    by apply Permutation_nil_l in Hcol.
  - intros Hnil. rewrite Hnil in Hcol. apply Permutation_nil_r in Hcol.
    by rewrite Hcol.
Qed.

Lemma processed_nil (l : trace) :
  (∀ bt r, EvProcess bt r ∉ l) → processed l = [].
Proof.
  induction l as [|e l IH]; [done|]. intros H. unfold processed. simpl.
  destruct e; try (apply IH; intros ? ? ?; eapply H; by right).
  by destruct (H bt res); left.
Qed.

Lemma emits_nil (l : trace) : (∀ ck, EvEmit ck ∉ l) → emits l = [].
Proof.
  induction l as [|e l IH]; [done|]. intros H. unfold emits. simpl.
  destruct e; try (apply IH; intros ? ?; eapply H; by right).
  by destruct (H cookie); left.
Qed.

Lemma committed_nil (l : trace) :
  (∀ ck r, EvCommit ck r ∉ l) → committed l = [].
Proof.
  induction l as [|e l IH]; [done|]. intros H. unfold committed. simpl.
  destruct e; try (apply IH; intros ? ? ?; eapply H; by right).
  by destruct (H cookie res); left.
Qed.

(** A failed call of [Process] is the last thing [runProcess] does. *)
Lemma process_failure_last sched s l1 bt e l2 :
  run sched Pipe_init = Some s →
  log s = l1 ++ EvProcess bt (Some e) :: l2 →
  pfailed l1 = false ∧ emits l1 = owed l1 ∧ processed l2 = [] ∧ emits l2 = [].
Proof.
  intros Hrun Hlog. apply run_init_reachable in Hrun.
  assert (∀ la x lb, log s = la ++ x :: lb →
    (∃ bt r, x = EvProcess bt r) ∨ (∃ ck, x = EvEmit ck) →
    pfailed la = false ∧ emits la ++ (if x is EvEmit ck then [ck] else []) `prefix_of` owed la
      ∧ ((∃ bt r, x = EvProcess bt r) → emits la = owed la)) as Horigin.
  { intros la x lb Hl Hx.
    destruct (reachable_log_event s la x lb Hrun Hl) as (s0 & s1 & ch & Hs0 & Hstep & <- & Hl1).
    apply reachable_inv in Hs0 as [_ _ [_ _ _ He _ Hpf _ _ _] _].
    destruct Hx as [(bt' & r & ->)|(ck & ->)].
    - eapply step_process_event in Hstep as [Hpc _]; [|exact Hl1].
      rewrite Hpc in He, Hpf. split_and!; [done|rewrite app_nil_r, He; done|done].
    - eapply step_emit_event in Hstep as [more Hpc]; [|exact Hl1].
      rewrite Hpc in He, Hpf. split_and!; [done| |by intros (? & ? & ?)].
      rewrite <-He. by apply prefix_app, prefix_cons, prefix_nil. }
  destruct (Horigin l1 _ l2 Hlog) as (Hpf & _ & Hem); [by eauto|].
  split_and!; [done|by eauto| |].
  - apply processed_nil. intros bt' r Hin.
    apply list_elem_of_split in Hin as (la & lb & ->).
    rewrite app_comm_cons, (assoc_L (++)) in Hlog.
    destruct (Horigin _ _ _ Hlog) as (Hpf' & _); [by eauto|].
    rewrite pfailed_app in Hpf'. simpl in Hpf'. by rewrite orb_true_r in Hpf'.
  - apply emits_nil. intros ck Hin.
    apply list_elem_of_split in Hin as (la & lb & ->).
    rewrite app_comm_cons, (assoc_L (++)) in Hlog.
    destruct (Horigin _ _ _ Hlog) as (Hpf' & _); [by eauto|].
    rewrite pfailed_app in Hpf'. simpl in Hpf'. by rewrite orb_true_r in Hpf'.
Qed.

(** A failed call of [Commit] is the last thing [runCommit] does. *)
Lemma commit_failure_last sched s l1 ck e l2 :
  run sched Pipe_init = Some s →
  log s = l1 ++ EvCommit ck (Some e) :: l2 →
  cfailed l1 = false ∧ committed l2 = [].
Proof.
  intros Hrun Hlog. apply run_init_reachable in Hrun.
  assert (∀ la ck' r lb, log s = la ++ EvCommit ck' r :: lb → cfailed la = false)
    as Horigin.
  { intros la ck' r lb Hl.
    destruct (reachable_log_event s la _ lb Hrun Hl) as (s0 & s1 & ch & Hs0 & Hstep & <- & Hl1).
    apply reachable_inv in Hs0 as [_ _ [_ _ _ _ _ _ Hcf _ _] _].
    eapply step_commit_event in Hstep as [Hpc _]; [|exact Hl1].
    by rewrite Hpc in Hcf. }
  split; [by eapply Horigin|].
  apply committed_nil. intros ck' r Hin.
  apply list_elem_of_split in Hin as (la & lb & ->).
  rewrite app_comm_cons, (assoc_L (++)) in Hlog.
  apply Horigin in Hlog. rewrite cfailed_app in Hlog. simpl in Hlog.
  by rewrite orb_true_r in Hlog.
Qed.

(** Once [Commit] failed, the cookies sent and not acknowledged are the
    ones left in the cookie channel. *)
Lemma commit_failure_buffered sched s :
  run sched Pipe_init = Some s → cfailed (log s) = true →
  emits (log s) = committed (log s) ++ queue (cookiesCh s).
Proof.
  intros Hrun Hcf. apply run_inv in Hrun as [_ _ [_ _ _ _ Hc _ Hcfail _ _] _].
  rewrite Hc. destruct (comm s); simpl; try done; congruence.
Qed.

(** When no collaborator fails, nothing is cancelled and nothing is
    dropped. *)
Lemma run_happy sched s :
  (∀ tr x, Process c tr x = None) → (∀ tr ck, Commit p tr ck = None) →
  Forall (λ r, ∀ e, classify v r ≠ Failed e) (consumed (Next p)) →
  run sched Pipe_init = Some s →
  failures (log s) = [] ∧
  ∀ r, result s = Some r →
    r = None ∧
    sends (log s) = batches (Next p) [] [] ∧
    processed (log s) = batches (Next p) [] [] ∧
    committed (log s) = concat (cookies <$> batches (Next p) [] []).
Proof.
  intros Hp Hc Hn Hrun.
  destruct (run_no_call_fails sched s Hp Hc Hrun) as [Hpf Hcf].
  destruct (run_log_facts sched s Hrun) as ([k Hk] & _).
  assert (failures (log s) = []) as Hfail.
  { apply failures_nil; [done..|]. rewrite Hk in Hn. by apply Forall_app in Hn as [? _]. }
  split; [done|]. intros r Hres.
  destruct (returned_exact s r (run_inv _ _ Hrun) Hres Hfail)
    as (-> & _ & Hs & Hpr & He & Hcm).
  split_and!; [done|done|congruence|].
  rewrite Hcm, He, owed_processed by done. congruence.
Qed.

(** The calls of a log with one call of [Process], accepted, in which
    every acknowledgement comes after the cookie was owed. *)
Lemma calls_cons e (l : trace) :
  calls (e :: l) = if is_call e then e :: calls l else calls l.
Proof.
  unfold calls, trace. destruct (is_call e) eqn:E.
  - by rewrite filter_cons_True.
  - rewrite filter_cons_False; [done|]. by rewrite E.
Qed.

Lemma calls_commits_only (l : trace) :
  processed l = [] → cfailed l = false →
  calls l = (λ ck, EvCommit ck None) <$> committed l.
Proof.
  induction l as [|e l IH]; [done|]. rewrite calls_cons.
  unfold processed, committed, cfailed in *.
  destruct e as [| |bt r| |ck [err|]]; simpl; try done.
  intros Hp Hc. f_equal. by apply IH.
Qed.

Lemma calls_single (l : trace) bt :
  processed l = [bt] → pfailed l = false → cfailed l = false →
  (∀ l', l' `prefix_of` l → (length (committed l') <= length (owed l'))%nat) →
  calls l = EvProcess bt None :: ((λ ck, EvCommit ck None) <$> committed l).
Proof.
  induction l as [|e l IH]; [done|]. intros Hp Hpf Hcf Hpre.
  assert (∀ l', l' `prefix_of` l → e :: l' `prefix_of` e :: l) as Hcons.
  { intros l' Hl'. by apply prefix_cons. }
  rewrite calls_cons.
  destruct e as [| |bt' [err|]| |ck r].
  - apply IH; try done. intros l' Hl'. apply (Hpre _ (Hcons _ Hl')).
  - apply IH; try done. intros l' Hl'. apply (Hpre _ (Hcons _ Hl')).
  - done.
  - unfold processed, pfailed, cfailed in *. simpl in *. simplify_eq.
    f_equal. by apply calls_commits_only.
  - apply IH; try done. intros l' Hl'. apply (Hpre _ (Hcons _ Hl')).
  - specialize (Hpre [EvCommit ck r]). unfold owed in Hpre. simpl in Hpre.
    assert ([EvCommit ck r] `prefix_of` EvCommit ck r :: l) as Hx
      by apply prefix_cons, prefix_nil.
    apply Hpre in Hx. lia.
Qed.

(** ** The coordinator *)

(** The inner loop of the coordinator computes [cascade]. *)
Lemma coord_cascade_run s se i o t pk :
  coord s = KCascade se i →
  cascade i (onceList s) (cancelChans s) = Some (o, t) →
  run (replicate (S i) (Choose ACoord pk)) s
  = Some (set_coord (KForward se) (set_tokens o t s)).
Proof.
  revert s. induction i as [|i IH]; intros s Hk Hc.
  - simpl in *. unfold step, step_coord. simpl. rewrite Hk.
    destruct (once_do_close 0 (onceList s) (cancelChans s)) as [[o' t']|]; [|done].
    by simplify_eq.
  - rewrite (replicate_S (S i)). cbn [run]. simpl in Hc.
    set (R := run (replicate (S i) (Choose ACoord pk))).
    unfold step, step_coord. simpl. rewrite Hk.
    destruct (once_do_close (S i) (onceList s) (cancelChans s)) as [[o' t']|] eqn:E;
      [|done].
    subst R. rewrite (IH (set_coord (KCascade se i) (set_tokens o' t' s))); [|done|done].
    by destruct s.
Qed.

(** [cascade] on the tokens of a pipeline of [n] stages: the tokens up
    to [i] are closed, the others are as they were, and doing it again
    neither changes anything nor fails. *)
Lemma cascade_spec i (tokens : list bool) :
  (i < length tokens)%nat →
  ∃ tokens',
    cascade i tokens tokens = Some (tokens', tokens') ∧
    length tokens' = length tokens ∧
    (∀ j, (j <= i)%nat → tokens' !! j = Some true) ∧
    (∀ j, (i < j)%nat → tokens' !! j = tokens !! j) ∧
    cascade i tokens' tokens' = Some (tokens', tokens').
Proof.
  revert tokens. induction i as [|i IH]; intros tokens Hi; simpl.
  - rewrite once_do_close_same_Some by done.
    exists (<[0%nat:=true]> tokens). split_and!; [done|by rewrite length_insert| | |].
    + intros j Hj. replace j with 0%nat by lia. by apply list_lookup_insert_eq.
    + intros j Hj. apply list_lookup_insert_ne. lia.
    + rewrite once_do_close_same_Some by (by rewrite length_insert).
      by rewrite list_insert_insert_eq.
  - rewrite once_do_close_same_Some by done.
    destruct (IH (<[S i:=true]> tokens)) as (tk' & Hc & Hlen & Hle & Hgt & Hidem).
    { rewrite length_insert. lia. }
    rewrite length_insert in Hlen.
    exists tk'. split_and!; [done|done| | |].
    + intros j Hj. destruct (decide (j = S i)) as [->|].
      * rewrite Hgt by lia. by apply list_lookup_insert_eq.
      * apply Hle. lia.
    + intros j Hj. rewrite Hgt by lia. apply list_lookup_insert_ne. lia.
    + rewrite once_do_close_same_Some by lia.
      assert (<[S i:=true]> tk' = tk') as ->; [|done].
      apply list_insert_id. rewrite Hgt by lia. by apply list_lookup_insert_eq.
Qed.

(** Receiving a [StageError]: the coordinator, moving alone, takes it
    from the channel, runs the cascade and stands before forwarding
    it. *)
Lemma coord_receives s se q pk :
  coord s = KRange → queue (errCh s) = se :: q →
  onceList s = cancelChans s → (Index se < length (cancelChans s))%nat →
  ∃ tokens',
    cascade (Index se) (cancelChans s) (cancelChans s) = Some (tokens', tokens') ∧
    run (replicate (S (S (Index se))) (Choose ACoord pk)) s
    = Some (set_coord (KForward se)
              (set_tokens tokens' tokens'
                 (set_errCh (MkChan q (closed (errCh s))) s))).
Proof.
  intros Hk Hq Ho Hi.
  destruct (cascade_spec (Index se) (cancelChans s) Hi) as (tk' & Hc & _).
  exists tk'. split; [done|].
  rewrite (replicate_S (S (Index se))). cbn [run].
  set (R := run (replicate (S (Index se)) (Choose ACoord pk))).
  unfold step, step_coord, op_bind, chan_recv. simpl. rewrite Hk, Hq.
  subst R.
  rewrite (coord_cascade_run _ se (Index se) tk' tk'); [by destruct s|done|].
  simpl. by rewrite Ho.
Qed.

(** The tokens are closed by the cascade only. *)
Lemma step_tokens s s' ch :
  step ch s = Goes s' →
  (cancelChans s' = cancelChans s ∧ onceList s' = onceList s) ∨
  ∃ se i, who ch = ACoord ∧ coord s = KCascade se i ∧
    once_do_close i (onceList s) (cancelChans s) = Some (onceList s', cancelChans s').
Proof.
  intros H. step_inv H; simpl.
  all: first [ left; split; reflexivity | right; eauto ].
Qed.

(** The log only grows. *)
Lemma run_log_prefix sched s s' :
  run sched s = Some s' → log s `prefix_of` log s'.
Proof.
  revert s. induction sched as [|ch sched IH]; intros s H; simpl in H.
  - by simplify_eq.
  - destruct (step ch s) as [| |s1] eqn:E; [by apply IH|done|].
    trans (log s1); [|by apply IH].
    destruct (step_log _ _ _ E) as [->|[e ->]]; [done|by eexists].
Qed.

(** ** The steps of [runNext] *)

(** The answer of [Next] that fits: it is folded into the buffer, and
    nothing is sent. *)
Lemma fetch_fits s pk b cks r rs items ck :
  fetch s = FNext b cks → rest s = r :: rs →
  classify v r = Fetched items ck → overflows b items maxItems = false →
  step (Choose AFetch pk) s
  = Goes (set_fetch (FSelect (b ++ items) (cks ++ [ck]))
            (set_rest rs (add_log (EvNext r) s))).
Proof.
  intros Hf Hr Hc Ho. unfold step, step_fetch. simpl.
  by rewrite Hf, Hr, Hc, Ho.
Qed.

(** The answer of [Next] that does not fit: the buffer is sealed, to be
    sent before the answer is looked at again. *)
Lemma fetch_overflows s pk b cks r rs items ck :
  fetch s = FNext b cks → rest s = r :: rs →
  classify v r = Fetched items ck → overflows b items maxItems = true →
  step (Choose AFetch pk) s
  = Goes (set_fetch (FWrite (Batch b cks) items ck)
            (set_rest rs (add_log (EvNext r) s))).
Proof.
  intros Hf Hr Hc Ho. unfold step, step_fetch. simpl.
  by rewrite Hf, Hr, Hc, Ho.
Qed.

(** The send of a sealed buffer: as long as it has not happened the
    answer waits, and the new buffer starts from the answer when it
    has. *)
Lemma fetch_sends s s' ch bt items ck :
  fetch s = FWrite bt items ck → step ch s = Goes s' →
  (fetch s' = FWrite bt items ck ∧ sends (log s') = sends (log s)) ∨
  (fetch s' = FReturn None ∧ cancelled 0 s = true ∧ log s' = log s) ∨
  (fetch s' = FSelect items [ck] ∧ log s' = log s ++ [EvSend bt] ∧
   queue (batchCh s') = queue (batchCh s) ++ [bt]).
Proof.
  intros Hf H. step_inv H; simpl in *; simplify_eq.
  all: first [ left; split; [reflexivity|]; log_norm; reflexivity
             | right; left; split_and!; [done| |done]; and_true;
               by destruct (_ !! _) as [[]|]
             | right; left; split_and!; [done| |done];
               by destruct (_ !! _) as [[]|]
             | right; right; done ].
Qed.

(** ** [Pipe] *)

Lemma make_serves {memory} : make_fails memory maxItems = false → 0 ≤ maxItems.
Proof. unfold make_fails. intros H%bool_decide_eq_false. lia. Qed.

Lemma Pipe_make {memory} sched s :
  Pipe memory sched = Some s → make_fails memory maxItems = false.
Proof. unfold Pipe. by destruct (make_fails memory maxItems). Qed.

Lemma Pipe_run {memory} sched s :
  Pipe memory sched = Some s → 0 ≤ maxItems ∧ run sched Pipe_init = Some s.
Proof.
  intros H. pose proof (Pipe_make _ _ H) as Hm. split; [by eapply make_serves|].
  unfold Pipe in H. by rewrite Hm in H.
Qed.

Lemma run_Pipe {memory} sched s :
  make_fails memory maxItems = false → run sched Pipe_init = Some s →
  Pipe memory sched = Some s.
Proof. intros Hm Hrun. unfold Pipe. by rewrite Hm. Qed.

(** Whatever the goroutines did so far, they can go on until [Pipe]
    has returned, when [Next] does not go on for ever. *)
Lemma Pipe_can_return {memory} sched s :
  terminates (Next p) → Pipe memory sched = Some s →
  ∃ sched' s', Pipe memory (sched ++ sched') = Some s' ∧ is_Some (result s').
Proof.
  intros Ht HPipe. pose proof (Pipe_make _ _ HPipe) as Hmk.
  apply Pipe_run in HPipe as [Hm Hrun].
  destruct (Pipe_returns sched s Ht Hrun) as (sched' & s' & Hrun' & Hres).
  exists sched', s'. split; [by apply run_Pipe|done].
Qed.

Lemma processed_nil_pfailed (l : trace) : processed l = [] → pfailed l = false.
Proof.
  unfold processed, pfailed. induction l as [|[] l IH]; simpl; try done.
Qed.

Lemma committed_nil_cfailed (l : trace) : committed l = [] → cfailed l = false.
Proof.
  unfold committed, cfailed. induction l as [|[] l IH]; simpl; try done.
Qed.

Lemma processed_nil_owed (l : trace) : processed l = [] → owed l = [].
Proof.
  unfold processed, owed. induction l as [|[] l IH]; simpl; try done.
Qed.

Lemma calls_nil (l : trace) : processed l = [] → committed l = [] → calls l = [].
Proof.
  intros Hp Hc. rewrite calls_commits_only, Hc; [done..|].
  by apply committed_nil_cfailed.
Qed.

Lemma prefix_fmap {A B} (f : A → B) (l1 l2 : list A) :
  l1 `prefix_of` l2 → f <$> l1 `prefix_of` f <$> l2.
Proof. intros [k ->]. rewrite fmap_app. by eexists. Qed.

(** Nothing was sent: nothing was processed, emitted or committed. *)
Lemma run_nothing_sent sched s :
  run sched Pipe_init = Some s → sends (log s) = [] →
  processed (log s) = [] ∧ emits (log s) = [] ∧ committed (log s) = [].
Proof.
  intros Hrun Hs.
  destruct (run_log_facts sched s Hrun) as (_ & _ & Hp & He & Hc).
  rewrite Hs in Hp. apply prefix_nil_inv in Hp.
  rewrite (processed_nil_owed _ Hp) in He. apply prefix_nil_inv in He.
  rewrite He in Hc. by apply prefix_nil_inv in Hc.
Qed.

(** ** The claims of the specification *)

(** C1 (amended).  For every producer whose fetches before the end of
    the stream hold, together, at least one item and no more than the
    capacity limit, and whose collaborators do not fail: [Pipe] can
    always go on to its return, it returns nil, and by then [Process]
    was called exactly once, on the concatenation of all the fetched
    items in fetch order, and [Commit] exactly once per cookie, in fetch
    order, after that call of [Process]; at any moment before, the calls
    made are a prefix of these. *)
Theorem C1_fitting_fetches_make_one_batch memory pre fs eof tl sched s :
  fetches_then_eof (Next p) pre fs eof tl →
  Z.of_nat (length (concat fs.*1)) ≤ maxItems →
  (0 < length (concat fs.*1))%nat →
  (∀ tr x, Process c tr x = None) → (∀ tr ck, Commit p tr ck = None) →
  Pipe memory sched = Some s →
  let all_calls := EvProcess (Batch (concat fs.*1) fs.*2) None
                     :: ((λ ck, EvCommit ck None) <$> fs.*2) in
  calls (log s) `prefix_of` all_calls ∧
  (∀ r, result s = Some r → r = None ∧ calls (log s) = all_calls) ∧
  ∃ sched' s', Pipe memory (sched ++ sched') = Some s' ∧ is_Some (result s').
Proof.
  intros Hsc Hfit Hpos Hp Hc HPipe all_calls.
  pose proof HPipe as [Hm Hrun]%Pipe_run.
  pose proof (batches_fit _ _ _ _ _ [] [] Hsc) as Hb. simpl in Hb.
  rewrite bool_decide_eq_true_2 in Hb by done. specialize (Hb ltac:(lia)).
  destruct (run_no_call_fails sched s Hp Hc Hrun) as [Hpf Hcf].
  destruct (run_log_facts sched s Hrun) as (_ & Hs & Hpr & He & Hcm).
  assert (∀ l', l' `prefix_of` log s →
                (length (committed l') <= length (owed l'))%nat) as Hord.
  { intros l' Hl'.
    destruct (run_log_facts_prefix sched s l' Hrun Hl') as (_ & _ & _ & He' & Hc').
    apply prefix_length in He', Hc'. lia. }
  split_and!.
  - rewrite Hb in Hs. assert (processed (log s) `prefix_of`
      [Batch (concat fs.*1) fs.*2]) as Hpr' by (by etrans).
    destruct (processed (log s)) as [|bt bts] eqn:Hpe.
    + rewrite (processed_nil_owed _ Hpe) in He. apply prefix_nil_inv in He.
      rewrite He in Hcm. apply prefix_nil_inv in Hcm.
      rewrite calls_nil by done. apply prefix_nil.
    + destruct Hpr' as [k Hk]. simplify_eq/=.
      destruct bts; [|done].
      rewrite (calls_single _ _ Hpe Hpf Hcf Hord).
      apply prefix_cons, prefix_fmap. etrans; [done|]. etrans; [done|].
      rewrite owed_processed, Hpe by done. simpl. by rewrite app_nil_r.
  - intros r Hres.
    destruct (run_happy sched s Hp Hc (fetches_no_failure _ _ _ _ _ Hsc) Hrun)
      as [_ Hh].
    destruct (Hh r Hres) as (-> & _ & Hpe & Hce). split; [done|].
    rewrite Hb in Hpe, Hce. simpl in Hce. rewrite app_nil_r in Hce.
    by rewrite (calls_single _ _ Hpe Hpf Hcf Hord), Hce.
  - eapply Pipe_can_return; [|done]. by eapply fetches_terminates.
Qed.

(** C10.  If every fetch before the end of the stream returns no item,
    no batch is ever sealed: [Process] and [Commit] are never called,
    the cookies collected are dropped, and [Pipe], which can always go
    on to its return, returns nil. *)
Theorem C10_empty_fetches_are_dropped memory pre cks eof tl sched s :
  fetches_then_eof (Next p) pre ((λ ck, ([], ck)) <$> cks) eof tl →
  Pipe memory sched = Some s →
  sends (log s) = [] ∧ processed (log s) = [] ∧ committed (log s) = [] ∧
  calls (log s) = [] ∧ queue (cookiesCh s) = [] ∧
  (∀ r, result s = Some r → r = None) ∧
  ∃ sched' s', Pipe memory (sched ++ sched') = Some s' ∧ result s' = Some None.
Proof.
  intros Hsc HPipe. pose proof HPipe as [Hm Hrun]%Pipe_run.
  pose proof (batches_empty _ _ _ _ _ [] Hsc Hm) as Hb.
  assert (∀ sched s, run sched Pipe_init = Some s →
    sends (log s) = [] ∧ processed (log s) = [] ∧ committed (log s) = [] ∧
    calls (log s) = [] ∧ queue (cookiesCh s) = [] ∧
    (∀ r, result s = Some r → r = None)) as Hall.
  { clear dependent sched s. intros sched s Hrun.
    destruct (run_log_facts sched s Hrun) as ([k Hk] & Hs & _).
    rewrite Hb in Hs. apply prefix_nil_inv in Hs.
    destruct (run_nothing_sent sched s Hrun Hs) as (Hp & He & Hc).
    split_and!; [done|done|done|by apply calls_nil| |].
    - pose proof (run_inv _ _ Hrun) as [_ _ [_ _ _ _ Hck _ _ _ _] _].
      rewrite He in Hck. symmetry in Hck.
      apply app_eq_nil in Hck as [_ Hck]. by apply app_eq_nil in Hck as [_ ?].
    - intros r Hres. eapply result_nil_iff; [done..|].
      apply failures_nil.
      + by apply processed_nil_pfailed.
      + by apply committed_nil_cfailed.
      + pose proof (fetches_no_failure _ _ _ _ _ Hsc) as Hn.
        rewrite Hk in Hn. by apply Forall_app in Hn as [? _]. }
  destruct (Hall sched s Hrun) as (? & ? & ? & ? & ? & ?).
  split_and!; try done.
  destruct (Pipe_can_return (memory:=memory) sched s) as (sched' & s' & HPipe' & [r Hr]);
    [by eapply fetches_terminates|done|].
  exists sched', s'. split; [done|].
  apply Pipe_run in HPipe' as [_ Hrun'].
  destruct (Hall _ _ Hrun') as (_ & _ & _ & _ & _ & Hnil).
  by rewrite Hr, (Hnil r Hr).
Qed.

(** ** Order *)

Lemma prefix_concat {A} (l1 l2 : list (list A)) :
  l1 `prefix_of` l2 → concat l1 `prefix_of` concat l2.
Proof. intros [k ->]. rewrite concat_app. by eexists. Qed.

Lemma pfailed_split (l : trace) :
  pfailed l = true → ∃ l1 bt e l2, l = l1 ++ EvProcess bt (Some e) :: l2.
Proof.
  unfold pfailed. intros (ev & Hin & Hev)%existsb_exists.
  apply list_elem_of_In, list_elem_of_split in Hin as (l1 & l2 & ->).
  destruct ev as [| |bt [e|]| |]; try done. by exists l1, bt, e, l2.
Qed.

Lemma cfailed_split (l : trace) :
  cfailed l = true → ∃ l1 ck e l2, l = l1 ++ EvCommit ck (Some e) :: l2.
Proof.
  unfold cfailed. intros (ev & Hin & Hev)%existsb_exists.
  apply list_elem_of_In, list_elem_of_split in Hin as (l1 & l2 & ->).
  destruct ev as [| | | |ck [e|]]; try done. by exists l1, ck, e, l2.
Qed.

(** The cookies owed are those of the batches processed, but for the
    batch [Process] refused, the last one. *)
Lemma run_owed sched s :
  run sched Pipe_init = Some s →
  owed (log s) `prefix_of` concat (cookies <$> processed (log s)).
Proof.
  intros Hrun. destruct (pfailed (log s)) eqn:Hpf.
  - destruct (pfailed_split _ Hpf) as (l1 & bt & e & l2 & Hl).
    destruct (process_failure_last _ _ _ _ _ _ Hrun Hl) as (Hpf1 & _ & Hp2 & _).
    rewrite Hl, owed_app, processed_app. simpl.
    change (EvProcess bt (Some e) :: l2) with ([EvProcess bt (Some e)] ++ l2).
    rewrite owed_app, (processed_nil_owed _ Hp2), owed_processed by done.
    unfold owed at 1. simpl. rewrite app_nil_r, fmap_app, concat_app. by eexists.
  - by rewrite owed_processed.
Qed.

(** Items reach [Process], and cookies [Commit], in the order of the
    fetches. *)
Lemma run_order sched s :
  run sched Pipe_init = Some s →
  concat (buf <$> sends (log s)) `prefix_of` fetched_items (Next p) ∧
  concat (cookies <$> sends (log s)) `prefix_of` fetched_cookies (Next p) ∧
  concat (buf <$> processed (log s)) `prefix_of` fetched_items (Next p) ∧
  committed (log s) `prefix_of` concat (cookies <$> processed (log s)) ∧
  committed (log s) `prefix_of` fetched_cookies (Next p).
Proof.
  intros Hrun.
  destruct (run_log_facts sched s Hrun) as (_ & Hs & Hp & He & Hc).
  pose proof (batches_items (Next p) [] []) as Hi.
  pose proof (batches_cookies (Next p) [] []) as Hk. simpl in Hi, Hk.
  assert (concat (buf <$> sends (log s)) `prefix_of` fetched_items (Next p)) as H1.
  { etrans; [|done]. by apply prefix_concat, prefix_fmap. }
  assert (concat (cookies <$> sends (log s)) `prefix_of` fetched_cookies (Next p))
    as H2.
  { etrans; [|done]. by apply prefix_concat, prefix_fmap. }
  assert (committed (log s) `prefix_of` concat (cookies <$> processed (log s)))
    as H3.
  { etrans; [done|]. etrans; [done|]. by eapply run_owed. }
  split_and!; [done|done| |done|].
  - etrans; [|done]. by apply prefix_concat, prefix_fmap.
  - etrans; [done|]. etrans; [|done]. by apply prefix_concat, prefix_fmap.
Qed.

(** The switch of [impossible/solution.go] on the kind of the error is
    the cascade from the index of the stage the kind names. *)
Lemma cascade_by_kind_stage e (onces tokens : list bool) :
  cascade_by_kind (Errorf_wv (Sentinel ErrNextFailed) e) onces tokens
  = cascade 0 onces tokens ∧
  cascade_by_kind (Errorf_wv (Sentinel ErrProcessFailed) e) onces tokens
  = cascade 1 onces tokens ∧
  cascade_by_kind (Errorf_wv (Sentinel ErrCommitFailed) e) onces tokens
  = cascade 2 onces tokens.
Proof.
  unfold cascade_by_kind. simpl. split_and!.
  - by destruct (once_do_close 0 onces tokens) as [[]|].
  - destruct (once_do_close 1 onces tokens) as [[o t]|]; simpl; [|done].
    by destruct (once_do_close 0 o t) as [[]|].
  - destruct (once_do_close 2 onces tokens) as [[o t]|]; simpl; [|done].
    destruct (once_do_close 1 o t) as [[o' t']|]; simpl; [|done].
    by destruct (once_do_close 0 o' t') as [[]|].
Qed.

(** C2.  When a [StageError] of a stage with index [i] is at the head of
    the error channel, the coordinator takes it and runs the cascade
    without failing or blocking, up to the point where it forwards the
    error: by then the tokens of the stages with index at most [i] are
    closed, the token of every stage with a greater index is as it was,
    and closing again (the whole cascade once more, or [Do] on a token
    closed already) does nothing; no step of anyone else touches a
    token. *)
Theorem C2_cascade_closes_upstream_tokens memory sched s se q pk :
  Pipe memory sched = Some s → coord s = KRange → queue (errCh s) = se :: q →
  ∃ s',
    run (replicate (S (S (Index se))) (Choose ACoord pk)) s = Some s' ∧
    coord s' = KForward se ∧
    cascade (Index se) (onceList s) (cancelChans s)
      = Some (onceList s', cancelChans s') ∧
    (∀ j, (j <= Index se)%nat → cancelChans s' !! j = Some true) ∧
    (∀ j, (Index se < j)%nat → cancelChans s' !! j = cancelChans s !! j) ∧
    cascade (Index se) (onceList s') (cancelChans s')
      = Some (onceList s', cancelChans s') ∧
    (∀ j, cancelChans s' !! j = Some true →
          once_do_close j (onceList s') (cancelChans s')
          = Some (onceList s', cancelChans s')) ∧
    (∀ ch s1, step ch s = Goes s1 → who ch ≠ ACoord →
              cancelChans s1 = cancelChans s ∧ onceList s1 = onceList s).
Proof.
  intros [_ Hrun]%Pipe_run Hk Hq.
  pose proof (run_inv _ _ Hrun) as [Hsh _ _ _].
  destruct (c_tokens _ Hsh) as (t0 & t1 & t2 & Htk & Hon).
  assert (onceList s = cancelChans s) as Ho by congruence.
  assert (Index se < length (cancelChans s))%nat as Hi.
  { pose proof (c_idx _ Hsh) as Hidx. rewrite Hq in Hidx.
    apply Forall_app in Hidx as [Hidx _]. apply Forall_cons in Hidx as [Hidx _].
    rewrite Htk. exact Hidx. }
  destruct (coord_receives s se q pk Hk Hq Ho Hi) as (tk' & Hc & Hr).
  destruct (cascade_spec _ _ Hi) as (tk & Hc' & Hlen & Hle & Hgt & Hidem).
  assert (tk = tk') as <- by congruence.
  eexists. split; [exact Hr|]. simpl. rewrite Ho.
  split_and!; try done.
  - intros j Hj. unfold once_do_close. by rewrite Hj.
  - intros ch s1 Hs1 Hch.
    destruct (step_tokens _ _ _ Hs1) as [[H1 H2]|(? & ? & ? & _)]; [|done].
    split; congruence.
Qed.

(** C5 (amended).  When no single fetch returns more items than the
    capacity limit, every batch handed to the process stage, and so
    every batch [Process] is called on, holds at most that many items;
    a fetch that would overflow the buffer goes to the next batch. *)
Theorem C5_batches_within_the_limit memory sched s bt :
  Forall (λ r, ∀ items ck, classify v r = Fetched items ck →
                 Z.of_nat (length items) ≤ maxItems) (Next p) →
  Pipe memory sched = Some s →
  bt ∈ sends (log s) ∨ bt ∈ processed (log s) ∨ bt ∈ queue (batchCh s) →
  Z.of_nat (length (buf bt)) ≤ maxItems ∧
  ∀ r sc b cks items ck,
    classify v r = Fetched items ck → overflows b items maxItems = true →
    batches (r :: sc) b cks = Batch b cks :: batches sc items [ck].
Proof.
  intros Hsmall [_ Hrun]%Pipe_run Hbt. split.
  - destruct (run_log_facts sched s Hrun) as (_ & [k1 Hs] & [k2 Hp] & _).
    pose proof (run_inv _ _ Hrun) as [_ _ [_ _ Hb _ _ _ _ _ _] _].
    assert (bt ∈ batches (Next p) [] []) as Hin.
    { rewrite Hs. apply elem_of_app. left.
      destruct Hbt as [?|[?|?]]; [done| |].
      - rewrite Hp. apply elem_of_app. by left.
      - rewrite Hb. rewrite !elem_of_app. by right; right. }
    pose proof (batches_bound (Next p) [] [] Hsmall (or_introl eq_refl)) as Hall.
    rewrite Forall_forall in Hall. by apply Hall.
  - intros. by apply batches_overflow.
Qed.

(** C6.  When [Process] fails on a batch, no batch is processed after
    it; the cookies emitted, at any time, are those of the batches
    processed before it, so that no cookie of the failed batch or of a
    later one is emitted or acknowledged; [Pipe], when it returns,
    returns an error that matches [ErrProcessFailed], and it can always
    go on to its return when [Next] does not go on for ever. *)
Theorem C6_process_failure_stops_the_pipeline memory sched s l1 bt e l2 :
  wrapProcess v = Errorf_wv (Sentinel ErrProcessFailed) →
  Pipe memory sched = Some s →
  log s = l1 ++ EvProcess bt (Some e) :: l2 →
  processed (log s) = processed l1 ++ [bt] ∧
  emits (log s) = concat (cookies <$> processed l1) ∧
  committed (log s) `prefix_of` concat (cookies <$> processed l1) ∧
  (∀ r, result s = Some r →
        ∃ agg, r = Some agg ∧ errors_Is agg ErrProcessFailed = true) ∧
  (terminates (Next p) →
   ∃ sched' s', Pipe memory (sched ++ sched') = Some s' ∧ is_Some (result s')).
Proof.
  intros Hw HPipe Hl. pose proof HPipe as [_ Hrun]%Pipe_run.
  destruct (process_failure_last _ _ _ _ _ _ Hrun Hl) as (Hpf & He1 & Hp2 & He2).
  destruct (run_log_facts sched s Hrun) as (_ & _ & _ & _ & Hc).
  assert (emits (log s) = concat (cookies <$> processed l1)) as Hem.
  { rewrite Hl, cons_middle, !emits_app, He2, He1, owed_processed by done.
    unfold emits. simpl. by rewrite ?app_nil_r. }
  split_and!.
  - rewrite Hl, cons_middle, !processed_app, Hp2.
    unfold processed. simpl. by rewrite ?app_nil_r.
  - done.
  - by rewrite <-Hem.
  - intros r Hres.
    eapply (result_matches sched s r (wrapProcess v e)); [done|done| |].
    + eapply failures_process. rewrite Hl. apply elem_of_app. right. left.
    + by rewrite Hw.
  - intros Ht. by eapply Pipe_can_return.
Qed.

(** C7.  When [Commit] fails on a cookie, no call of [Commit] failed
    before it and none is made after it, whatever the goroutines do
    from then on: the cookies acknowledged before stay in the log, and
    the cookies emitted after it, those buffered in the cookie channel
    among them, are never acknowledged; [Pipe], when it returns,
    returns an error that matches [ErrCommitFailed], and it can always
    go on to its return when [Next] does not go on for ever. *)
Theorem C7_commit_failure_stops_acknowledging memory sched s l1 ck e l2 :
  wrapCommit v = Errorf_wv (Sentinel ErrCommitFailed) →
  Pipe memory sched = Some s →
  log s = l1 ++ EvCommit ck (Some e) :: l2 →
  cfailed l1 = false ∧
  committed (log s) = committed l1 ++ [ck] ∧
  emits (log s) = committed (log s) ++ queue (cookiesCh s) ∧
  (∀ sched' s', run sched' s = Some s' →
     log s `prefix_of` log s' ∧ committed (log s') = committed (log s)) ∧
  (∀ r, result s = Some r →
        ∃ agg, r = Some agg ∧ errors_Is agg ErrCommitFailed = true) ∧
  (terminates (Next p) →
   ∃ sched' s', Pipe memory (sched ++ sched') = Some s' ∧ is_Some (result s')).
Proof.
  intros Hw HPipe Hl. pose proof HPipe as [_ Hrun]%Pipe_run.
  assert (∀ s' k, run sched Pipe_init = Some s' →
            log s' = l1 ++ EvCommit ck (Some e) :: k →
            committed (log s') = committed l1 ++ [ck]) as Hcm.
  { intros s' k Hrun' Hl'.
    destruct (commit_failure_last _ _ _ _ _ _ Hrun' Hl') as (_ & Hc2).
    rewrite Hl', cons_middle, !committed_app, Hc2.
    unfold committed. simpl. by rewrite ?app_nil_r. }
  destruct (commit_failure_last _ _ _ _ _ _ Hrun Hl) as (Hcf & Hc2).
  split_and!.
  - done.
  - by eapply Hcm.
  - apply (commit_failure_buffered sched); [done|].
    rewrite Hl, cfailed_app. simpl. by rewrite orb_true_r.
  - intros sched' s' Hrun'.
    pose proof (run_log_prefix _ _ _ Hrun') as Hpre. split; [done|].
    assert (run (sched ++ sched') Pipe_init = Some s') as Hrun2.
    { by rewrite run_app, Hrun. }
    destruct Hpre as [k Hk].
    assert (∀ s' k, run (sched ++ sched') Pipe_init = Some s' →
              log s' = l1 ++ EvCommit ck (Some e) :: k →
              committed (log s') = committed l1 ++ [ck]) as Hcm'.
    { intros s0 k0 Hrun0 Hl0.
      destruct (commit_failure_last _ _ _ _ _ _ Hrun0 Hl0) as (_ & Hc0).
      rewrite Hl0, cons_middle, !committed_app, Hc0.
      unfold committed. simpl. by rewrite ?app_nil_r. }
    rewrite (Hcm' s' (l2 ++ k) Hrun2), (Hcm s l2 Hrun Hl); [done|].
    rewrite Hk, Hl. by rewrite <-app_assoc.
  - intros r Hres.
    eapply (result_matches sched s r (wrapCommit v e)); [done|done| |].
    + eapply failures_commit. rewrite Hl. apply elem_of_app. right. left.
    + by rewrite Hw.
  - intros Ht. by eapply Pipe_can_return.
Qed.


(** ** The sequential [Pipe] *)

Lemma nexts_app (l1 l2 : trace) : nexts (l1 ++ l2) = nexts l1 ++ nexts l2.
Proof. apply omap_app. Qed.
Lemma failures_app (l1 l2 : trace) :
  failures (l1 ++ l2) = failures l1 ++ failures l2.
Proof. apply omap_app. Qed.
Lemma calls_app (l1 l2 : trace) : calls (l1 ++ l2) = calls l1 ++ calls l2.
Proof. unfold calls, trace. apply filter_app. Qed.

Lemma calls_commits (cks : list Cookie) :
  calls ((λ ck, EvCommit ck None) <$> cks) = (λ ck, EvCommit ck None) <$> cks.
Proof.
  induction cks as [|ck cks IH]; [done|].
  rewrite fmap_cons, calls_cons. simpl. by rewrite IH.
Qed.

(** The commit loop: it stops at the first cookie [Commit] refuses. *)
Lemma commit_all_spec cks tr tr' r :
  commit_all v p cks tr = (tr', r) →
  ∃ ext, tr' = tr ++ ext ∧ nexts ext = [] ∧ processed ext = [] ∧
    match r with
    | None => ext = (λ ck, EvCommit ck None) <$> cks
    | Some err =>
        ∃ done ck e, ext = ((λ ck, EvCommit ck None) <$> done)
                             ++ [EvCommit ck (Some e)] ∧
          done ++ [ck] `prefix_of` cks ∧ err = wrapCommit v e
    end.
Proof.
  revert tr. induction cks as [|ck cks IH]; intros tr H; simpl in H.
  - simplify_eq. exists []. by rewrite app_nil_r.
  - destruct (Commit p tr ck) as [e|] eqn:E.
    + simplify_eq. exists [EvCommit ck (Some e)]. split_and!; [done..|].
      exists [], ck, e. split_and!; [done| |done].
      simpl. by apply prefix_cons, prefix_nil.
    + apply IH in H as (ext & -> & Hn & Hp & Hr).
      exists (EvCommit ck None :: ext).
      split_and!; [by rewrite <-app_assoc|done|done|].
      destruct r as [err|].
      * destruct Hr as (done & ck' & e & -> & Hpre & ->).
        exists (ck :: done), ck', e. split_and!; [done| |done].
        simpl. by apply prefix_cons.
      * by rewrite Hr.
Qed.

(** A delivery: [Process], and the commit loop when it accepts. *)
Lemma deliver_spec b cks tr tr' r :
  deliver v p c b cks tr = (tr', r) →
  ∃ ext, tr' = tr ++ ext ∧ nexts ext = [] ∧
    match r with
    | None => ext = deliveries [Batch b cks]
    | Some err =>
        (∃ e, ext = [EvProcess (Batch b cks) (Some e)] ∧ err = wrapProcess v e) ∨
        (∃ done ck e,
           ext = EvProcess (Batch b cks) None
                   :: ((λ ck, EvCommit ck None) <$> done)
                   ++ [EvCommit ck (Some e)] ∧
           done ++ [ck] `prefix_of` cks ∧ err = wrapCommit v e)
    end.
Proof.
  unfold deliver. intros H. destruct (Process c tr b) as [e|] eqn:E.
  - simplify_eq. exists [EvProcess (Batch b cks) (Some e)].
    split_and!; [done..|]. left. by exists e.
  - apply commit_all_spec in H as (ext & -> & Hn & Hp & Hr).
    exists (EvProcess (Batch b cks) None :: ext).
    split_and!; [by rewrite <-app_assoc|done|].
    destruct r as [err|].
    + destruct Hr as (done & ck & e & -> & Hpre & ->). right.
      by exists done, ck, e.
    + rewrite Hr. unfold deliveries. simpl. by rewrite app_nil_r.
Qed.

Lemma deliveries_cons bt bts :
  deliveries (bt :: bts)
  = EvProcess bt None :: ((λ ck, EvCommit ck None) <$> cookies bt)
      ++ deliveries bts.
Proof. done. Qed.

Lemma calls_deliveries bts : calls (deliveries bts) = deliveries bts.
Proof.
  induction bts as [|bt bts IH]; [done|].
  rewrite deliveries_cons, calls_cons. simpl.
  by rewrite calls_app, calls_commits, IH.
Qed.

Lemma failures_commits (cks : list Cookie) :
  failures ((λ ck, EvCommit ck None) <$> cks) = [].
Proof. unfold failures. by induction cks. Qed.

Lemma failures_deliveries bts : failures (deliveries bts) = [].
Proof.
  induction bts as [|bt bts IH]; [done|].
  rewrite deliveries_cons.
  change (EvProcess bt None :: ?l) with ([EvProcess bt None] ++ l).
  by rewrite !failures_app, failures_commits, IH.
Qed.

Lemma processed_deliveries bts : processed (deliveries bts) = bts.
Proof.
  induction bts as [|bt bts IH]; [done|].
  rewrite deliveries_cons.
  change (EvProcess bt None :: ?l) with ([EvProcess bt None] ++ l).
  rewrite !processed_app, IH.
  assert (processed ((λ ck, EvCommit ck None) <$> cookies bt) = []) as ->; [|done].
  unfold processed. by induction (cookies bt).
Qed.

Lemma committed_deliveries bts :
  committed (deliveries bts) = concat (cookies <$> bts).
Proof.
  induction bts as [|bt bts IH]; [done|].
  rewrite deliveries_cons.
  change (EvProcess bt None :: ?l) with ([EvProcess bt None] ++ l).
  rewrite !committed_app, IH, fmap_cons. simpl. f_equal.
  unfold committed. induction (cookies bt); simpl; [done|by f_equal].
Qed.

Lemma nexts_deliveries bts : nexts (deliveries bts) = [].
Proof.
  induction bts as [|bt bts IH]; [done|].
  rewrite deliveries_cons.
  change (EvProcess bt None :: ?l) with ([EvProcess bt None] ++ l).
  rewrite !nexts_app, IH.
  assert (nexts ((λ ck, EvCommit ck None) <$> cookies bt) = []) as ->; [|done].
  unfold nexts. by induction (cookies bt).
Qed.

Lemma failures_cons_next r (l : trace) :
  failures (EvNext r :: l)
  = match classify v r with
    | Failed e => wrapNext v e :: failures l
    | _ => failures l
    end.
Proof. unfold failures. simpl. by destruct (classify v r). Qed.

Lemma nexts_cons_next r (l : trace) : nexts (EvNext r :: l) = r :: nexts l.
Proof. done. Qed.

(** What the loop of [Pipe] adds to the trace, by the way it ends: the
    script ran out, [Pipe] returned nil, or it returned an error. *)
Lemma Pipe_loop_spec sc b cks tr tr' res :
  Pipe_loop v p c maxItems sc b cks tr = (tr', res) →
  ∃ ext, tr' = tr ++ ext ∧
    match res with
    | None =>
        nexts ext = sc ∧ ¬ terminates sc ∧ failures ext = [] ∧
        calls ext = deliveries (batches sc b cks)
    | Some None =>
        nexts ext = consumed sc ∧ failures ext = [] ∧
        calls ext = deliveries (batches sc b cks)
    | Some (Some err) =>
        ∃ l1 ev, ext = l1 ++ [ev] ∧ failures l1 = [] ∧
                 failure ev = Some err ∧
                 nexts ext `prefix_of` consumed sc ∧
                 calls l1 `prefix_of` deliveries (batches sc b cks)
    end.
Proof.
  revert b cks tr. induction sc as [|r sc IH]; intros b cks tr H; simpl in H.
  - simplify_eq. exists []. rewrite app_nil_r.
    split_and!; try done. unfold terminates. by intros ?%Exists_nil.
  - assert (∀ items ck, classify v r = Fetched items ck →
              ¬ terminates sc → ¬ terminates (r :: sc)) as Hnt.
    { intros items ck Hcl Hsc. unfold terminates.
      rewrite Exists_cons, Hcl. intros [[]|?]. by apply Hsc. }
    destruct (classify v r) as [|e|items ck] eqn:Hcl.
    + (* the end of the stream *)
      case_bool_decide as Hb.
      * destruct (deliver v p c b cks (tr ++ [EvNext r])) as [tr1 r1] eqn:Hd.
        simplify_eq. apply deliver_spec in Hd as (ext & -> & Hn & Hr).
        exists (EvNext r :: ext). split; [by rewrite <-app_assoc|].
        cbn [batches consumed]. rewrite Hcl, bool_decide_eq_true_2 by done.
        destruct r1 as [err|].
        -- destruct Hr as [(e & -> & ->)|(done & ck & e & -> & Hpre & ->)].
           ++ exists [EvNext r], (EvProcess (Batch b cks) (Some e)).
              split_and!; [done| |done|done|apply prefix_nil].
              by rewrite failures_cons_next, Hcl.
           ++ exists (EvNext r :: EvProcess (Batch b cks) None
                        :: ((λ ck, EvCommit ck None) <$> done)),
                (EvCommit ck (Some e)).
              split_and!; [done| |done| |].
              ** rewrite failures_cons_next, Hcl.
                 change (EvProcess ?x None :: ?l) with ([EvProcess x None] ++ l).
                 by rewrite failures_app, failures_commits.
              ** rewrite nexts_cons_next, Hn. done.
              ** rewrite !calls_cons. simpl. rewrite calls_commits.
                 unfold deliveries. simpl. rewrite app_nil_r.
                 apply prefix_cons, prefix_fmap.
                 etrans; [|done]. by apply prefix_app_r.
        -- subst ext. split_and!.
           ++ by rewrite nexts_cons_next, nexts_deliveries.
           ++ by rewrite failures_cons_next, Hcl, failures_deliveries.
           ++ by rewrite calls_cons, calls_deliveries.
      * simplify_eq. exists [EvNext r]. split; [done|]. simpl.
        rewrite Hcl, bool_decide_eq_false_2 by done.
        by split_and!.
    + (* [Next] failed *)
      simplify_eq. exists [EvNext r]. split; [done|].
      exists [], (EvNext r). cbn [batches consumed]. rewrite Hcl.
      split_and!; [done|done| |by simpl|apply prefix_nil].
      unfold failure. by rewrite Hcl.
    + (* a fetch *)
      destruct (overflows b items maxItems) eqn:Ho.
      * destruct (deliver v p c b cks (tr ++ [EvNext r])) as [tr1 [err|]] eqn:Hd.
        -- simplify_eq. apply deliver_spec in Hd as (ext & -> & Hn & Hr).
           exists (EvNext r :: ext). split; [by rewrite <-app_assoc|].
           cbn [batches consumed]. rewrite Hcl, Ho.
           destruct Hr as [(e & -> & ->)|(done & ck' & e & -> & Hpre & ->)].
           ++ exists [EvNext r], (EvProcess (Batch b cks) (Some e)).
              split_and!; [done| |done| |apply prefix_nil].
              ** by rewrite failures_cons_next, Hcl.
              ** simpl. by apply prefix_cons, prefix_nil.
           ++ exists (EvNext r :: EvProcess (Batch b cks) None
                        :: ((λ ck, EvCommit ck None) <$> done)),
                (EvCommit ck' (Some e)).
              split_and!; [done| |done| |].
              ** rewrite failures_cons_next, Hcl.
                 change (EvProcess ?x None :: ?l) with ([EvProcess x None] ++ l).
                 by rewrite failures_app, failures_commits.
              ** rewrite nexts_cons_next, Hn.
                 by apply prefix_cons, prefix_nil.
              ** rewrite !calls_cons. cbn [is_call].
                 rewrite calls_commits, deliveries_cons.
                 apply prefix_cons. etrans; [|by apply prefix_app_r].
                 apply prefix_fmap. etrans; [|done]. by apply prefix_app_r.
        -- apply deliver_spec in Hd as (ext & -> & Hn & ->).
           apply IH in H as (ext' & -> & Hres).
           exists (EvNext r :: deliveries [Batch b cks] ++ ext').
           split; [by rewrite <-!app_assoc|].
           cbn [batches consumed]. rewrite Hcl, Ho.
           assert (∀ l, nexts (EvNext r :: deliveries [Batch b cks] ++ l)
                        = r :: nexts l) as Hnx.
           { intros l.
             by rewrite nexts_cons_next, nexts_app, nexts_deliveries. }
           assert (∀ l, failures (EvNext r :: deliveries [Batch b cks] ++ l)
                        = failures l) as Hfl.
           { intros l.
             by rewrite failures_cons_next, Hcl, failures_app, failures_deliveries. }
           assert (∀ l, calls (EvNext r :: deliveries [Batch b cks] ++ l)
                        = EvProcess (Batch b cks) None
                            :: ((λ ck, EvCommit ck None) <$> cks) ++ calls l)
             as Hca.
           { intros l. rewrite calls_cons, calls_app, calls_deliveries.
             unfold deliveries. simpl. by rewrite app_nil_r. }
           destruct res as [[err|]|].
           ++ destruct Hres as (l1 & ev & -> & Hf & Hev & Hnp & Hcp).
              exists (EvNext r :: deliveries [Batch b cks] ++ l1), ev.
              split_and!;
                [by rewrite <-app_comm_cons, <-app_assoc|by rewrite Hfl|done| |].
              ** rewrite Hnx. by apply prefix_cons.
              ** rewrite Hca, deliveries_cons. simpl.
                 by apply prefix_cons, prefix_app.
           ++ destruct Hres as (Hn' & Hf & Hc).
              rewrite Hnx, Hfl, Hca, Hn', Hc. by rewrite deliveries_cons.
           ++ destruct Hres as (Hn' & Hcs & Hf & Hc).
              rewrite Hnx, Hfl, Hca, Hn', Hc.
              split_and!; [done|by eapply Hnt|done|by rewrite deliveries_cons].
      * apply IH in H as (ext' & -> & Hres).
        exists (EvNext r :: ext'). split; [by rewrite <-app_assoc|].
        cbn [batches consumed]. rewrite Hcl, Ho.
        destruct res as [[err|]|].
        -- destruct Hres as (l1 & ev & -> & Hf & Hev & Hnp & Hcp).
           exists (EvNext r :: l1), ev.
           split_and!; [done| |done| |].
           ++ by rewrite failures_cons_next, Hcl.
           ++ rewrite nexts_cons_next. by apply prefix_cons.
           ++ by rewrite calls_cons.
        -- destruct Hres as (Hn' & Hf & Hc).
           rewrite failures_cons_next, Hcl, calls_cons, nexts_cons_next.
           cbn [is_call]. split_and!; [by f_equal|done|done].
        -- destruct Hres as (Hn' & Hcs & Hf & Hc).
           rewrite failures_cons_next, Hcl, calls_cons, nexts_cons_next.
           cbn [is_call]. split_and!; [by f_equal|by eapply Hnt|done|done].
Qed.
Lemma processed_calls (l : trace) : processed (calls l) = processed l.
Proof.
  induction l as [|e l IH]; [done|]. rewrite calls_cons.
  destruct e; simpl; try done; unfold processed in *; simpl; by f_equal.
Qed.

Lemma committed_calls (l : trace) : committed (calls l) = committed l.
Proof.
  induction l as [|e l IH]; [done|]. rewrite calls_cons.
  destruct e; simpl; try done; unfold committed in *; simpl; by f_equal.
Qed.

Lemma commit_all_ok cks tr :
  (∀ tr ck, Commit p tr ck = None) → ∃ tr', commit_all v p cks tr = (tr', None).
Proof.
  intros Hc. revert tr. induction cks as [|ck cks IH]; intros tr; simpl.
  - by eexists.
  - rewrite Hc. apply IH.
Qed.

Lemma deliver_ok b cks tr :
  (∀ tr x, Process c tr x = None) → (∀ tr ck, Commit p tr ck = None) →
  ∃ tr', deliver v p c b cks tr = (tr', None).
Proof. intros Hp Hc. unfold deliver. rewrite Hp. by apply commit_all_ok. Qed.

Lemma Pipe_loop_ok sc pre fs eof tl b cks tr :
  (∀ tr x, Process c tr x = None) → (∀ tr ck, Commit p tr ck = None) →
  fetches_then_eof sc pre fs eof tl →
  ∃ tr', Pipe_loop v p c maxItems sc b cks tr = (tr', Some None).
Proof.
  intros Hp Hc (-> & Hfs & Heof). revert b cks tr.
  induction Hfs as [|r f pre fs Hr Hfs IH]; intros b cks tr; simpl.
  - rewrite Heof. case_bool_decide; [|by eexists].
    destruct (deliver_ok b cks (tr ++ [EvNext eof]) Hp Hc) as [tr' ->].
    by eexists.
  - rewrite Hr. destruct (overflows b f.1 maxItems).
    + destruct (deliver_ok b cks (tr ++ [EvNext r]) Hp Hc) as [tr' ->].
      apply IH.
    + apply IH.
Qed.

Lemma Pipe_seq_nil {memory} tr :
  Pipe_seq v p c maxItems memory = Some (tr, Some None) →
  nexts tr = consumed (Next p) ∧ failures tr = [] ∧
  calls tr = deliveries (batches (Next p) [] []) ∧
  processed tr = batches (Next p) [] [] ∧
  committed tr = concat (cookies <$> batches (Next p) [] []).
Proof.
  unfold Pipe_seq. destruct (make_fails memory maxItems); [done|]. intros Hseq.
  injection Hseq as Hseq. apply Pipe_loop_spec in Hseq as (ext & -> & Hn & Hf & Hc). simpl.
  split_and!; [done|done|done| |].
  - by rewrite <-processed_calls, Hc, processed_deliveries.
  - by rewrite <-committed_calls, Hc, committed_deliveries.
Qed.

(** ** Further properties of the sequential [Pipe] *)

(** When the sequential [Pipe] returns nil, it consumed the answers of
    [Next] up to the end of the stream, no call failed, and its calls
    on [Process] and [Commit] are, in this order, the deliveries of the
    batches of the batching policy: each batch is processed once, and
    its cookies are committed, in fetch order, right after it. *)
Theorem Pipe_seq_delivers_the_batches memory tr :
  Pipe_seq v p c maxItems memory = Some (tr, Some None) →
  nexts tr = consumed (Next p) ∧ failures tr = [] ∧
  calls tr = deliveries (batches (Next p) [] []) ∧
  processed tr = batches (Next p) [] [] ∧
  committed tr = concat (cookies <$> batches (Next p) [] []).
Proof. apply Pipe_seq_nil. Qed.

(** When the sequential [Pipe] returns an error, the error is that of
    the last call it made, wrapped for its kind; no call before it
    failed, and the calls on [Process] and [Commit] before it are the
    beginning of the deliveries of the batches. *)
Theorem Pipe_seq_stops_at_the_first_failure memory tr err :
  Pipe_seq v p c maxItems memory = Some (tr, Some (Some err)) →
  ∃ l1 ev, tr = l1 ++ [ev] ∧ failures l1 = [] ∧ failure ev = Some err ∧
    nexts tr `prefix_of` consumed (Next p) ∧
    calls l1 `prefix_of` deliveries (batches (Next p) [] []).
Proof.
  unfold Pipe_seq. destruct (make_fails memory maxItems); [done|]. intros Hseq.
  injection Hseq as Hseq. apply Pipe_loop_spec in Hseq as (ext & -> & l1 & ev & -> & ?). simpl.
  by exists l1, ev.
Qed.

(** The sequential [Pipe] returns when [make] serves its buffer and
    [Next] does not go on for ever, and it returns nil exactly when no
    call failed. *)
Theorem Pipe_seq_returns memory :
  make_fails memory maxItems = false → terminates (Next p) →
  ∃ tr r, Pipe_seq v p c maxItems memory = Some (tr, Some r) ∧
          (r = None ↔ failures tr = []).
Proof.
  intros Hm Ht. unfold Pipe_seq. rewrite Hm.
  destruct (Pipe_loop v p c maxItems (Next p) [] [] []) as [tr res] eqn:H.
  apply Pipe_loop_spec in H as (ext & -> & Hres). simpl in *.
  destruct res as [[err|]|].
  - destruct Hres as (l1 & ev & -> & Hf & Hev & _).
    exists (l1 ++ [ev]), (Some err). split; [done|]. split; [done|].
    rewrite failures_app. unfold failures at 2. simpl. rewrite Hev.
    intros Hnil. by apply app_eq_nil in Hnil as [_ ?].
  - destruct Hres as (_ & Hf & _). by exists ext, None.
  - by destruct Hres as (_ & Hnt & _).
Qed.

(** [Pipe] and the sequential [Pipe] agree when nothing fails: a run
    of the pipeline that returned has returned nil, as the sequential
    [Pipe] does, after the same calls on [Process] (the same batches in
    the same order) and the same calls on [Commit]. *)
Theorem Pipe_agrees_with_Pipe_seq memory pre fs eof tl sched s r :
  fetches_then_eof (Next p) pre fs eof tl →
  (∀ tr x, Process c tr x = None) → (∀ tr ck, Commit p tr ck = None) →
  Pipe memory sched = Some s → result s = Some r →
  ∃ tr, Pipe_seq v p c maxItems memory = Some (tr, Some r) ∧
    processed (log s) = processed tr ∧ committed (log s) = committed tr ∧
    nexts tr = pre ++ [eof].
Proof.
  intros Hsc Hp Hc HPipe Hres. pose proof (Pipe_make _ _ HPipe) as Hmk.
  apply Pipe_run in HPipe as [Hm Hrun].
  destruct (run_happy sched s Hp Hc (fetches_no_failure _ _ _ _ _ Hsc) Hrun)
    as [_ Hh].
  destruct (Hh r Hres) as (-> & _ & Hpr & Hcm).
  destruct (Pipe_loop_ok (Next p) pre fs eof tl [] [] [] Hp Hc Hsc) as [tr Htr].
  assert (Pipe_seq v p c maxItems memory = Some (tr, Some None)) as Hseq.
  { unfold Pipe_seq. by rewrite Hmk, Htr. }
  destruct (Pipe_seq_nil tr Hseq) as (Hn & _ & _ & Hp' & Hc').
  exists tr. split_and!; [done|congruence|congruence|].
  rewrite Hn. by eapply consumed_fetches.
Qed.
(** ** Further properties of the pipeline *)

Lemma run_total sched s : reachable s → is_Some (run sched s).
Proof.
  revert s. induction sched as [|ch sched IH]; intros s Hs; simpl; [done|].
  destruct (step ch s) as [| |s'] eqn:E.
  - by apply IH.
  - by destruct (reachable_no_panic s ch Hs).
  - apply IH. by eapply reachable_step.
Qed.

(** Whatever the schedule, the goroutines of [Run] never panic: none
    closes a closed channel, sends on a closed channel or closes a
    token twice.  [Pipe] stops short of its return only where [make]
    fails in [runNext]. *)
Theorem Pipe_panics_only_in_make memory sched :
  is_Some (run sched Pipe_init) ∧
  (Pipe memory sched = None → make_fails memory maxItems = true).
Proof.
  split; [apply run_total, rtc_refl|].
  unfold Pipe. destruct (make_fails memory maxItems); [done|].
  intros Hnone. destruct (run_total sched Pipe_init) as [s Hs]; [apply rtc_refl|].
  congruence.
Qed.

(** When [Pipe] returns, no goroutine is left: the three stages and the
    coordinator have exited, the wait group is at zero, every channel
    is closed, and the two error channels are empty. *)
Theorem Pipe_leaves_no_goroutine memory sched s r :
  Pipe memory sched = Some s → result s = Some r →
  fetch s = FTail Exited ∧ proc s = PTail Exited ∧ comm s = CTail Exited ∧
  coord s = KExited ∧ wg s = O ∧
  closed (batchCh s) = true ∧ closed (cookiesCh s) = true ∧
  closed (errCh s) = true ∧ closed (doneErrCh s) = true ∧
  queue (errCh s) = [] ∧ queue (doneErrCh s) = [].
Proof.
  intros [_ Hrun]%Pipe_run Hres.
  pose proof (run_inv _ _ Hrun) as Hinv.
  destruct (returned_inv s r Hinv Hres) as (Hf & Hp & Hc & _).
  destruct Hinv as [Hsh _ _ _].
  unfold result in Hres. destruct (main s) as [| | |r'] eqn:Hm; try done.
  pose proof (c_returned _ Hsh) as Hret. rewrite Hm in Hret.
  destruct Hret as [Hk Hq].
  pose proof (c_coord_done _ Hsh) as Hcd. rewrite Hk in Hcd.
  destruct Hcd as [Hq' Hcl].
  pose proof (c_main_wait _ Hsh) as Hwg. rewrite Hm in Hwg.
  pose proof (c_batch_closed _ Hsh) as Hb. rewrite Hf in Hb.
  pose proof (c_cookies_closed _ Hsh) as Hck. rewrite Hp in Hck.
  pose proof (c_done_closed _ Hsh) as Hd. rewrite Hk in Hd.
  by split_and!.
Qed.

Lemma moves_measure sched s : (moves sched s <= measure s)%nat.
Proof.
  revert s. induction sched as [|ch sched IH]; intros s; simpl; [lia|].
  destruct (step ch s) as [| |s'] eqn:E; [done|lia|].
  pose proof (measure_step _ _ _ E). pose proof (IH s'). lia.
Qed.

(** [Pipe] cannot run for ever: whatever the schedule, the goroutines
    make at most [8 n + 26] moves in all, for a producer whose [Next]
    answers [n] times. *)
Theorem Pipe_moves_are_bounded sched :
  (moves sched Pipe_init <= 8 * length (Next p) + 26)%nat.
Proof.
  etrans; [apply moves_measure|]. unfold measure. simpl. lia.
Qed.

(** No deadlock: as long as [Pipe] has not returned, some goroutine can
    move, when [Next] does not go on for ever. *)
Theorem Pipe_never_deadlocks memory sched s :
  terminates (Next p) → Pipe memory sched = Some s → result s = None →
  ∃ ch s', step ch s = Goes s'.
Proof.
  intros Ht [_ Hrun]%Pipe_run Hres.
  apply progress; [by eapply run_inv| |done].
  eapply reachable_can_end; [done|]. by eapply run_init_reachable.
Qed.

(** The channels lose nothing and keep the order: the batches sent are
    those processed, the one being processed and those waiting in the
    batch channel, at most one; the cookies emitted are those
    committed, the one being committed and those waiting in the cookie
    channel, at most 256. *)
Theorem channels_keep_order memory sched s :
  Pipe memory sched = Some s →
  sends (log s) = processed (log s) ++ proc_hand (proc s) ++ queue (batchCh s) ∧
  emits (log s) = committed (log s) ++ comm_hand (comm s) ++ queue (cookiesCh s) ∧
  (length (queue (batchCh s)) <= 1)%nat ∧
  (length (queue (cookiesCh s)) <= 256)%nat.
Proof.
  intros [_ Hrun]%Pipe_run.
  pose proof (run_inv _ _ Hrun) as [Hsh _ [_ _ Hb _ Hc _ _ _ _] _].
  split_and!; [done|done|apply (c_batch_cap _ Hsh)|apply (c_cookies_cap _ Hsh)].
Qed.

(** A stage that has an error to report is never kept waiting, and
    neither is the coordinator forwarding one: the error channels, of
    the capacity of the number of stages, are never full then, nor
    closed. *)
Theorem error_reports_never_block memory sched s pk :
  Pipe memory sched = Some s →
  (∀ e, fetch s = FTail (Report e) → ∃ s', step (Choose AFetch pk) s = Goes s') ∧
  (∀ e, proc s = PTail (Report e) → ∃ s', step (Choose AProcess pk) s = Goes s') ∧
  (∀ e, comm s = CTail (Report e) → ∃ s', step (Choose ACommit pk) s = Goes s') ∧
  (∀ se, coord s = KForward se → ∃ s', step (Choose ACoord pk) s = Goes s').
Proof.
  intros [_ Hrun]%Pipe_run.
  pose proof (run_inv _ _ Hrun) as [Hsh _ _ _].
  pose proof (c_cap _ Hsh) as Hcap. pose proof (c_wg _ Hsh) as Hwg.
  pose proof (c_main_wait _ Hsh) as Hmw.
  pose proof (c_errCh_closed _ Hsh) as Hec.
  pose proof (c_done_closed _ Hsh) as Hdc.
  assert ((0 < wg s)%nat → closed (errCh s) = false) as Hopen.
  { intros Hpos. rewrite Hec. destruct (main s); try done; lia. }
  unfold step, step_fetch, step_process, step_commit, step_coord, step_tail,
    op_bind, chan_send, stages in *. simpl.
  split_and!.
  - intros e He. rewrite He in *. simpl in *.
    rewrite Hopen by lia. rewrite bool_decide_eq_true_2 by lia. by eexists.
  - intros e He. rewrite He in *. simpl in *.
    rewrite Hopen by lia. rewrite bool_decide_eq_true_2 by lia. by eexists.
  - intros e He. rewrite He in *. simpl in *.
    rewrite Hopen by lia. rewrite bool_decide_eq_true_2 by lia. by eexists.
  - intros se Hk. rewrite Hk in *. simpl in *.
    rewrite Hdc. rewrite bool_decide_eq_true_2 by lia. by eexists.
Qed.

(** No stage is cancelled as long as no call has failed. *)
Theorem no_cancellation_without_failure memory sched s i :
  Pipe memory sched = Some s → failures (log s) = [] → cancelled i s = false.
Proof.
  intros [_ Hrun]%Pipe_run Hf.
  pose proof (run_inv _ _ Hrun) as [_ _ _ [_ Htok]].
  unfold cancelled. destruct (cancelChans s !! i) as [[]|] eqn:E; try done.
  by destruct (Htok i E).
Qed.
Lemma blamed_snoc (l : trace) e idx :
  blamed l idx = true → blamed (l ++ [e]) idx = true.
Proof.
  destruct idx as [|[|]]; simpl; [done| |].
  - rewrite pfailed_snoc. by intros ->.
  - rewrite cfailed_snoc. by intros ->.
Qed.

Lemma blame_init : blame_inv Pipe_init.
Proof. split; simpl; try done. Qed.

Lemma blame_step s s' ch :
  step ch s = Goes s' → shape_inv s → blame_inv s → blame_inv s'.
Proof.
  intros H. step_inv H.
  all: intros [Htok _ _ _ _ _ _ _ _ _ _ _ Hidx Hcas _] [Hfl Hp Hc Ht1 Ht2].
  all: simpl in *.
  all: destruct Htok as (t0 & t1 & t2 & -> & ->).
  all: simplify_eq/=; and_true.
  all: try match goal with H : once_do_close _ _ _ = Some _ |- _ =>
      apply once_do_close_same in H as (? & -> & ->) end.
  all: split; simpl; rewrite ?pfailed_snoc, ?cfailed_snoc; simpl;
    rewrite ?orb_false_r, ?orb_true_r; try done.
  all: try (eapply Forall_impl; [exact Hfl|]; intros; by apply blamed_snoc).
  all: rewrite ?Forall_app, ?Forall_cons, ?Forall_singleton, ?Forall_nil in *;
    simpl in *.
  all: try (by intuition).
  all: try (split_and!; try tauto; first [apply Hp | apply Hc]; done).
  all: rewrite ?app_nil_r in *; try tauto.
  all: destruct Hfl as (? & Hse & _), Hidx as (? & Hlt & _); unfold stages in *.
  all: destruct n as [|[|]]; simpl; intros Hx; try (by auto).
  all: destruct (Index se) as [|[|[|]]]; simpl in *; try lia.
  all: rewrite ?Hse, ?orb_true_r; done.
Qed.

Lemma run_blame sched s : run sched Pipe_init = Some s → blame_inv s.
Proof.
  intros Hrun. pose proof (run_init_reachable _ _ Hrun) as Hs. clear Hrun.
  revert s Hs. apply rtc_ind_r; [apply blame_init|].
  intros s1 s2 Hs1 [ch Hch] IH.
  eapply blame_step; [done| |done]. by apply reachable_inv.
Qed.

Lemma run_drains sched s :
  (∀ tr x, Process c tr x = None) → (∀ tr ck, Commit p tr ck = None) →
  run sched Pipe_init = Some s →
  cancelled 1 s = false ∧ cancelled 2 s = false ∧
  ∀ r, result s = Some r →
    processed (log s) = sends (log s) ∧
    committed (log s) = concat (cookies <$> sends (log s)).
Proof.
  intros HP HC Hrun.
  destruct (run_no_call_fails sched s HP HC Hrun) as [Hpf Hcf].
  pose proof (run_blame _ _ Hrun) as [_ _ _ Ht1 Ht2].
  assert (cancelled 1 s = false) as Hc1.
  { unfold cancelled. destruct (cancelChans s !! 1%nat) as [[]|]; try done.
    specialize (Ht1 eq_refl). by rewrite Hpf, Hcf in Ht1. }
  assert (cancelled 2 s = false) as Hc2.
  { unfold cancelled. destruct (cancelChans s !! 2%nat) as [[]|]; try done.
    specialize (Ht2 eq_refl). by rewrite Hcf in Ht2. }
  split_and!; [done|done|]. intros r Hres.
  pose proof (run_inv _ _ Hrun) as Hinv.
  destruct (returned_inv s r Hinv Hres) as (Hf & Hp & Hc & _).
  destruct Hinv as [_ _ [_ _ Hb He Hck _ _ Hpd Hcd] _].
  rewrite Hp in Hb, He, Hpd. rewrite Hc in Hck, Hcd. simpl in *.
  destruct (Hpd Hc1 Hpf) as [Hq _]. destruct (Hcd Hc2 Hcf) as [Hq' _].
  destruct He as (_ & He & _). specialize (He Hc1).
  rewrite Hq, app_nil_r in Hb. rewrite Hq', app_nil_r in Hck.
  split; [done|]. by rewrite <-Hck, He, owed_processed, Hb.
Qed.

(** The downstream stages drain: when no call of [Process] and no call
    of [Commit] fails, [runProcess] and [runCommit] are never
    cancelled, whatever [Next] does, and when [Pipe] returns every
    batch that was sent has been processed and every cookie of these
    batches has been committed. *)
Theorem downstream_stages_drain memory sched s :
  (∀ tr x, Process c tr x = None) → (∀ tr ck, Commit p tr ck = None) →
  Pipe memory sched = Some s →
  cancelled 1 s = false ∧ cancelled 2 s = false ∧
  ∀ r, result s = Some r →
    processed (log s) = sends (log s) ∧
    committed (log s) = concat (cookies <$> sends (log s)).
Proof. intros HP HC [_ Hrun]%Pipe_run. by apply (run_drains sched). Qed.
(** ** What becomes of the items and of the cookies *)

(** On a stream that ends, the batches hold every item that was
    fetched, once and in fetch order. *)
Lemma batches_all_items sc pre fs eof tl b cks :
  fetches_then_eof sc pre fs eof tl →
  concat (buf <$> batches sc b cks) = b ++ concat fs.*1.
Proof.
  intros (-> & Hfs & Heof). revert b cks.
  induction Hfs as [|r f pre fs Hr Hfs IH]; intros b cks; simpl.
  - rewrite Heof, app_nil_r. case_bool_decide as Hb; simpl.
    + by rewrite app_nil_r.
    + destruct b; [done|]. simpl in Hb. lia.
  - rewrite Hr. destruct (overflows b f.1 maxItems); simpl.
    + by rewrite IH.
    + by rewrite IH, <-app_assoc.
Qed.

(** They hold every cookie as well when the buffer is not empty at the
    end of the stream, as it is when the last fetch had an item. *)
Lemma batches_all_cookies sc pre fs eof tl b cks :
  fetches_then_eof sc pre fs eof tl →
  match last fs with Some f => f.1 ≠ [] | None => b ≠ [] end →
  concat (cookies <$> batches sc b cks) = cks ++ fs.*2.
Proof.
  intros (-> & Hfs & Heof). revert b cks.
  induction Hfs as [|r f pre fs Hr Hfs IH]; intros b cks Hlast; simpl.
  - rewrite Heof, app_nil_r. simpl in Hlast.
    rewrite bool_decide_eq_true_2; [simpl; by rewrite app_nil_r|].
    destruct b; [done|simpl; lia].
  - rewrite Hr.
    assert (∀ b' : list Item, (fs = [] → b' ≠ []) →
              match last fs with Some f => f.1 ≠ [] | None => b' ≠ [] end)
      as Hnext.
    { intros b' Hb'. destruct fs as [|f' fs']; [by apply Hb'|].
      rewrite last_cons in Hlast.
      destruct (last (f' :: fs')) eqn:El; [done|by apply last_None in El]. }
    assert (fs = [] → f.1 ≠ []) as Hf.
    { intros ->. done. }
    destruct (overflows b f.1 maxItems); simpl.
    + rewrite IH; [done|]. by apply Hnext.
    + rewrite IH; [by rewrite <-app_assoc|]. apply Hnext.
      intros Hnil [_ ?]%app_eq_nil. by apply Hf.
Qed.

Lemma fetched_cookies_fetches sc pre fs eof tl :
  fetches_then_eof sc pre fs eof tl → fetched_cookies sc = fs.*2.
Proof.
  intros (-> & Hfs & Heof).
  induction Hfs as [|r f pre fs Hr Hfs IH]; simpl.
  - by rewrite Heof.
  - rewrite Hr. by f_equal.
Qed.

(** On a stream that ends and with collaborators that do not fail,
    when [Pipe] returns every item that was fetched has been passed to
    [Process] once, in fetch order; the cookies committed are the first
    of the cookies fetched, and all of them when the last fetch had an
    item. *)
Theorem every_item_is_processed_once memory pre fs eof tl sched s r :
  fetches_then_eof (Next p) pre fs eof tl →
  (∀ tr x, Process c tr x = None) → (∀ tr ck, Commit p tr ck = None) →
  Pipe memory sched = Some s → result s = Some r →
  concat (buf <$> processed (log s)) = concat fs.*1 ∧
  committed (log s) `prefix_of` fs.*2 ∧
  (match last fs with Some f => f.1 ≠ [] | None => False end →
   committed (log s) = fs.*2).
Proof.
  intros Hsc HP HC [_ Hrun]%Pipe_run Hres.
  destruct (run_happy sched s HP HC (fetches_no_failure _ _ _ _ _ Hsc) Hrun)
    as [_ Hh].
  destruct (Hh r Hres) as (_ & _ & Hpr & Hcm).
  split_and!.
  - rewrite Hpr. by rewrite (batches_all_items _ _ _ _ _ [] [] Hsc).
  - destruct (run_order sched s Hrun) as (_ & _ & _ & _ & Hf).
    by rewrite (fetched_cookies_fetches _ _ _ _ _ Hsc) in Hf.
  - intros Hlast. rewrite Hcm.
    rewrite (batches_all_cookies _ _ _ _ _ [] [] Hsc); [done|].
    by destruct (last fs).
Qed.

(** ** The buffer of [runNext] *)

Lemma got_items_snoc (l : trace) e :
  got_items (l ++ [e]) = got_items l ++ got_items [e].
Proof. unfold got_items. by rewrite omap_app, concat_app. Qed.
Lemma got_cookies_snoc (l : trace) e :
  got_cookies (l ++ [e]) = got_cookies l ++ got_cookies [e].
Proof. apply omap_app. Qed.
Lemma got_items_next r :
  got_items [EvNext r]
  = match classify v r with Fetched items _ => items | _ => [] end.
Proof. unfold got_items. simpl. destruct (classify v r); simpl; by rewrite ?app_nil_r. Qed.

Lemma buffer_init : buffer_inv Pipe_init.
Proof. split; simpl; try done. Qed.

Lemma buffer_step s s' ch :
  step ch s = Goes s' → inv s → buffer_inv s → buffer_inv s'.
Proof.
  intros H. step_inv H.
  all: intros [_ _ [_ Hdf _ _ _ _ _ _ _] [_ Htk]] [Hi Hc Hcl Hd].
  all: simpl in *; simplify_eq/=; and_true.
  all: split; simpl; log_norm; use_eqs;
    rewrite ?got_items_snoc, ?got_cookies_snoc, ?got_items_next, ?fmap_app, ?concat_app; simpl;
    use_eqs; rewrite ?app_nil_r; try done.
  all: try (rewrite <-?Hi, <-?Hc, <-?(assoc_L (++)); simpl; by rewrite <-?(assoc_L (++))).
  all: try (rewrite <-?Hi, <-?Hc; by apply prefix_app_r).
  all: try (rewrite <-?Hi, <-?Hc, <-?(assoc_L (++)); by apply prefix_app_r).
  all: try (etrans; [done|]; by apply prefix_app_r).
  all: try (rewrite Forall_app, Forall_singleton; split; [done|]; intros ?; by use_eqs).
  all: try (by destruct (buffered _)).
  all: intros Hpf Hcf.
  all: try (exfalso;
            match goal with
            | H : default false (?t !! 0%nat) = true |- _ =>
                destruct (t !! 0%nat) as [[]|] eqn:E; try done;
                eapply (Htk 0%nat); [done|by apply failures_nil]
            end).
  all: try (specialize (Hd Hpf Hcf); done).
  all: try (by rewrite <-Hdf, ?app_nil_r).
  all: rewrite bool_decide_eq_false_2 in Hdf by done.
  all: by rewrite <-Hdf, ?app_nil_r.
Qed.

Lemma run_buffer sched s : run sched Pipe_init = Some s → buffer_inv s.
Proof.
  intros Hrun. pose proof (run_init_reachable _ _ Hrun) as Hs. clear Hrun.
  revert s Hs. apply rtc_ind_r; [apply buffer_init|].
  intros s1 s2 Hs1 [ch Hch] IH.
  eapply buffer_step; [done| |done]. by apply reachable_inv.
Qed.

(** Once the loop of [runNext] is over, nothing more is sent. *)
Lemma step_fetch_over s s' ch :
  step ch s = Goes s' → buffered (fetch s) = None →
  buffered (fetch s') = None ∧ sends (log s') = sends (log s).
Proof.
  intros H. step_inv H; simpl; intros Hb; simplify_eq; log_norm; done.
Qed.

Lemma run_fetch_over sched s s' :
  run sched s = Some s' → buffered (fetch s) = None →
  buffered (fetch s') = None ∧ sends (log s') = sends (log s).
Proof.
  revert s. induction sched as [|ch sched IH]; intros s H Hb; simpl in H.
  - by simplify_eq.
  - destruct (step ch s) as [| |s1] eqn:E; [by apply IH|done|].
    destruct (step_fetch_over _ _ _ E Hb) as [Hb1 Hs1].
    destruct (IH _ H Hb1) as [? ?]. split; [done|congruence].
Qed.

(** A sealed buffer that waits to be sent: as long as it waits nothing
    is sent; the loop of [runNext] goes on, with a buffer again, only
    once it was sent. *)
Lemma run_sealed sched s s' bt items ck :
  run sched s = Some s' → fetch s = FWrite bt items ck →
  (fetch s' = FWrite bt items ck ∧ sends (log s') = sends (log s)) ∨
  (buffered (fetch s') = None ∧ sends (log s') = sends (log s)) ∨
  (∃ more, sends (log s') = sends (log s) ++ bt :: more).
Proof.
  revert s. induction sched as [|ch sched IH]; intros s H Hf; simpl in H.
  - simplify_eq. by left.
  - destruct (step ch s) as [| |s1] eqn:E; [by apply IH|done|].
    destruct (fetch_sends _ _ _ _ _ _ Hf E)
      as [[Hf1 Hs1]|[(Hf1 & _ & Hl1)|(Hf1 & Hl1 & _)]].
    + destruct (IH _ H Hf1) as [[? ?]|[[? ?]|[more ?]]].
      * left. split; [done|congruence].
      * right; left. split; [done|congruence].
      * right; right. exists more. congruence.
    + right; left.
      destruct (run_fetch_over _ _ _ H) as [? ?]; [by rewrite Hf1|].
      split; [done|]. by rewrite <-Hl1.
    + right; right. destruct (run_log_prefix _ _ _ H) as [k Hk].
      exists (sends k). rewrite Hk, Hl1, !sends_app, <-app_assoc. done.
Qed.

(** A full buffer takes no more item: the batch it is sent in holds its
    items and no other. *)
Lemma batches_full sc b cks bt more :
  Z.of_nat (length b) = maxItems →
  batches sc b cks = bt :: more → buf bt = b.
Proof.
  intros Hfull. revert cks. induction sc as [|r sc IH]; intros cks H; simpl in H.
  - done.
  - destruct (classify v r) as [| |items ck] eqn:Hc.
    + case_bool_decide; by simplify_eq.
    + done.
    + unfold overflows in H. case_bool_decide as Ho.
      * by simplify_eq.
      * assert (items = []) as -> by (destruct items; [done|simpl in Ho; lia]).
        rewrite app_nil_r in H. by eapply IH.
Qed.

(** A buffer that holds an item is sent at last, when the stream ends. *)
Lemma batches_nonempty sc b cks :
  b ≠ [] → terminates sc →
  Forall (λ r, ∀ e, classify v r ≠ Failed e) (consumed sc) →
  batches sc b cks ≠ [].
Proof.
  revert b cks. induction sc as [|r sc IH]; intros b cks Hb Ht Hn; simpl in *.
  - by apply Exists_nil in Ht.
  - destruct (classify v r) as [|e|items ck] eqn:Hc.
    + rewrite bool_decide_eq_true_2; [done|]. destruct b; [done|simpl; lia].
    + rewrite Forall_cons in Hn. destruct Hn as [Hr _]. by destruct (Hr e).
    + destruct (overflows b items maxItems); [done|].
      apply IH.
      * intros [? _]%app_eq_nil. done.
      * unfold terminates in Ht. apply Exists_cons in Ht as [Ht|Ht]; [|done].
        by rewrite Hc in Ht.
      * rewrite Forall_cons in Hn. by destruct Hn as [_ ?].
Qed.

(** While [runNext] waits to call [Next], the other goroutines leave
    its buffer, the script and the batches sent as they are. *)
Lemma step_at_next s s' ch b cks :
  step ch s = Goes s' → fetch s = FNext b cks →
  (fetch s' = FNext b cks ∧ rest s' = rest s ∧ sends (log s') = sends (log s)) ∨
  (∃ pk, ch = Choose AFetch pk).
Proof.
  intros H. step_inv H; simpl; intros Hf; simplify_eq.
  all: first [ by right; eexists | left; log_norm; done ].
Qed.

(** From the fetch that overflows the buffer on: nothing is sent
    before the sealed buffer, and [runNext] holds a buffer again only
    once the sealed one was sent. *)
Lemma run_overflow sched s s' b cks r rs items ck :
  run sched s = Some s' →
  fetch s = FNext b cks → rest s = r :: rs →
  classify v r = Fetched items ck → overflows b items maxItems = true →
  (sends (log s') = sends (log s) ∧
   (fetch s' = FNext b cks ∨ fetch s' = FWrite (Batch b cks) items ck ∨
    buffered (fetch s') = None)) ∨
  (∃ more, sends (log s') = sends (log s) ++ Batch b cks :: more).
Proof.
  revert s. induction sched as [|ch sched IH]; intros s H Hf Hr Hc Ho; simpl in H.
  - simplify_eq. left. split; [done|by left].
  - destruct (step ch s) as [| |s1] eqn:E; [by apply IH|done|].
    destruct (step_at_next _ _ _ _ _ E Hf) as [(Hf1 & Hr1 & Hs1)|[pk ->]].
    + rewrite Hr in Hr1.
      destruct (IH _ H Hf1 Hr1 Hc Ho) as [[Hs ?]|[more Hs]].
      * left. split; [congruence|done].
      * right. exists more. congruence.
    + rewrite (fetch_overflows s pk b cks r rs items ck Hf Hr Hc Ho) in E.
      simplify_eq.
      destruct (run_sealed _ _ _ (Batch b cks) items ck H) as [[? Hs]|[[? Hs]|[more Hs]]].
      * by destruct s.
      * left. split; [|by right; left].
        rewrite Hs. destruct s; simpl. by rewrite sends_snoc, app_nil_r.
      * left. split; [|by right; right].
        rewrite Hs. destruct s; simpl. by rewrite sends_snoc, app_nil_r.
      * right. exists more.
        rewrite Hs. destruct s; simpl. by rewrite sends_snoc, app_nil_r.
Qed.

(** The batches sent from a state of the fetch loop on are the next
    batches of the policy. *)
Lemma run_sends_next sched sched' s s' b cks :
  run sched Pipe_init = Some s → run sched' s = Some s' →
  fetch s = FNext b cks →
  ∃ k, sends (log s') = sends (log s) ++ k ∧
       k `prefix_of` batches (rest s) b cks.
Proof.
  intros Hrun Hrun' Hf.
  assert (run (sched ++ sched') Pipe_init = Some s') as Hrun2.
  { by rewrite run_app, Hrun. }
  destruct (run_log_facts _ _ Hrun2) as (_ & Hs' & _).
  pose proof (run_inv _ _ Hrun) as [_ _ [_ Hdf _ _ _ _ _ _ _] _].
  rewrite Hf in Hdf.
  destruct (run_log_prefix _ _ _ Hrun') as [l Hl].
  exists (sends l). split; [by rewrite Hl, sends_app|].
  rewrite Hl, sends_app, <-Hdf in Hs'. by apply prefix_app_inv in Hs'.
Qed.

(** When no call of [Process] or [Commit] fails, [runNext] is never
    cancelled: by the time [Pipe] returns every batch of the policy
    was sent, whatever [Next] did. *)
Lemma run_sends_all sched s r :
  (∀ tr x, Process c tr x = None) → (∀ tr ck, Commit p tr ck = None) →
  run sched Pipe_init = Some s → result s = Some r →
  sends (log s) = batches (Next p) [] [].
Proof.
  intros HP HC Hrun Hres.
  destruct (run_no_call_fails sched s HP HC Hrun) as [Hpf Hcf].
  destruct (returned_inv s r (run_inv _ _ Hrun) Hres) as (Hf & _).
  pose proof (run_buffer _ _ Hrun) as [_ _ _ Hd].
  rewrite Hf in Hd. by apply Hd.
Qed.

(** At a fetch that overflows the buffer, the batches still to come
    start with the buffer, followed by those of a buffer that starts
    with the answer. *)
Lemma run_at_overflow sched s b cks r rs items ck :
  run sched Pipe_init = Some s →
  fetch s = FNext b cks → rest s = r :: rs →
  classify v r = Fetched items ck → overflows b items maxItems = true →
  batches (Next p) [] []
  = sends (log s) ++ Batch b cks :: batches rs items [ck].
Proof.
  intros Hrun Hf Hr Hc Ho.
  pose proof (run_inv _ _ Hrun) as [_ _ [_ Hdf _ _ _ _ _ _ _] _].
  rewrite Hf, Hr in Hdf. rewrite <-Hdf. f_equal. by apply batches_overflow.
Qed.

(** At a fetch that fits, the batches still to come are those of the
    buffer with the answer in it. *)
Lemma run_at_fit sched s b cks r rs items ck :
  run sched Pipe_init = Some s →
  fetch s = FNext b cks → rest s = r :: rs →
  classify v r = Fetched items ck → overflows b items maxItems = false →
  batches (Next p) [] []
  = sends (log s) ++ batches rs (b ++ items) (cks ++ [ck]).
Proof.
  intros Hrun Hf Hr Hc Ho.
  pose proof (run_inv _ _ Hrun) as [_ _ [_ Hdf _ _ _ _ _ _ _] _].
  rewrite Hf, Hr in Hdf. rewrite <-Hdf. f_equal. by apply batches_no_overflow.
Qed.

(** The loop of [runNext] ends with a batch of the policy unsent only
    after a call of [Process] or of [Commit] failed. *)
Lemma run_dropped sched s bt more :
  run sched Pipe_init = Some s → buffered (fetch s) = None →
  batches (Next p) [] [] = sends (log s) ++ bt :: more →
  pfailed (log s) || cfailed (log s) = true.
Proof.
  intros Hrun Hb Hbs.
  pose proof (run_buffer _ _ Hrun) as [_ _ _ Hd]. rewrite Hb in Hd.
  destruct (pfailed (log s)) eqn:Hp; [done|].
  destruct (cfailed (log s)) eqn:Hc; [done|].
  specialize (Hd eq_refl eq_refl). rewrite <-Hd in Hbs.
  rewrite <-(app_nil_r (sends (log s))) in Hbs at 1.
  by apply app_inv_head in Hbs.
Qed.

(** C3 (amended).  A fetch that would make the buffer exceed the
    capacity limit seals the buffer as it is.  Whatever the goroutines
    do from then on, the sealed buffer is the next batch sent, and the
    batch sent after it starts with the items and the cookie of that
    fetch; the sealed buffer is left unsent at the end of [runNext]
    only after a call of [Process] or of [Commit] failed.  At every
    moment the batches are processed in the order they were sent, a
    cookie is acknowledged only after [Process] accepted its batch, and
    items and cookies keep the order of the fetches across the split.
    When no call of [Process] or of [Commit] fails, a run that returned
    has sent the sealed buffer, has processed every batch sent and has
    acknowledged all their cookies; and the run can always go on to its
    return when [Next] ends the stream or fails. *)
Theorem C3_overflow_seals_the_buffer memory sched s b cks r rs items ck :
  Pipe memory sched = Some s →
  fetch s = FNext b cks → rest s = r :: rs →
  classify v r = Fetched items ck → overflows b items maxItems = true →
  (∀ pk, step (Choose AFetch pk) s
         = Goes (set_fetch (FWrite (Batch b cks) items ck)
                   (set_rest rs (add_log (EvNext r) s)))) ∧
  (∀ sched' s', Pipe memory (sched ++ sched') = Some s' →
     (sends (log s') = sends (log s) ∧
      (fetch s' = FNext b cks ∨ fetch s' = FWrite (Batch b cks) items ck ∨
       buffered (fetch s') = None ∧
       pfailed (log s') || cfailed (log s') = true)
      ∨
      ∃ more, sends (log s') = sends (log s) ++ Batch b cks :: more ∧
        ∀ bt more', more = bt :: more' →
          items `prefix_of` buf bt ∧ [ck] `prefix_of` cookies bt) ∧
     processed (log s') `prefix_of` sends (log s') ∧
     (∀ l, l `prefix_of` log s' → committed l `prefix_of` owed l) ∧
     committed (log s') `prefix_of` concat (cookies <$> processed (log s')) ∧
     concat (buf <$> sends (log s')) `prefix_of` fetched_items (Next p) ∧
     concat (cookies <$> sends (log s')) `prefix_of` fetched_cookies (Next p) ∧
     ((∀ tr x, Process c tr x = None) → (∀ tr k, Commit p tr k = None) →
      ∀ res, result s' = Some res →
        (∃ more, sends (log s') = sends (log s) ++ Batch b cks :: more) ∧
        processed (log s') = sends (log s') ∧
        committed (log s') = concat (cookies <$> sends (log s')))) ∧
  (terminates (Next p) →
   ∃ sched' s', Pipe memory (sched ++ sched') = Some s' ∧ is_Some (result s')).
Proof.
  intros HP Hf Hr Hc Ho.
  pose proof HP as [_ Hrun]%Pipe_run.
  pose proof (run_at_overflow _ _ _ _ _ _ _ _ Hrun Hf Hr Hc Ho) as Hbs.
  split_and!.
  - intros pk. by apply fetch_overflows.
  - intros sched' s' [_ Hrun2]%Pipe_run.
    assert (∃ s0, run sched Pipe_init = Some s0 ∧ run sched' s0 = Some s')
      as (s0 & Hs0 & Hrun') by
      (rewrite run_app in Hrun2; destruct (run sched Pipe_init); naive_solver).
    rewrite Hrun in Hs0. injection Hs0 as <-.
    destruct (run_log_facts _ _ Hrun2) as (_ & Hs' & Hp' & _ & _).
    destruct (run_order _ _ Hrun2) as (Hi & Hk & _ & Hcp & _).
    split_and!; [|done| |done|done|done|].
    + destruct (run_overflow _ _ _ _ _ _ _ _ _ Hrun' Hf Hr Hc Ho)
        as [[Hs [?|[?|Hb]]]|[more Hs]].
      * left. split; [done|by left].
      * left. split; [done|by right; left].
      * left. split; [done|]. right; right. split; [done|].
        apply (run_dropped _ _ (Batch b cks) (batches rs items [ck]) Hrun2 Hb).
        by rewrite Hs.
      * right. exists more. split; [done|].
        intros bt more' ->.
        rewrite Hbs, Hs in Hs'.
        apply prefix_app_inv, prefix_cons_inv_2 in Hs'.
        destruct Hs' as [k Hk'].
        by apply (batches_head rs items [ck] bt (more' ++ k)).
    + intros l Hl.
      destruct (run_log_facts_prefix _ _ l Hrun2 Hl) as (_ & _ & _ & ? & ?).
      by etrans.
    + intros HPr HCo res Hres.
      destruct (run_drains _ _ HPr HCo Hrun2) as (_ & _ & Hd).
      destruct (Hd _ Hres) as [? ?].
      split_and!; [|done|done].
      exists (batches rs items [ck]).
      by rewrite (run_sends_all _ _ _ HPr HCo Hrun2 Hres).
  - intros Ht. exact (Pipe_can_return (memory:=memory) sched s Ht HP).
Qed.

(** C4 (amended).  When the size of the buffer plus the number of items
    of a new fetch is exactly the capacity limit, [runNext] sends
    nothing: it appends the items and the cookie to the buffer.
    Whatever the goroutines do from then on, the next batch sent, if
    any, holds the items of that buffer and no other, and its cookies
    start with the cookies of that buffer.  When the limit is positive,
    [Next] goes on to the end of the stream without failing and no call
    of [Process] or [Commit] fails, a run that returned has sent that
    batch, has processed every batch sent and has acknowledged all
    their cookies; and the run can always go on to its return when
    [Next] ends the stream or fails. *)
Theorem C4_exact_fit_is_folded_in memory sched s b cks r rs items ck :
  Pipe memory sched = Some s →
  fetch s = FNext b cks → rest s = r :: rs →
  classify v r = Fetched items ck →
  Z.of_nat (length b) + Z.of_nat (length items) = maxItems →
  (∀ pk, step (Choose AFetch pk) s
         = Goes (set_fetch (FSelect (b ++ items) (cks ++ [ck]))
                   (set_rest rs (add_log (EvNext r) s)))) ∧
  (∀ sched' s', Pipe memory (sched ++ sched') = Some s' →
     (sends (log s') = sends (log s) ∨
      ∃ bt more, sends (log s') = sends (log s) ++ bt :: more ∧
        buf bt = b ++ items ∧ cks ++ [ck] `prefix_of` cookies bt) ∧
     (0 < maxItems →
      (∀ tr x, Process c tr x = None) → (∀ tr k, Commit p tr k = None) →
      terminates rs →
      Forall (λ r, ∀ e, classify v r ≠ Failed e) (consumed rs) →
      ∀ res, result s' = Some res →
        (∃ bt more, sends (log s') = sends (log s) ++ bt :: more ∧
           buf bt = b ++ items ∧ cks ++ [ck] `prefix_of` cookies bt) ∧
        processed (log s') = sends (log s') ∧
        committed (log s') = concat (cookies <$> sends (log s')))) ∧
  (terminates (Next p) →
   ∃ sched' s', Pipe memory (sched ++ sched') = Some s' ∧ is_Some (result s')).
Proof.
  intros HP Hf Hr Hc Hfit.
  pose proof HP as [_ Hrun]%Pipe_run.
  assert (overflows b items maxItems = false) as Ho.
  { unfold overflows. apply bool_decide_eq_false_2. lia. }
  assert (Z.of_nat (length (b ++ items)) = maxItems) as Hfull.
  { rewrite length_app. lia. }
  pose proof (run_at_fit _ _ _ _ _ _ _ _ Hrun Hf Hr Hc Ho) as Hbs.
  assert (∀ bt more,
            batches rs (b ++ items) (cks ++ [ck]) = bt :: more →
            buf bt = b ++ items ∧ cks ++ [ck] `prefix_of` cookies bt) as Hhead.
  { intros bt more Hb. split.
    - by apply (batches_full _ _ _ _ _ Hfull Hb).
    - by apply (batches_head _ _ _ _ _ Hb). }
  split_and!.
  - intros pk. by apply fetch_fits.
  - intros sched' s' [_ Hrun2]%Pipe_run.
    destruct (run_log_facts _ _ Hrun2) as (_ & Hs' & _).
    assert (sends (log s) `prefix_of` sends (log s')) as [k Hk].
    { assert (∃ s0, run sched Pipe_init = Some s0 ∧ run sched' s0 = Some s')
        as (s0 & Hs0 & Hrun') by
        (rewrite run_app in Hrun2; destruct (run sched Pipe_init); naive_solver).
      rewrite Hrun in Hs0. injection Hs0 as <-.
      destruct (run_log_prefix _ _ _ Hrun') as [l ->].
      rewrite sends_app. by apply prefix_app_r. }
    split.
    + destruct k as [|bt more]; [left; by rewrite Hk, app_nil_r|right].
      exists bt, more. split; [done|].
      rewrite Hbs, Hk in Hs'. apply prefix_app_inv in Hs'.
      destruct Hs' as [k' Hk'].
      by apply (Hhead bt (more ++ k')).
    + intros Hpos HPr HCo Ht HN res Hres.
      destruct (run_drains _ _ HPr HCo Hrun2) as (_ & _ & Hd).
      destruct (Hd _ Hres) as [? ?].
      split_and!; [|done|done].
      assert (batches rs (b ++ items) (cks ++ [ck]) ≠ []) as Hne.
      { apply batches_nonempty; [|done|done].
        intros E. rewrite E in Hfull. simpl in Hfull. lia. }
      destruct (batches rs (b ++ items) (cks ++ [ck])) as [|bt more] eqn:Hb;
        [done|].
      exists bt, more. split; [|by apply (Hhead bt more)].
      by rewrite (run_sends_all _ _ _ HPr HCo Hrun2 Hres).
  - intros Ht. exact (Pipe_can_return (memory:=memory) sched s Ht HP).
Qed.

(** C9 (amended).  Every successful fetch adds exactly one cookie to
    what [runNext] holds, whatever the number of its items: in every
    run the cookies of the batches sent, followed by the cookies
    [runNext] holds, are the cookies fetched, once each and in fetch
    order, and so for the items; once the loop of [runNext] is over the
    cookies sent are the first of the cookies fetched.  A fetch of no
    item with a cookie appends its cookie to the buffer it finds, and
    leaves the items as they are, when the buffer is within the limit;
    in general the cookie goes to the buffer the fetch finds when the
    items fit, and to the fresh buffer that follows the sealed one when
    they do not. *)
Theorem C9_one_cookie_per_fetch memory sched s :
  Pipe memory sched = Some s →
  match buffered (fetch s) with
  | Some (b, cks) =>
      concat (cookies <$> sends (log s)) ++ cks = got_cookies (log s) ∧
      concat (buf <$> sends (log s)) ++ b = got_items (log s)
  | None =>
      concat (cookies <$> sends (log s)) `prefix_of` got_cookies (log s) ∧
      concat (buf <$> sends (log s)) `prefix_of` got_items (log s)
  end ∧
  ∀ pk b cks r rs items ck,
    fetch s = FNext b cks → rest s = r :: rs →
    classify v r = Fetched items ck →
    ∃ s', step (Choose AFetch pk) s = Goes s' ∧
      log s' = log s ++ [EvNext r] ∧
      got_cookies (log s') = got_cookies (log s) ++ [ck] ∧
      sends (log s') = sends (log s) ∧
      (overflows b items maxItems = false →
       fetch s' = FSelect (b ++ items) (cks ++ [ck])) ∧
      (overflows b items maxItems = true →
       fetch s' = FWrite (Batch b cks) items ck ∧
       ∀ ch s'', step ch s' = Goes s'' →
         fetch s'' = FWrite (Batch b cks) items ck ∧
         sends (log s'') = sends (log s') ∨
         fetch s'' = FReturn None ∧ cancelled 0 s' = true ∨
         fetch s'' = FSelect items [ck] ∧
         log s'' = log s' ++ [EvSend (Batch b cks)]) ∧
      (items = [] → Z.of_nat (length b) ≤ maxItems →
       fetch s' = FSelect b (cks ++ [ck])).
Proof.
  intros [_ Hrun]%Pipe_run.
  pose proof (run_buffer _ _ Hrun) as [Hi Hk _ _].
  split.
  - destruct (buffered (fetch s)) as [[b cks]|]; done.
  - intros pk b cks r rs items ck Hf Hr Hc.
    assert (got_cookies (log s ++ [EvNext r]) = got_cookies (log s) ++ [ck])
      as Hgot.
    { rewrite got_cookies_snoc. unfold got_cookies. simpl. by rewrite Hc. }
    assert (sends (log s ++ [EvNext r]) = sends (log s)) as Hsn.
    { by rewrite sends_snoc, app_nil_r. }
    destruct (overflows b items maxItems) eqn:Ho.
    + eexists. split; [by apply fetch_overflows|].
      destruct s; simpl in *. split_and!; try done.
      * intros _. split; [done|]. intros ch s'' Hst.
        eapply fetch_sends in Hst; [|reflexivity].
        simpl in Hst. destruct Hst as [?|[(? & ? & _)|(? & ? & _)]]; auto.
      * intros -> Hfit. exfalso. unfold overflows in Ho.
        apply bool_decide_eq_true_1 in Ho. simpl in Ho. lia.
    + eexists. split; [by apply fetch_fits|].
      destruct s; simpl in *. split_and!; try done.
      intros -> _. by rewrite app_nil_r.
Qed.

End Concurrent.

End Pipeline.


(** * Examples

    The theorems above at concrete producers, consumers and schedules,
    the hypotheses checked by evaluation. *)

Local Open Scope string_scope.

(** C1: two fetches of three items in all, limit 5. *)
Lemma C1_one_batch_example :
  ∃ s, Pipe sentinel_variant
         (MkProducer [ok ["a"; "b"] 1; ok ["c"] 2; eos] acks) accepts 5 (2 ^ 30)
         (round_robin 20) = Some s ∧
       result s = Some None ∧
       calls (log s)
       = [EvProcess (Batch ["a"; "b"; "c"] [1; 2]) None;
          EvCommit 1 None; EvCommit 2 None].
Proof.
  edestruct (C1_fitting_fetches_make_one_batch sentinel_variant
       (MkProducer [ok ["a"; "b"] 1; ok ["c"] 2; eos] acks) accepts 5 (2 ^ 30)
       [ok ["a"; "b"] 1; ok ["c"] 2] [(["a"; "b"], 1); (["c"], 2)] eos []
       (round_robin 20)) as (_ & H & _).
  - split; [reflexivity|]. split; [|reflexivity]. repeat constructor.
  - simpl. lia.
  - simpl. lia.
  - reflexivity.
  - reflexivity.
  - vm_compute. reflexivity.
  - eexists. split; [vm_compute; reflexivity|]. split; [reflexivity|].
    exact (proj2 (H None eq_refl)).
Defined.

(** C1 as stated fails: the only fetch before the end of the stream has
    no item (so the items fetched are within the limit), [Pipe] returns
    nil, and [Process] was not called, nor [Commit] on the cookie. *)
Lemma C1_no_item_counterexample :
  fetches_then_eof sentinel_variant [ok ([] : list string) 7; eos]
    [ok [] 7] [([], 7)] eos [] ∧
  (Z.of_nat (length (concat [([] : list string, 7)].*1)) ≤ 5)%Z ∧
  ∃ s, Pipe sentinel_variant (MkProducer [ok ([] : list string) 7; eos] acks)
         accepts 5 (2 ^ 30) (round_robin 20) = Some s ∧
       result s = Some None ∧
       processed (log s) = [] ∧ committed (log s) = [].
Proof.
  split; [|split].
  - split; [reflexivity|]. split; [|reflexivity]. repeat constructor.
  - simpl. lia.
  - eexists. split; [vm_compute; reflexivity|]. by split.
Defined.

(** C2: [Process] refuses the first batch; its [StageError], of index
    1, waits in the error channel with every token open.  Three steps
    of the coordinator later the tokens of [runNext] and [runProcess]
    are closed and the token of [runCommit] is not. *)
Lemma C2_cascade_example :
  ∃ s s',
    Pipe sentinel_variant
      (MkProducer [ok ["a"; "b"] 1; ok ["c"] 2; eos] acks)
      (rejects (Sentinel (Foreign "boom"))) 2 (2 ^ 30) (stages_only 8) = Some s ∧
    cancelChans s = [false; false; false] ∧
    run sentinel_variant
      (MkProducer [ok ["a"; "b"] 1; ok ["c"] 2; eos] acks)
      (rejects (Sentinel (Foreign "boom"))) 2
      (replicate 3 (Choose ACoord false)) s = Some s' ∧
    cancelChans s' !! 0%nat = Some true ∧
    cancelChans s' !! 1%nat = Some true ∧
    cancelChans s' !! 2%nat = Some false.
Proof.
  edestruct (C2_cascade_closes_upstream_tokens sentinel_variant
       (MkProducer [ok ["a"; "b"] 1; ok ["c"] 2; eos] acks)
       (rejects (Sentinel (Foreign "boom"))) 2 (2 ^ 30) (stages_only 8))
    with (se := MkStageError 1 (Errorf_wv (Sentinel ErrProcessFailed)
                                  (Sentinel (Foreign "boom"))))
         (q := @nil StageError) (pk := false)
    as (s' & Hrun & _ & _ & Hle & Hgt & _).
  - vm_compute. reflexivity.
  - reflexivity.
  - reflexivity.
  - eexists _, s'. split; [vm_compute; reflexivity|]. split; [reflexivity|].
    split; [exact Hrun|]. split; [apply Hle; simpl; lia|].
    split; [apply Hle; simpl; lia|].
    rewrite Hgt by (simpl; lia). reflexivity.
Defined.

(** C3: a buffer of two items, limit 2, and a fetch of one item: the
    buffer is sealed, and the run that goes on to its return has sent
    it first, processed it and acknowledged its cookie. *)
Lemma C3_overflow_example :
  ∃ s s',
    Pipe sentinel_variant
      (MkProducer [ok ["x"; "y"] 1; ok ["z"] 2; eos] acks) accepts 2 (2 ^ 30)
      (replicate 3 (Choose AFetch false)) = Some s ∧
    fetch s = FNext ["x"; "y"] [1] ∧
    Pipe sentinel_variant
      (MkProducer [ok ["x"; "y"] 1; ok ["z"] 2; eos] acks) accepts 2 (2 ^ 30)
      (replicate 3 (Choose AFetch false) ++ round_robin 20) = Some s' ∧
    result s' = Some None ∧
    sends (log s') = [Batch ["x"; "y"] [1]; Batch ["z"] [2]] ∧
    processed (log s') = sends (log s') ∧
    committed (log s') = concat (cookies <$> sends (log s')).
Proof.
  edestruct (C3_overflow_seals_the_buffer sentinel_variant
       (MkProducer [ok ["x"; "y"] 1; ok ["z"] 2; eos] acks) accepts 2 (2 ^ 30)
       (replicate 3 (Choose AFetch false)))
    with (b := ["x"; "y"]) (cks := [1%Z]) (r := ok ["z"] 2) (rs := [@eos string])
         (items := ["z"]) (ck := 2%Z)
    as (_ & H & _).
  - vm_compute. reflexivity.
  - reflexivity.
  - reflexivity.
  - reflexivity.
  - reflexivity.
  - edestruct (H (round_robin 20)) as (_ & _ & _ & _ & _ & _ & Hd).
    + vm_compute. reflexivity.
    + destruct (Hd (λ _ _, eq_refl) (λ _ _, eq_refl) None eq_refl)
        as (_ & Hp & Hc).
      eexists _, _. split; [vm_compute; reflexivity|].
      split; [reflexivity|]. split; [vm_compute; reflexivity|].
      split; [reflexivity|]. split; [reflexivity|].
      split; [exact Hp|exact Hc].
Defined.

(** C3 as stated fails: the same fetches, and a [Process] that refuses
    what it is given.  The second fetch overflows the buffer of two
    items; the sealed buffer is sent and [Process] is called on it, and
    fails: its cookie is never acknowledged, and [Pipe] returns the
    error of [Process]. *)
Lemma C3_refused_batch_counterexample :
  ∃ s s' agg,
    Pipe sentinel_variant
      (MkProducer [ok ["x"; "y"] 1; ok ["z"] 2; eos] acks)
      (rejects (Sentinel (Foreign "boom"))) 2 (2 ^ 30)
      (replicate 3 (Choose AFetch false)) = Some s ∧
    fetch s = FNext ["x"; "y"] [1] ∧ rest s = [ok ["z"] 2; eos] ∧
    overflows ["x"; "y"] ["z"] 2 = true ∧
    Pipe sentinel_variant
      (MkProducer [ok ["x"; "y"] 1; ok ["z"] 2; eos] acks)
      (rejects (Sentinel (Foreign "boom"))) 2 (2 ^ 30)
      (replicate 3 (Choose AFetch false) ++ round_robin 20) = Some s' ∧
    result s' = Some (Some agg) ∧ errors_Is agg ErrProcessFailed = true ∧
    procs (log s')
    = [(Batch ["x"; "y"] [1], Some (Sentinel (Foreign "boom")))] ∧
    committed (log s') = [].
Proof.
  eexists _, _, _. split; [vm_compute; reflexivity|].
  split; [reflexivity|]. split; [reflexivity|]. split; [reflexivity|].
  split; [vm_compute; reflexivity|]. split; [reflexivity|].
  split; [reflexivity|]. split; reflexivity.
Defined.

(** C4: a buffer of two items and a fetch of three, limit 5: nothing is
    sent at the fetch, and the run that goes on to its return has sent
    the five items as one batch, with both cookies. *)
Lemma C4_exact_fit_example :
  ∃ s s',
    Pipe sentinel_variant
      (MkProducer [ok ["a"; "b"] 1; ok ["c"; "d"; "e"] 2; eos] acks)
      accepts 5 (2 ^ 30) (replicate 3 (Choose AFetch false)) = Some s ∧
    fetch s = FNext ["a"; "b"] [1] ∧
    step sentinel_variant
      (MkProducer [ok ["a"; "b"] 1; ok ["c"; "d"; "e"] 2; eos] acks)
      accepts 5 (Choose AFetch false) s
    = Goes (set_fetch (FSelect ["a"; "b"; "c"; "d"; "e"] [1; 2])
              (set_rest [eos] (add_log (EvNext (ok ["c"; "d"; "e"] 2)) s))) ∧
    Pipe sentinel_variant
      (MkProducer [ok ["a"; "b"] 1; ok ["c"; "d"; "e"] 2; eos] acks)
      accepts 5 (2 ^ 30) (replicate 3 (Choose AFetch false) ++ round_robin 20)
    = Some s' ∧
    result s' = Some None ∧
    sends (log s') = [Batch ["a"; "b"; "c"; "d"; "e"] [1; 2]] ∧
    processed (log s') = sends (log s') ∧
    committed (log s') = concat (cookies <$> sends (log s')).
Proof.
  edestruct (C4_exact_fit_is_folded_in sentinel_variant
       (MkProducer [ok ["a"; "b"] 1; ok ["c"; "d"; "e"] 2; eos] acks)
       accepts 5 (2 ^ 30) (replicate 3 (Choose AFetch false)))
    with (b := ["a"; "b"]) (cks := [1%Z]) (r := ok ["c"; "d"; "e"] 2)
         (rs := [@eos string]) (items := ["c"; "d"; "e"]) (ck := 2%Z)
    as (Hst & H & _).
  - vm_compute. reflexivity.
  - reflexivity.
  - reflexivity.
  - reflexivity.
  - reflexivity.
  - edestruct (H (round_robin 20)) as (_ & Hd).
    + vm_compute. reflexivity.
    + destruct (Hd ltac:(lia) (λ _ _, eq_refl) (λ _ _, eq_refl)
                  ltac:(apply Exists_cons_hd; exact I)
                  ltac:(repeat constructor; intros e; discriminate)
                  None eq_refl)
        as (_ & Hp & Hc).
      eexists _, _. split; [vm_compute; reflexivity|].
      split; [reflexivity|]. split; [exact (Hst false)|].
      split; [vm_compute; reflexivity|].
      split; [reflexivity|]. split; [reflexivity|].
      split; [exact Hp|exact Hc].
Defined.

(** C4 as stated fails: the buffer the fetch was folded into need not
    be delivered.  With a limit of 5, a buffer of two items and a fetch
    of three, [Next] fails at the following call: [runNext] returns the
    error with the five items in its buffer, no batch is sent and
    [Process] is not called.  And with a limit of 0 the only fetch, of
    no item, fits exactly; at the end of the stream the buffer is empty
    and is not sent, and [Pipe] returns nil. *)
Lemma C4_lost_buffer_counterexample :
  (∃ s s' agg,
    Pipe sentinel_variant
      (MkProducer [ok ["a"; "b"] 1; ok ["c"; "d"; "e"] 2;
                   NextRes [] 0 (Some (Sentinel (Foreign "down")))] acks)
      accepts 5 (2 ^ 30) (replicate 3 (Choose AFetch false)) = Some s ∧
    fetch s = FNext ["a"; "b"] [1] ∧
    rest s = [ok ["c"; "d"; "e"] 2;
              NextRes [] 0 (Some (Sentinel (Foreign "down")))] ∧
    (Z.of_nat (length ["a"; "b"]) + Z.of_nat (length ["c"; "d"; "e"]) = 5)%Z ∧
    Pipe sentinel_variant
      (MkProducer [ok ["a"; "b"] 1; ok ["c"; "d"; "e"] 2;
                   NextRes [] 0 (Some (Sentinel (Foreign "down")))] acks)
      accepts 5 (2 ^ 30) (replicate 3 (Choose AFetch false) ++ round_robin 20)
    = Some s' ∧
    result s' = Some (Some agg) ∧ errors_Is agg ErrNextFailed = true ∧
    nexts (log s')
    = [ok ["a"; "b"] 1; ok ["c"; "d"; "e"] 2;
       NextRes [] 0 (Some (Sentinel (Foreign "down")))] ∧
    sends (log s') = [] ∧ processed (log s') = [] ∧ committed (log s') = []) ∧
  (∃ s s',
    Pipe sentinel_variant
      (MkProducer [ok ([] : list string) 1; eos] acks)
      accepts 0 (2 ^ 30) [Choose AFetch false] = Some s ∧
    fetch s = FNext [] [] ∧ rest s = [ok [] 1; eos] ∧
    (Z.of_nat (length ([] : list string)) +
     Z.of_nat (length ([] : list string)) = 0)%Z ∧
    Pipe sentinel_variant
      (MkProducer [ok ([] : list string) 1; eos] acks)
      accepts 0 (2 ^ 30) ([Choose AFetch false] ++ round_robin 20) = Some s' ∧
    result s' = Some None ∧
    nexts (log s') = [ok [] 1; eos] ∧
    sends (log s') = [] ∧ processed (log s') = [] ∧ committed (log s') = []).
Proof.
  split.
  - eexists _, _, _. split; [vm_compute; reflexivity|].
    split; [reflexivity|]. split; [reflexivity|]. split; [reflexivity|].
    split; [vm_compute; reflexivity|]. split; [reflexivity|].
    split; [reflexivity|]. split; [reflexivity|].
    split; [reflexivity|]. split; reflexivity.
  - eexists _, _. split; [vm_compute; reflexivity|].
    split; [reflexivity|]. split; [reflexivity|]. split; [reflexivity|].
    split; [vm_compute; reflexivity|]. split; [reflexivity|].
    split; [reflexivity|]. split; [reflexivity|]. split; reflexivity.
Defined.

(** C5: the same three fetches, none above the limit of 5: the batches
    sent hold five and three items. *)
Lemma C5_within_limit_example :
  ∃ s,
    Pipe sentinel_variant
      (MkProducer [ok ["a"; "b"; "c"] 1; ok ["d"; "e"] 2;
                   ok ["f"; "g"; "h"] 3; eos] acks)
      accepts 5 (2 ^ 30) (round_robin 20) = Some s ∧
    sends (log s)
    = [Batch ["a"; "b"; "c"; "d"; "e"] [1; 2]; Batch ["f"; "g"; "h"] [3]] ∧
    (Z.of_nat (length (buf (Batch ["a"; "b"; "c"; "d"; "e"] [1; 2]))) ≤ 5)%Z.
Proof.
  edestruct (C5_batches_within_the_limit sentinel_variant
       (MkProducer [ok ["a"; "b"; "c"] 1; ok ["d"; "e"] 2;
                    ok ["f"; "g"; "h"] 3; eos] acks)
       accepts 5 (2 ^ 30) (round_robin 20))
    with (bt := Batch ["a"; "b"; "c"; "d"; "e"] [1; 2]) as [H _].
  - repeat constructor; intros items ck Hc; vm_compute in Hc;
      try discriminate; injection Hc as <- _; simpl; lia.
  - vm_compute. reflexivity.
  - left. vm_compute. left.
  - eexists. split; [vm_compute; reflexivity|]. split; [reflexivity|exact H].
Defined.

(** C5 as stated fails: a single fetch of three items with a limit of
    two.  [runNext] first sends the empty buffer, then the three items
    as one batch; [Process] is called on both. *)
Lemma C5_oversize_fetch_counterexample :
  ∃ s,
    Pipe sentinel_variant
      (MkProducer [ok ["a"; "b"; "c"] 1; eos] acks) accepts 2 (2 ^ 30)
      (round_robin 20) = Some s ∧
    result s = Some None ∧
    sends (log s) = [Batch [] []; Batch ["a"; "b"; "c"] [1]] ∧
    processed (log s) = [Batch [] []; Batch ["a"; "b"; "c"] [1]] ∧
    ¬ (Z.of_nat (length (buf (Batch ["a"; "b"; "c"] [1]))) ≤ 2)%Z.
Proof.
  eexists. split; [vm_compute; reflexivity|]. split; [reflexivity|].
  split; [reflexivity|]. split; [reflexivity|]. simpl. lia.
Defined.

(** C6: [Process] refuses the first batch of two. *)
Lemma C6_process_failure_example :
  ∃ s agg,
    Pipe sentinel_variant
      (MkProducer [ok ["a"; "b"] 1; ok ["c"] 2; eos] acks)
      (rejects (Sentinel (Foreign "boom"))) 2 (2 ^ 30) (round_robin 20) = Some s ∧
    result s = Some (Some agg) ∧ errors_Is agg ErrProcessFailed = true ∧
    processed (log s) = [Batch ["a"; "b"] [1]] ∧
    sends (log s) = [Batch ["a"; "b"] [1]; Batch ["c"] [2]] ∧
    emits (log s) = [] ∧ committed (log s) = [].
Proof.
  edestruct (C6_process_failure_stops_the_pipeline sentinel_variant
       (MkProducer [ok ["a"; "b"] 1; ok ["c"] 2; eos] acks)
       (rejects (Sentinel (Foreign "boom"))) 2 (2 ^ 30) (round_robin 20))
    with (l1 := [EvNext (ok ["a"; "b"] 1); EvNext (ok ["c"] 2);
                 EvSend (Batch ["a"; "b"] [1])])
         (bt := Batch ["a"; "b"] [1]) (e := Sentinel (Foreign "boom"))
         (l2 := [EvNext eos; EvSend (Batch ["c"] [2])])
    as (Hp & He & Hc & Hr & _).
  - reflexivity.
  - vm_compute. reflexivity.
  - reflexivity.
  - destruct (Hr _ eq_refl) as (agg & Hagg & His). injection Hagg as <-.
    eexists _, _. split; [vm_compute; reflexivity|].
    split; [reflexivity|]. split; [exact His|]. split; [exact Hp|].
    split; [reflexivity|]. split; [exact He|].
    apply prefix_nil_inv. exact Hc.
Defined.

(** C7: [Commit] refuses the second of three cookies; the third stays
    in the channel. *)
Lemma C7_commit_failure_example :
  ∃ s agg,
    Pipe sentinel_variant
      (MkProducer [ok ["a"] 1; ok ["b"] 2; ok ["c"] 3; eos]
         (nacks 2 (Sentinel (Foreign "boom"))))
      accepts 5 (2 ^ 30) (round_robin 30) = Some s ∧
    result s = Some (Some agg) ∧ errors_Is agg ErrCommitFailed = true ∧
    emits (log s) = [1; 2; 3] ∧ committed (log s) = [1; 2] ∧
    queue (cookiesCh s) = [3].
Proof.
  edestruct (C7_commit_failure_stops_acknowledging sentinel_variant
       (MkProducer [ok ["a"] 1; ok ["b"] 2; ok ["c"] 3; eos]
          (nacks 2 (Sentinel (Foreign "boom"))))
       accepts 5 (2 ^ 30) (round_robin 30))
    with (l1 := [EvNext (ok ["a"] 1); EvNext (ok ["b"] 2); EvNext (ok ["c"] 3);
                 EvNext eos; EvSend (Batch ["a"; "b"; "c"] [1; 2; 3]);
                 EvProcess (Batch ["a"; "b"; "c"] [1; 2; 3]) None;
                 EvEmit 1; EvEmit 2; EvCommit 1 None; EvEmit 3])
         (ck := 2%Z) (e := Sentinel (Foreign "boom")) (l2 := @nil (@event string))
    as (_ & Hc & He & _ & Hr & _).
  - reflexivity.
  - vm_compute. reflexivity.
  - reflexivity.
  - destruct (Hr _ eq_refl) as (agg & Hagg & His). injection Hagg as <-.
    eexists _, _. split; [vm_compute; reflexivity|].
    split; [reflexivity|]. split; [exact His|]. split; [reflexivity|].
    split; [exact Hc|reflexivity].
Defined.


(** C9: a fetch of no item, with cookie 2, on a buffer of one item,
    limit 5: the cookie joins the buffer, the items stay. *)
Lemma C9_empty_fetch_example :
  ∃ s s',
    Pipe sentinel_variant (MkProducer [ok ["a"] 1; ok [] 2; eos] acks)
      accepts 5 (2 ^ 30) (replicate 3 (Choose AFetch false)) = Some s ∧
    fetch s = FNext ["a"] [1] ∧
    got_cookies sentinel_variant (log s) = [1] ∧
    step sentinel_variant (MkProducer [ok ["a"] 1; ok [] 2; eos] acks)
      accepts 5 (Choose AFetch false) s = Goes s' ∧
    fetch s' = FSelect ["a"] [1; 2] ∧
    got_cookies sentinel_variant (log s') = [1; 2] ∧
    sends (log s') = sends (log s).
Proof.
  edestruct (C9_one_cookie_per_fetch sentinel_variant
       (MkProducer [ok ["a"] 1; ok [] 2; eos] acks) accepts 5 (2 ^ 30)
       (replicate 3 (Choose AFetch false))) as [_ H].
  - vm_compute. reflexivity.
  - edestruct H with (pk := false) (b := ["a"]) (cks := [1%Z])
      (r := ok ([] : list string) 2) (rs := [@eos string])
      (items := @nil string) (ck := 2%Z)
      as (s' & Hst & _ & Hg & Hs & _ & _ & Hf);
      [reflexivity|reflexivity|reflexivity|].
    eexists _, s'. split; [vm_compute; reflexivity|].
    split; [reflexivity|]. split; [reflexivity|]. split; [exact Hst|].
    split; [apply Hf; [reflexivity|simpl; lia]|].
    split; [exact Hg|exact Hs].
Defined.

(** C9 as stated fails: the cookie of a fetch of no item need not join
    the current batch.  With a limit of 2, a fetch of three items makes
    a buffer above the limit; the fetch of no item that follows, with
    cookie 2, seals that buffer without its cookie, which starts a
    fresh buffer.  That buffer is empty at the end of the stream and is
    not sent: cookie 2 was fetched, is in no batch, and is never
    acknowledged, and [Pipe] returns nil. *)
Lemma C9_empty_fetch_counterexample :
  ∃ s s1 s',
    Pipe sentinel_variant
      (MkProducer [ok ["a"; "b"; "c"] 1; ok [] 2; eos] acks)
      accepts 2 (2 ^ 30) (replicate 4 (Choose AFetch false)) = Some s ∧
    fetch s = FNext ["a"; "b"; "c"] [1] ∧ rest s = [ok [] 2; eos] ∧
    step sentinel_variant
      (MkProducer [ok ["a"; "b"; "c"] 1; ok [] 2; eos] acks)
      accepts 2 (Choose AFetch false) s = Goes s1 ∧
    fetch s1 = FWrite (Batch ["a"; "b"; "c"] [1]) [] 2 ∧
    Pipe sentinel_variant
      (MkProducer [ok ["a"; "b"; "c"] 1; ok [] 2; eos] acks)
      accepts 2 (2 ^ 30) (round_robin 20) = Some s' ∧
    result s' = Some None ∧
    got_cookies sentinel_variant (log s') = [1; 2] ∧
    sends (log s') = [Batch [] []; Batch ["a"; "b"; "c"] [1]] ∧
    processed (log s') = [Batch [] []; Batch ["a"; "b"; "c"] [1]] ∧
    committed (log s') = [1].
Proof.
  eexists _, _, _. split; [vm_compute; reflexivity|].
  split; [reflexivity|]. split; [reflexivity|].
  split; [vm_compute; reflexivity|]. split; [reflexivity|].
  split; [vm_compute; reflexivity|]. split; [reflexivity|].
  split; [reflexivity|]. split; [reflexivity|]. split; reflexivity.
Defined.

(** C10: two fetches of no item, cookies 7 and 8. *)
Lemma C10_dropped_cookies_example :
  ∃ s,
    Pipe sentinel_variant
      (MkProducer [ok ([] : list string) 7; ok [] 8; eos] acks)
      accepts 5 (2 ^ 30) (round_robin 20) = Some s ∧
    result s = Some None ∧
    nexts (log s) = [ok [] 7; ok [] 8; eos] ∧
    calls (log s) = [] ∧ queue (cookiesCh s) = [].
Proof.
  edestruct (C10_empty_fetches_are_dropped sentinel_variant
       (MkProducer [ok ([] : list string) 7; ok [] 8; eos] acks)
       accepts 5 (2 ^ 30) [ok [] 7; ok [] 8] [7; 8]%Z eos [] (round_robin 20))
    as (_ & _ & _ & Hcalls & Hq & _).
  - split; [reflexivity|]. split; [|reflexivity]. repeat constructor.
  - vm_compute. reflexivity.
  - eexists. split; [vm_compute; reflexivity|]. split; [reflexivity|].
    split; [reflexivity|]. split; [exact Hcalls|exact Hq].
Defined.

(** The further properties, at the same collaborators. *)

Lemma Pipe_leaves_no_goroutine_example :
  ∃ s, Pipe sentinel_variant
         (MkProducer [ok ["a"; "b"] 1; ok ["c"] 2; eos] acks) accepts 5 (2 ^ 30)
         (round_robin 20) = Some s ∧
       result s = Some None ∧ wg s = 0%nat ∧ coord s = KExited ∧
       closed (doneErrCh s) = true.
Proof.
  edestruct (Pipe_leaves_no_goroutine sentinel_variant
       (MkProducer [ok ["a"; "b"] 1; ok ["c"] 2; eos] acks) accepts 5 (2 ^ 30)
       (round_robin 20)) with (r := @None error)
    as (_ & _ & _ & Hk & Hwg & _ & _ & _ & Hd & _).
  - vm_compute. reflexivity.
  - reflexivity.
  - eexists. split; [vm_compute; reflexivity|]. split; [reflexivity|].
    split; [exact Hwg|]. split; [exact Hk|exact Hd].
Defined.

Lemma Pipe_never_deadlocks_example :
  ∃ ch s',
    step sentinel_variant
      (MkProducer [ok ["a"; "b"] 1; ok ["c"] 2; eos] acks) accepts 5 ch
      (Pipe_init (MkProducer [ok ["a"; "b"] 1; ok ["c"] 2; eos] acks))
    = Goes s'.
Proof.
  eapply (Pipe_never_deadlocks sentinel_variant
       (MkProducer [ok ["a"; "b"] 1; ok ["c"] 2; eos] acks) accepts 5 (2 ^ 30) []).
  - apply Exists_cons_tl, Exists_cons_tl, Exists_cons_hd. exact I.
  - reflexivity.
  - reflexivity.
Defined.

Lemma channels_keep_order_example :
  ∃ s, Pipe sentinel_variant
         (MkProducer [ok ["a"] 1; ok ["b"] 2; ok ["c"] 3; eos]
            (nacks 2 (Sentinel (Foreign "boom"))))
         accepts 5 (2 ^ 30) (round_robin 30) = Some s ∧
       emits (log s) = [1; 2; 3] ∧ committed (log s) = [1; 2] ∧
       (comm_hand (comm s) ++ queue (cookiesCh s))%list = [3].
Proof.
  edestruct (channels_keep_order sentinel_variant
       (MkProducer [ok ["a"] 1; ok ["b"] 2; ok ["c"] 3; eos]
          (nacks 2 (Sentinel (Foreign "boom"))))
       accepts 5 (2 ^ 30) (round_robin 30)) as (_ & He & _).
  - vm_compute. reflexivity.
  - eexists. split; [vm_compute; reflexivity|]. split; [reflexivity|].
    split; [reflexivity|].
    apply (app_inv_head [1; 2]%Z). exact (eq_sym He).
Defined.

Lemma error_reports_never_block_example :
  ∃ s s',
    Pipe sentinel_variant
      (MkProducer [ok ["a"; "b"] 1; ok ["c"] 2; eos] acks)
      (rejects (Sentinel (Foreign "boom"))) 2 (2 ^ 30) (stages_only 7) = Some s ∧
    proc s = PTail (Report (Errorf_wv (Sentinel ErrProcessFailed)
                              (Sentinel (Foreign "boom")))) ∧
    step sentinel_variant
      (MkProducer [ok ["a"; "b"] 1; ok ["c"] 2; eos] acks)
      (rejects (Sentinel (Foreign "boom"))) 2 (Choose AProcess false) s
    = Goes s'.
Proof.
  edestruct (error_reports_never_block sentinel_variant
       (MkProducer [ok ["a"; "b"] 1; ok ["c"] 2; eos] acks)
       (rejects (Sentinel (Foreign "boom"))) 2 (2 ^ 30) (stages_only 7))
    with (pk := false) as (_ & Hp & _).
  - vm_compute. reflexivity.
  - destruct (Hp _ eq_refl) as [s' Hs'].
    eexists _, s'. split; [vm_compute; reflexivity|]. split; [reflexivity|].
    exact Hs'.
Defined.

Lemma no_cancellation_without_failure_example :
  ∃ s, Pipe sentinel_variant
         (MkProducer [ok ["a"; "b"] 1; ok ["c"] 2; eos] acks) accepts 5 (2 ^ 30)
         (round_robin 20) = Some s ∧
       cancelled 0 s = false ∧ cancelled 1 s = false ∧ cancelled 2 s = false.
Proof.
  eexists. split; [vm_compute; reflexivity|].
  split; [|split];
    apply (no_cancellation_without_failure sentinel_variant
       (MkProducer [ok ["a"; "b"] 1; ok ["c"] 2; eos] acks) accepts 5 (2 ^ 30)
       (round_robin 20)); first [vm_compute; reflexivity | reflexivity].
Defined.

(** [Next] fails after two fetches: the first batch, sent when the
    second fetch overflowed, is processed and committed all the same;
    the item of the second fetch is lost with the buffer of
    [runNext]. *)
Lemma downstream_stages_drain_example :
  ∃ s, Pipe sentinel_variant
         (MkProducer [ok ["a"; "b"] 1; ok ["c"] 2;
                      NextRes [] 0 (Some (Sentinel (Foreign "down")))] acks)
         accepts 2 (2 ^ 30) (round_robin 20) = Some s ∧
       result s = Some (Some (Join [Errorf_wv (Sentinel ErrNextFailed)
                                      (Sentinel (Foreign "down"))])) ∧
       cancelChans s = [true; false; false] ∧
       processed (log s) = [Batch ["a"; "b"] [1]] ∧
       committed (log s) = [1].
Proof.
  edestruct (downstream_stages_drain sentinel_variant
       (MkProducer [ok ["a"; "b"] 1; ok ["c"] 2;
                    NextRes [] 0 (Some (Sentinel (Foreign "down")))] acks)
       accepts 2 (2 ^ 30) (round_robin 20)) as (_ & _ & H).
  - reflexivity.
  - reflexivity.
  - vm_compute. reflexivity.
  - destruct (H _ eq_refl) as [Hp Hc].
    eexists. split; [vm_compute; reflexivity|]. split; [reflexivity|].
    split; [reflexivity|]. split; [exact Hp|exact Hc].
Defined.

Lemma every_item_is_processed_once_example :
  ∃ s, Pipe sentinel_variant
         (MkProducer [ok ["a"; "b"; "c"] 1; ok ["d"; "e"] 2;
                      ok ["f"; "g"; "h"] 3; eos] acks)
         accepts 5 (2 ^ 30) (round_robin 20) = Some s ∧
       concat (buf <$> processed (log s))
       = ["a"; "b"; "c"; "d"; "e"; "f"; "g"; "h"] ∧
       committed (log s) = [1; 2; 3].
Proof.
  edestruct (every_item_is_processed_once sentinel_variant
       (MkProducer [ok ["a"; "b"; "c"] 1; ok ["d"; "e"] 2;
                    ok ["f"; "g"; "h"] 3; eos] acks)
       accepts 5 (2 ^ 30)
       [ok ["a"; "b"; "c"] 1; ok ["d"; "e"] 2; ok ["f"; "g"; "h"] 3]
       [(["a"; "b"; "c"], 1); (["d"; "e"], 2); (["f"; "g"; "h"], 3)]%Z
       eos [] (round_robin 20)) with (r := @None error) as (Hi & _ & Hc).
  - split; [reflexivity|]. split; [|reflexivity]. repeat constructor.
  - reflexivity.
  - reflexivity.
  - vm_compute. reflexivity.
  - reflexivity.
  - eexists. split; [vm_compute; reflexivity|]. split; [exact Hi|].
    apply Hc. simpl. discriminate.
Defined.

(** The sequential [Pipe] with the reserved cookie. *)
Lemma Pipe_seq_delivers_the_batches_example :
  ∃ tr, Pipe_seq cookie_variant
          (MkProducer [ok ["a"; "b"; "c"] 1; ok ["d"; "e"] 2;
                       ok ["f"; "g"; "h"] 3; NextRes [] (-1) None] acks)
          accepts 5 (2 ^ 30) = Some (tr, Some None) ∧
        calls tr
        = [EvProcess (Batch ["a"; "b"; "c"; "d"; "e"] [1; 2]) None;
           EvCommit 1 None; EvCommit 2 None;
           EvProcess (Batch ["f"; "g"; "h"] [3]) None; EvCommit 3 None].
Proof.
  eexists. split; [vm_compute; reflexivity|].
  refine (proj1 (proj2 (proj2 (Pipe_seq_delivers_the_batches cookie_variant
       (MkProducer [ok ["a"; "b"; "c"] 1; ok ["d"; "e"] 2;
                    ok ["f"; "g"; "h"] 3; NextRes [] (-1) None] acks)
       accepts 5 (2 ^ 30) _ _)))).
  vm_compute. reflexivity.
Defined.

Lemma Pipe_seq_stops_at_the_first_failure_example :
  ∃ tr l1 ev,
    Pipe_seq sentinel_variant
      (MkProducer [ok ["a"] 1; ok ["b"] 2; ok ["c"] 3; eos]
         (nacks 2 (Sentinel (Foreign "boom"))))
      accepts 5 (2 ^ 30)
    = Some (tr, Some (Some (Errorf_wv (Sentinel ErrCommitFailed)
                              (Sentinel (Foreign "boom"))))) ∧
    tr = (l1 ++ [ev])%list ∧ failures sentinel_variant l1 = [] ∧
    failure sentinel_variant ev
    = Some (Errorf_wv (Sentinel ErrCommitFailed) (Sentinel (Foreign "boom"))).
Proof.
  edestruct (Pipe_seq_stops_at_the_first_failure sentinel_variant
       (MkProducer [ok ["a"] 1; ok ["b"] 2; ok ["c"] 3; eos]
          (nacks 2 (Sentinel (Foreign "boom"))))
       accepts 5 (2 ^ 30)) as (l1 & ev & Htr & Hf & Hev & _).
  - vm_compute. reflexivity.
  - eexists _, l1, ev. split; [vm_compute; reflexivity|].
    split; [exact Htr|]. split; [exact Hf|exact Hev].
Defined.

Lemma Pipe_seq_returns_example :
  ∃ tr r, Pipe_seq sentinel_variant
            (MkProducer [ok ["a"; "b"] 1; ok ["c"] 2; eos] acks) accepts 5 (2 ^ 30)
          = Some (tr, Some r) ∧
          (r = None ↔ failures sentinel_variant tr = []).
Proof.
  apply (Pipe_seq_returns sentinel_variant
       (MkProducer [ok ["a"; "b"] 1; ok ["c"] 2; eos] acks) accepts 5 (2 ^ 30)).
  - vm_compute. reflexivity.
  - apply Exists_cons_tl, Exists_cons_tl, Exists_cons_hd. exact I.
Defined.

Lemma Pipe_agrees_with_Pipe_seq_example :
  ∃ s tr,
    Pipe sentinel_variant
      (MkProducer [ok ["a"; "b"; "c"] 1; ok ["d"; "e"] 2;
                   ok ["f"; "g"; "h"] 3; eos] acks)
      accepts 5 (2 ^ 30) (round_robin 20) = Some s ∧
    Pipe_seq sentinel_variant
      (MkProducer [ok ["a"; "b"; "c"] 1; ok ["d"; "e"] 2;
                   ok ["f"; "g"; "h"] 3; eos] acks)
      accepts 5 (2 ^ 30) = Some (tr, Some None) ∧
    processed (log s) = processed tr ∧ committed (log s) = committed tr.
Proof.
  edestruct (Pipe_agrees_with_Pipe_seq sentinel_variant
       (MkProducer [ok ["a"; "b"; "c"] 1; ok ["d"; "e"] 2;
                    ok ["f"; "g"; "h"] 3; eos] acks)
       accepts 5 (2 ^ 30)
       [ok ["a"; "b"; "c"] 1; ok ["d"; "e"] 2; ok ["f"; "g"; "h"] 3]
       [(["a"; "b"; "c"], 1); (["d"; "e"], 2); (["f"; "g"; "h"], 3)]%Z
       eos [] (round_robin 20)) with (r := @None error)
    as (tr & Hseq & Hp & Hc & _).
  - split; [reflexivity|]. split; [|reflexivity]. repeat constructor.
  - reflexivity.
  - reflexivity.
  - vm_compute. reflexivity.
  - reflexivity.
  - eexists _, tr. split; [vm_compute; reflexivity|].
    split; [exact Hseq|]. split; [exact Hp|exact Hc].
Defined.

(** [make] in [runNext]: a negative capacity and a capacity of
    [math.MaxInt64] stop the program before any goroutine has called a
    collaborator, whatever the memory at hand and the schedule; a
    capacity of 5 is served from a gigabyte. *)
Lemma Pipe_make_example memory sched :
  Pipe sentinel_variant
    (MkProducer [ok ["a"; "b"] 1; ok ["c"] 2; eos] acks) accepts (-1)
    memory sched = None ∧
  Pipe sentinel_variant
    (MkProducer [ok ["a"; "b"] 1; ok ["c"] 2; eos] acks) accepts
    9223372036854775807 memory sched = None ∧
  Pipe_seq sentinel_variant
    (MkProducer [ok ["a"; "b"] 1; ok ["c"] 2; eos] acks) accepts
    9223372036854775807 memory = None ∧
  make_fails (2 ^ 30) 5 = false.
Proof.
  assert (make_fails memory (-1) = true) as H1.
  { apply bool_decide_eq_true_2. left. lia. }
  assert (make_fails memory 9223372036854775807 = true) as H2.
  { apply bool_decide_eq_true_2. right. unfold maxAlloc.
    change (2 ^ 48)%Z with 281474976710656%Z. lia. }
  unfold Pipe, Pipe_seq. rewrite H1, H2. repeat split.
Qed.
